(** * Scanner image updater: a shallow embedding of
      [deployments/scripts/update-scanner-images.py]

    The script reads a Go source file, looks up the newest stable tag of
    every tracked scanner image on Docker Hub, rewrites the stale image
    references and writes a markdown report.

    Modelling conventions.
    - A Python [str] is a list of characters; a character is a code point
      below 256 ([ascii]).  On that range the regex class [\d] is exactly
      [0-9] and [\s] is the set listed in [is_space].
    - Version components are unbounded naturals ([N]); [int] folds the
      digits as Python's [int()] does (the interpreter's configurable
      limit on the number of digits is not modelled).
    - A call can return, raise, or (for the pagination loop) fail to
      terminate: see [outcome].  Effects (requests sent, files written)
      are threaded through an explicit [world]. *)

From Stdlib Require Import NArith ZArith Ascii String List Sorting.Sorted Permutation Lia.
From stdpp Require Import base decidable option list gmap strings.

#[local] Set Warnings "-register-all".
Local Open Scope list_scope.
Local Open Scope N_scope.

(** ** Strings *)

Abbreviation str := (list ascii).

Definition lit (s : string) : str := list_ascii_of_string s.
Arguments lit : simpl never.

Definition code (c : ascii) : N := N_of_ascii c.

(** [\d] on code points below 256. *)
Definition is_digit (c : ascii) : bool := (48 <=? code c) && (code c <=? 57).

(** [\s] for a [str] pattern, on code points below 256. *)
Definition is_space (c : ascii) : bool :=
  ((9 <=? code c) && (code c <=? 13))
  || ((28 <=? code c) && (code c <=? 32))
  || (code c =? 133) || (code c =? 160).

(** [[A-Za-z_]] *)
Definition is_ident_start (c : ascii) : bool :=
  ((65 <=? code c) && (code c <=? 90))
  || ((97 <=? code c) && (code c <=? 122))
  || (code c =? 95).

(** [[A-Za-z0-9_]] *)
Definition is_ident_char (c : ascii) : bool := is_ident_start c || is_digit c.

Definition is_quote (c : ascii) : bool := code c =? 34.
Definition is_colon (c : ascii) : bool := code c =? 58.

(** The boundaries [str.splitlines] recognises, below 256. *)
Definition is_linebreak (c : ascii) : bool :=
  ((10 <=? code c) && (code c <=? 13))
  || ((28 <=? code c) && (code c <=? 30))
  || (code c =? 133).

Definition ch_v : ascii := "v"%char.
Definition ch_dot : ascii := "."%char.
Definition ch_colon : ascii := ":"%char.
Definition ch_quote : ascii := "034"%char.
Definition ch_eq : ascii := "="%char.
Definition ch_lf : ascii := "010"%char.
Definition ch_cr : ascii := "013"%char.

(** Greedy run of a character class: the longest prefix and what follows. *)
Fixpoint span (p : ascii -> bool) (s : str) : str * str :=
  match s with
  | [] => ([], [])
  | c :: r => if p c then let '(a, b) := span p r in (c :: a, b) else ([], s)
  end.

(** ** Decimal numerals *)

Definition digit_val (c : ascii) : N := code c - 48.

(** [int(s)] for a string of decimal digits.  The interpreter refuses a
    string of more than 4300 digits (its default limit) with a
    ValueError; the conversion below has no such limit, so it stands for
    [int] on the numerals within the limit only. *)
Definition int (s : str) : N := fold_left (fun acc c => 10 * acc + digit_val c) s 0.

Definition digit_char (d : N) : ascii := ascii_of_N (48 + d).

Fixpoint dec_aux (fuel : nat) (n : N) (acc : str) : str :=
  let acc' := digit_char (n mod 10) :: acc in
  match fuel with
  | O => acc'
  | S f => if n <? 10 then acc' else dec_aux f (n / 10) acc'
  end.

(** [str(n)], the decimal numeral an f-string inserts for an [int]. *)
Definition dec (n : N) : str := dec_aux (N.to_nat (N.log2 n)) n [].

(** ** Semantic versions *)

Definition version : Type := N * N * N.

(** [SEMVER_RE.match(tag)], with [SEMVER_RE = ^v(\d+)\.(\d+)\.(\d+)$].
    Each [\d+] is greedy and is followed by a character that is not a
    digit, so the longest run is the only candidate.  Without the
    MULTILINE flag [$] matches at the end of the string and also just
    before a newline that ends the string. *)
Definition semver_match (tag : str) : option (str * str * str) :=
  match tag with
  | c :: r0 =>
    if Ascii.eqb c ch_v then
      let '(g1, r1) := span is_digit r0 in
      match g1, r1 with
      | _ :: _, d1 :: r2 =>
        if Ascii.eqb d1 ch_dot then
          let '(g2, r3) := span is_digit r2 in
          match g2, r3 with
          | _ :: _, d2 :: r4 =>
            if Ascii.eqb d2 ch_dot then
              let '(g3, r5) := span is_digit r4 in
              match g3, r5 with
              | _ :: _, [] => Some (g1, g2, g3)
              | _ :: _, [e] => if Ascii.eqb e ch_lf then Some (g1, g2, g3) else None
              | _, _ => None
              end
            else None
          | _, _ => None
          end
        else None
      | _, _ => None
      end
    else None
  | [] => None
  end.

Definition parse_semver (tag : str) : option version :=
  match semver_match tag with
  | None => None
  | Some (g1, g2, g3) => Some (int g1, int g2, int g3)
  end.

(** [f"v{latest[0]}.{latest[1]}.{latest[2]}"] *)
Definition format_version (v : version) : str :=
  let '(a, b, c) := v in
  ch_v :: dec a ++ ch_dot :: dec b ++ ch_dot :: dec c.

(** Tuple comparison [x < y] on triples of integers. *)
Definition version_ltb (x y : version) : bool :=
  let '(a1, b1, c1) := x in
  let '(a2, b2, c2) := y in
  (a1 <? a2) || ((a1 =? a2) && ((b1 <? b2) || ((b1 =? b2) && (c1 <? c2)))).

(** [max(versions)] of a non-empty list: the running maximum is replaced
    only by a strictly greater item. *)
Definition max_version (first : version) (rest : list version) : version :=
  fold_left (fun m x => if version_ltb m x then x else m) rest first.

(** ** String operations of the standard library used by the script *)

(** [s.startswith(p)] *)
Fixpoint starts_with (p s : str) : bool :=
  match p, s with
  | [], _ => true
  | _ :: _, [] => false
  | a :: p', b :: s' => Ascii.eqb a b && starts_with p' s'
  end.

(** [old in s] *)
Fixpoint occurs (old s : str) : bool :=
  starts_with old s || match s with [] => false | _ :: r => occurs old r end.

(** [s.replace(old, new, 1)]: the leftmost occurrence only. *)
Fixpoint replace_first (old new s : str) : str :=
  if starts_with old s then new ++ drop (length old) s
  else match s with
       | [] => []
       | c :: r => c :: replace_first old new r
       end.

(** [":" in value] *)
Definition has_colon (value : str) : bool := existsb is_colon value.

(** [value.rsplit(":", 1)] when a colon is present: the text before the
    last colon and the text after it; [None] when there is no colon (the
    method then returns a one-element list). *)
Fixpoint rsplit_colon (value : str) : option (str * str) :=
  match value with
  | [] => None
  | c :: r =>
    match rsplit_colon r with
    | Some (a, b) => Some (c :: a, b)
    | None => if is_colon c then Some ([], r) else None
    end
  end.

(** Comparison of two [str] values, by code point. *)
Fixpoint str_leb (a b : str) : bool :=
  match a, b with
  | [], _ => true
  | _ :: _, [] => false
  | x :: a', y :: b' =>
    if code x <? code y then true
    else if code x =? code y then str_leb a' b' else false
  end.

(** [text.splitlines(keepends=True)]; [cur] is the line being collected. *)
Fixpoint splitlines_from (cur : str) (text : str) : list str :=
  match text with
  | [] => match cur with [] => [] | _ :: _ => [cur] end
  | c :: r =>
    if is_linebreak c then
      match r with
      | d :: r' =>
        if Ascii.eqb c ch_cr && Ascii.eqb d ch_lf
        then (cur ++ [c; d]) :: splitlines_from [] r'
        else (cur ++ [c]) :: splitlines_from [] r
      | [] => (cur ++ [c]) :: splitlines_from [] r
      end
    else splitlines_from (cur ++ [c]) r
  end.

Definition splitlines (text : str) : list str := splitlines_from [] text.

(** [sep.join(parts)] *)
Fixpoint join (sep : str) (parts : list str) : str :=
  match parts with
  | [] => []
  | [p] => p
  | p :: rest => p ++ sep ++ join sep rest
  end.

(** ** Exceptions and outcomes *)

Inductive exn_class : Type :=
  | HTTPError | URLError | TimeoutError | JSONDecodeError
  | ValueError | KeyError | TypeError | AttributeError | IndexError.

Record exn : Type := Exn { exn_class_of : exn_class; exn_msg : str }.

(** What [except (HTTPError, URLError, ValueError, KeyError)] catches:
    the listed classes and their subclasses. *)
Definition caught_by_main (e : exn) : bool :=
  match exn_class_of e with
  | HTTPError | URLError | ValueError | JSONDecodeError | KeyError => true
  | TimeoutError | TypeError | AttributeError | IndexError => false
  end.

Inductive outcome (A : Type) : Type :=
  | Ret (a : A)
  | Raise (e : exn)
  | Diverge.
Arguments Ret {A} a.
Arguments Raise {A} e.
Arguments Diverge {A}.

(** ** JSON values, as [json.load] delivers them

    Numbers are integers here.  A dict is an association list in which
    the first binding of a key is the one the dict holds. *)

Inductive json : Type :=
  | JNull
  | JBool (b : bool)
  | JNum (z : Z)
  | JStr (s : str)
  | JArr (items : list json)
  | JObj (fields : list (str * json)).

(** Truth value of an object in [while next_url:]. *)
Definition truthy (j : json) : bool :=
  match j with
  | JNull => false
  | JBool b => b
  | JNum z => negb (z =? 0)%Z
  | JStr s => match s with [] => false | _ => true end
  | JArr l => match l with [] => false | _ => true end
  | JObj f => match f with [] => false | _ => true end
  end.

Fixpoint assoc (key : str) (fields : list (str * json)) : option json :=
  match fields with
  | [] => None
  | (k, v) :: rest => if decide (k = key) then Some v else assoc key rest
  end.

(** [obj.get(key, default)]; only a dict has the method. *)
Definition json_get (obj : json) (key : str) (default : json) : outcome json :=
  match obj with
  | JObj fields => Ret (match assoc key fields with Some v => v | None => default end)
  | _ => Raise (Exn AttributeError (lit "object has no attribute 'get'"))
  end.

(** The items a [for] loop draws from a JSON value: the elements of a
    list, the keys of a dict, the characters of a string. *)
Definition json_iter (j : json) : outcome (list json) :=
  match j with
  | JArr items => Ret items
  | JObj fields => Ret (map (fun kv => JStr (fst kv)) fields)
  | JStr s => Ret (map (fun c => JStr [c]) s)
  | _ => Raise (Exn TypeError (lit "object is not iterable"))
  end.

(** ** The world: registry requests and files *)

Inductive response : Type :=
  | Failure (e : exn)     (* the request or the decoding of its body raised *)
  | Payload (j : json).   (* the decoded body *)

(** A file is known by its path and holds the text that [read_text]
    returns and [write_text] takes; encoding and the newline translation
    of text mode lie outside the model. *)
Record world : Type := World {
  requests : list json;          (* objects passed to [Request], oldest first *)
  fs : gmap str str;             (* path |-> content *)
  writes : list (str * str);     (* every [write_text], oldest first *)
}.

Definition M (A : Type) : Type := world -> outcome A * world.

Definition ret {A} (a : A) : M A := fun w => (Ret a, w).
Definition raise {A} (e : exn) : M A := fun w => (Raise e, w).
Definition diverge {A} : M A := fun w => (Diverge, w).
Definition lift {A} (o : outcome A) : M A := fun w => (o, w).

Definition bind {A B} (m : M A) (k : A -> M B) : M B :=
  fun w =>
    match m w with
    | (Ret a, w') => k a w'
    | (Raise e, w') => (Raise e, w')
    | (Diverge, w') => (Diverge, w')
    end.

Notation "'let*' x ':=' m 'in' k" := (bind m (fun x => k))
  (at level 10, x name, m at level 200, k at level 200).

(** [path.write_text(content)] when the write succeeds: the file then
    holds [content].  A write that fails, raising an OSError, is not part
    of the model. *)
Definition write_text (path content : str) : M unit :=
  fun w => (Ret tt, World (requests w) (<[path := content]> (fs w)) (writes w ++ [(path, content)])).

(** Bind of the exception-only fragment. *)
Definition obind {A B} (o : outcome A) (k : A -> outcome B) : outcome B :=
  match o with
  | Ret a => k a
  | Raise e => Raise e
  | Diverge => Diverge
  end.

(** ** The script *)

Definition DOCKER_HUB_NAMESPACE : str := lit "horuszup".

(** Go const names from internal/enums/images/images.go, in the order the
    dict literal lists them. *)
Definition TARGET_CONST_TO_REPOSITORY : list (str * str) :=
  [ (lit "C", lit "horusec-c");
    (lit "Csharp", lit "horusec-csharp");
    (lit "Elixir", lit "horusec-elixir");
    (lit "Generic", lit "horusec-generic");
    (lit "Go", lit "horusec-go");
    (lit "HCL", lit "horusec-hcl");
    (lit "Javascript", lit "horusec-js");
    (lit "Leaks", lit "horusec-leaks");
    (lit "PHP", lit "horusec-php");
    (lit "Python", lit "horusec-python");
    (lit "Ruby", lit "horusec-ruby");
    (lit "Shell", lit "horusec-shell") ].

Record ImageUpdate : Type := mkImageUpdate {
  const_name : str;
  repository : str;
  from_tag : str;
  to_tag : str;
}.

(** [CONST_LINE_RE.match(line)] with
    the pattern: start of line, group indent = any run of [\s], group
    const = one of [A-Za-z_] then any run of [A-Za-z0-9_], any run of
    [\s], an equals sign, any run of [\s], a double quote, group value = a
    non-empty run of characters other than the double quote, a double
    quote.  The result is the groups [(indent, const, value)].
    [const_line_head] matches up to the opening quote and returns what
    follows it; [const_line_match] then reads the value, which must be
    followed by a quote.  Every greedy run is followed by
    a character outside its class, so the longest run is the only
    candidate at each step. *)
Definition const_line_head (line : str) : option (str * str * str) :=
  let '(indent, r0) := span is_space line in
  match r0 with
  | c :: r1 =>
    if is_ident_start c then
      let '(cs, r2) := span is_ident_char r1 in
      let '(_, r3) := span is_space r2 in
      match r3 with
      | e :: r4 =>
        if Ascii.eqb e ch_eq then
          let '(_, r5) := span is_space r4 in
          match r5 with
          | q :: r6 => if Ascii.eqb q ch_quote then Some (indent, c :: cs, r6) else None
          | [] => None
          end
        else None
      | [] => None
      end
    else None
  | [] => None
  end.

Definition const_line_match (line : str) : option (str * str * str) :=
  match const_line_head line with
  | Some (indent, const, r6) =>
    let '(value, r7) := span (fun x => negb (is_quote x)) r6 in
    match value, r7 with
    | _ :: _, _ :: _ => Some (indent, const, value)
    | _, _ => None
    end
  | None => None
  end.

(** The loop of [parse_image_constants], from line number [index] on. *)
Fixpoint parse_from (index : nat) (lines : list str)
    (constants : gmap str (nat * str)) : gmap str (nat * str) :=
  match lines with
  | [] => constants
  | line :: rest =>
    parse_from (S index) rest
      match const_line_match line with
      | None => constants
      | Some (_, const, value) => <[const := (index, value)]> constants
      end
  end.

Definition parse_image_constants (lines : list str) : gmap str (nat * str) :=
  parse_from 0 lines ∅.

Definition invalid_format (value : str) : exn :=
  Exn ValueError (lit "Invalid image reference format: " ++ value).

Definition extract_image_tag (value : str) : outcome str :=
  if negb (has_colon value) then Raise (invalid_format value)
  else match rsplit_colon value with
       | Some (_, tag) => Ret tag
       | None => Raise (Exn IndexError (lit "list index out of range"))
       end.

Definition replace_image_tag (value new_tag : str) : outcome str :=
  if negb (has_colon value) then Raise (invalid_format value)
  else match rsplit_colon value with
       | Some (image_name, _) => Ret (image_name ++ ch_colon :: new_tag)
       | None => Ret (value ++ ch_colon :: new_tag)
       end.

(** [sorted(updates, key=lambda item: item.const_name)]: a stable sort. *)
Fixpoint insert_by_name (u : ImageUpdate) (l : list ImageUpdate) : list ImageUpdate :=
  match l with
  | [] => [u]
  | x :: r =>
    if str_leb (const_name u) (const_name x) then u :: l
    else x :: insert_by_name u r
  end.

Definition sorted_by_name (l : list ImageUpdate) : list ImageUpdate :=
  foldr insert_by_name [] l.

(** The body of the loop of [apply_updates].  Line numbers are naturals,
    as [enumerate] produces them; a number past the end raises. *)
Definition apply_update (constants : gmap str (nat * str))
    (updated_lines : list str) (update : ImageUpdate) : outcome (list str) :=
  match constants !! const_name update with
  | None => Raise (Exn KeyError (const_name update))
  | Some (line_index, current_value) =>
    obind (replace_image_tag current_value (to_tag update)) (fun new_value =>
      match updated_lines !! line_index with
      | None => Raise (Exn IndexError (lit "list index out of range"))
      | Some line =>
        Ret (<[line_index := replace_first current_value new_value line]> updated_lines)
      end)
  end.

Fixpoint apply_updates_loop (constants : gmap str (nat * str))
    (updated_lines : list str) (updates : list ImageUpdate) : outcome (list str) :=
  match updates with
  | [] => Ret updated_lines
  | update :: rest =>
    obind (apply_update constants updated_lines update) (fun updated_lines' =>
      apply_updates_loop constants updated_lines' rest)
  end.

Definition apply_updates (lines : list str) (constants : gmap str (nat * str))
    (updates : list ImageUpdate) : outcome (list str) :=
  apply_updates_loop constants lines updates.

Definition report_line (update : ImageUpdate) : str :=
  lit "- `" ++ DOCKER_HUB_NAMESPACE ++ lit "/" ++ repository update ++ lit "`: `"
    ++ from_tag update ++ lit "` -> `" ++ to_tag update ++ lit "`".

Section Script.

(** What the registry answers to a request for a URL with a timeout:
    a decoded JSON body, or the exception raised by [urlopen] or
    [json.load]. *)
Variable registry : json -> Z -> response.

(** The formatted UTC time [write_report] reads from the clock. *)
Variable timestamp : str.

(** [urlopen(Request(url, ...), timeout=timeout)] then [json.load]. *)
Definition http_get_json (url : json) (timeout : Z) : M json :=
  fun w =>
    let w' := World (requests w ++ [url]) (fs w) (writes w) in
    match registry url timeout with
    | Failure e => (Raise e, w')
    | Payload j => (Ret j, w')
    end.

(** The inner [for result in ...] loop of [fetch_tags]. *)
Fixpoint collect_names (results : list json) (tags : list str) : outcome (list str) :=
  match results with
  | [] => Ret tags
  | result :: rest =>
    obind (json_get result (lit "name") JNull) (fun name =>
      collect_names rest
        match name with
        | JStr s => tags ++ [s]
        | _ => tags
        end)
  end.

Definition page_tags (payload : json) (tags : list str) : outcome (list str) :=
  obind (json_get payload (lit "results") (JArr [])) (fun results =>
  obind (json_iter results) (fun items =>
  collect_names items tags)).

(** [while next_url: ...]; [fuel] bounds the number of iterations. *)
Fixpoint fetch_tags_loop (fuel : nat) (timeout : Z) (next_url : json)
    (tags : list str) : M (list str) :=
  if truthy next_url then
    match fuel with
    | O => diverge
    | S fuel' =>
      let* payload := http_get_json next_url timeout in
      let* tags' := lift (page_tags payload tags) in
      let* next_url' := lift (json_get payload (lit "next") JNull) in
      fetch_tags_loop fuel' timeout next_url' tags'
    end
  else ret tags.

Definition first_page_url (repository : str) : str :=
  lit "https://hub.docker.com/v2/namespaces/" ++ DOCKER_HUB_NAMESPACE
    ++ lit "/repositories/" ++ repository ++ lit "/tags?page_size=100".

Definition fetch_tags (repository : str) (timeout : Z) (fuel : nat) : M (list str) :=
  fetch_tags_loop fuel timeout (JStr (first_page_url repository)) [].

Definition no_stable_tag (repository : str) : exn :=
  Exn ValueError (lit "No stable semantic tag found for " ++ repository).

(** The selection made once the tags are fetched. *)
Definition select_latest (repository : str) (tags : list str) : outcome str :=
  match omap parse_semver tags with
  | [] => Raise (no_stable_tag repository)
  | v :: vs => Ret (format_version (max_version v vs))
  end.

Definition fetch_latest_semver_tag (repository : str) (timeout : Z) (fuel : nat) : M str :=
  let* tags := fetch_tags repository timeout fuel in
  lift (select_latest repository tags).

Definition constant_not_found (const_name : str) : exn :=
  Exn KeyError (lit "Constant " ++ const_name ++ lit " not found in images.go").

Definition latest_not_stable (repository latest_tag : str) : exn :=
  Exn ValueError (lit "Latest tag is not stable semver: " ++ repository ++ ch_colon :: latest_tag).

(** One iteration of the loop of [compute_updates]: the record to
    append, if any. *)
Definition plan_step (constants : gmap str (nat * str)) (timeout : Z) (fuel : nat)
    (entry : str * str) : M (option ImageUpdate) :=
  let '(const_name, repository) := entry in
  match constants !! const_name with
  | None => raise (constant_not_found const_name)
  | Some (_, value) =>
    let* current_tag := lift (extract_image_tag value) in
    let* latest_tag := fetch_latest_semver_tag repository timeout fuel in
    match parse_semver latest_tag with
    | None => raise (latest_not_stable repository latest_tag)
    | Some _ =>
      if decide (current_tag = latest_tag) then ret None
      else ret (Some (mkImageUpdate const_name repository current_tag latest_tag))
    end
  end.

Fixpoint plan_loop (constants : gmap str (nat * str)) (timeout : Z) (fuel : nat)
    (table : list (str * str)) (updates : list ImageUpdate) : M (list ImageUpdate) :=
  match table with
  | [] => ret updates
  | entry :: rest =>
    let* step := plan_step constants timeout fuel entry in
    plan_loop constants timeout fuel rest
      match step with
      | Some update => updates ++ [update]
      | None => updates
      end
  end.

(** [compute_updates] over an arbitrary tracked table. *)
Definition compute_updates_over (table : list (str * str))
    (constants : gmap str (nat * str)) (timeout : Z) (fuel : nat) : M (list ImageUpdate) :=
  let* updates := plan_loop constants timeout fuel table [] in
  ret (sorted_by_name updates).

Definition compute_updates (constants : gmap str (nat * str)) (timeout : Z) (fuel : nat)
    : M (list ImageUpdate) :=
  compute_updates_over TARGET_CONST_TO_REPOSITORY constants timeout fuel.

Definition report_text (updates : list ImageUpdate) : str :=
  let lines :=
    [ lit "## Scanner Governance"; []; lit "Generated at: `" ++ timestamp ++ lit "`"; [] ]
    ++ match updates with
       | [] => [ lit "No scanner image updates were detected."; [] ]
       | _ :: _ =>
         [ lit "Updated image tags:"; [] ]
         ++ map report_line updates
         ++ [ []; lit "Regression validation is executed by CI before opening this PR."; [] ]
       end
  in join [ch_lf] lines.

Definition write_report (report_file : str) (updates : list ImageUpdate) : M unit :=
  write_text report_file (report_text updates).

(** The [try] block of [main], once the file content is read. *)
Definition main_body (images_file report_file : str) (timeout : Z) (fuel : nat)
    (text : str) : M Z :=
  let original_lines := splitlines text in
  let constants := parse_image_constants original_lines in
  let* updates := compute_updates constants timeout fuel in
  let* updated_lines := lift (apply_updates original_lines constants updates) in
  let* _ := (match updates with
   | [] => ret tt
   | _ :: _ => write_text images_file (concat updated_lines)
   end) in
  let* _ := write_report report_file updates in
  ret 0%Z.

(** [main], returning the exit status; messages printed to the
    terminal are left out.  [fs] holds, for every file that exists, the
    text that reading it in text mode returns; a file that exists but
    cannot be read or decoded is not part of the model. *)
Definition main (images_file report_file : str) (timeout : Z) (fuel : nat) : M Z :=
  fun w =>
    match fs w !! images_file with
    | None => (Ret 1%Z, w)
    | Some text =>
      match main_body images_file report_file timeout fuel text w with
      | (Raise e, w') => if caught_by_main e then (Ret 1%Z, w') else (Raise e, w')
      | r => r
      end
    end.

End Script.

(** ** Specification-side notions *)

(** The order on triples the specification names: first by major, then
    by minor, then by patch. *)
Definition version_le (x y : version) : Prop :=
  let '(a1, b1, c1) := x in
  let '(a2, b2, c2) := y in
  a1 < a2 \/ (a1 = a2 /\ (b1 < b2 \/ (b1 = b2 /\ c1 <= c2))).

Definition digits (s : str) : Prop := s <> [] /\ forallb is_digit s = true.

(** A tag of the exact form v, digits, dot, digits, dot, digits, and the
    triple written in it. *)
Definition stable_semver_form (tag : str) (v : version) : Prop :=
  exists a b c, digits a /\ digits b /\ digits c
    /\ tag = ch_v :: a ++ ch_dot :: b ++ ch_dot :: c
    /\ v = (int a, int b, int c).

(** The filter [fetch_latest_semver_tag] itself applies to a tag:
    [parse_semver] returns a version for it.  This is the code's test,
    not the exact form [stable_semver_form] of the specification: the two
    differ on a tag that ends in a newline. *)
Definition passes_filter (tag : str) : Prop := parse_semver tag <> None.

(** The world after [log] more requests and nothing else. *)
Definition add_requests (log : list json) (w : world) : world :=
  World (requests w ++ log) (fs w) (writes w).

(** A greedy run ends where the text ends or the class fails. *)
Definition stops (p : ascii -> bool) (s : str) : Prop :=
  match s with
  | [] => True
  | c :: _ => p c = false
  end.

(** ** Registry pages *)

(** The name a result entry contributes: its [name] field when that is a
    string. *)
Definition string_name (item : json) : option str :=
  match item with
  | JObj fields =>
    match assoc (lit "name") fields with
    | Some (JStr s) => Some s
    | _ => None
    end
  | _ => None
  end.

Definition is_object (j : json) : Prop := exists fields, j = JObj fields.

(** A page the walk can read: an object whose [results] is a list of
    objects; [names] are the string names in that list, in order, and
    [next] is the continuation field ([JNull] when absent). *)
Definition page_of (payload : json) (names : list str) (next : json) : Prop :=
  exists fields items,
    payload = JObj fields
    /\ assoc (lit "results") fields = Some (JArr items)
    /\ Forall is_object items
    /\ names = omap string_name items
    /\ next = match assoc (lit "next") fields with Some v => v | None => JNull end.

(** [walk registry timeout url pages last]: starting at [url] the
    registry serves the pages [pages] (each with the URL it was requested
    at and the names it lists), every one reached through a truthy
    reference, and the last of them refers to [last]. *)
Inductive walk (registry : json -> Z -> response) (timeout : Z)
    : json -> list (json * list str) -> json -> Prop :=
  | walk_done (url : json) : walk registry timeout url [] url
  | walk_page (url payload next last : json) (names : list str)
        (rest : list (json * list str)) :
      truthy url = true ->
      registry url timeout = Payload payload ->
      page_of payload names next ->
      walk registry timeout next rest last ->
      walk registry timeout url ((url, names) :: rest) last.

(** A response body of the shape the registry interface documents:
    [results] is a list of objects that each carry a string [name], and
    [next] is a URL string, null or absent. *)
Definition documented_page (payload : json) : Prop :=
  exists fields items,
    payload = JObj fields
    /\ assoc (lit "results") fields = Some (JArr items)
    /\ Forall (fun item => exists f s, item = JObj f /\ assoc (lit "name") f = Some (JStr s)) items
    /\ match assoc (lit "next") fields with
       | None | Some JNull | Some (JStr _) => True
       | Some _ => False
       end.

(** ** Assignment lines *)

(** [line] is an assignment of [value] to [const]. *)
Definition matches (line const value : str) : Prop :=
  exists indent, const_line_match line = Some (indent, const, value).

Definition assigns (line const : str) : Prop := exists value, matches line const value.

Definition no_quote (s : str) : Prop := forallb (fun x => negb (is_quote x)) s = true.

(** Neither a colon nor a double quote. *)
Definition plain (c : ascii) : bool := negb (is_colon c) && negb (is_quote c).

(** The last line from number [index] on that assigns [const], with its
    number and value. *)
Fixpoint last_assignment (index : nat) (lines : list str) (const : str) : option (nat * str) :=
  match lines with
  | [] => None
  | line :: rest =>
    match last_assignment (S index) rest const with
    | Some entry => Some entry
    | None =>
      match const_line_match line with
      | Some (_, const', value) => if decide (const' = const) then Some (index, value) else None
      | None => None
      end
    end
  end.

(** [old] occurs in [pre ++ old ++ post] at the end of [pre] and nowhere
    further left. *)
Definition leftmost (old pre post : str) : Prop :=
  forall pre1 pre2, pre = pre1 ++ pre2 -> pre2 <> [] ->
    starts_with old (pre2 ++ old ++ post) = false.

(** The line an update record rewrites, according to the mapping. *)
Definition target_line (constants : gmap str (nat * str)) (update : ImageUpdate) : option nat :=
  match constants !! const_name update with
  | Some (line_index, _) => Some line_index
  | None => None
  end.

(** ** The plan as a function of the registry's answers *)

(** A computation that only sends requests: its outcome does not depend
    on the world, and the world changes by the requests sent. *)
Definition net_only {A} (m : M A) : Prop :=
  exists o log, forall w, m w = (o, add_requests log w).

Definition empty_world : world := World [] ∅ [].

(** The outcome of [fetch_latest_semver_tag] for a repository. *)
Definition latest_of (registry : json -> Z -> response) (timeout : Z) (fuel : nat)
    (repository : str) : outcome str :=
  fst (fetch_latest_semver_tag registry repository timeout fuel empty_world).

(** The outcome of [plan_step], given the outcome [latest] of the
    registry lookup for each repository. *)
Definition plan_entry (constants : gmap str (nat * str)) (latest : str -> outcome str)
    (entry : str * str) : outcome (option ImageUpdate) :=
  let '(const_name, repository) := entry in
  match constants !! const_name with
  | None => Raise (constant_not_found const_name)
  | Some (_, value) =>
    obind (extract_image_tag value) (fun current_tag =>
    obind (latest repository) (fun latest_tag =>
      match parse_semver latest_tag with
      | None => Raise (latest_not_stable repository latest_tag)
      | Some _ =>
        if decide (current_tag = latest_tag) then Ret None
        else Ret (Some (mkImageUpdate const_name repository current_tag latest_tag))
      end))
  end.

Definition option_list {A} (o : option A) : list A :=
  match o with
  | Some a => [a]
  | None => []
  end.

Fixpoint plan_pure (constants : gmap str (nat * str)) (latest : str -> outcome str)
    (table : list (str * str)) (updates : list ImageUpdate) : outcome (list ImageUpdate) :=
  match table with
  | [] => Ret updates
  | entry :: rest =>
    obind (plan_entry constants latest entry) (fun step =>
      plan_pure constants latest rest
        match step with
        | Some update => updates ++ [update]
        | None => updates
        end)
  end.

(** The records a table entry contributes when its step returns. *)
Definition step_records (constants : gmap str (nat * str)) (latest : str -> outcome str)
    (entry : str * str) : list ImageUpdate :=
  match plan_entry constants latest entry with
  | Ret step => option_list step
  | _ => []
  end.

(** The step of a table entry returns. *)
Definition returns (constants : gmap str (nat * str)) (latest : str -> outcome str)
    (entry : str * str) : Prop :=
  exists step, plan_entry constants latest entry = Ret step.



(** ** A buffer and its patched version *)

(** How a line of the patched buffer relates to the original line: it
    is the same line, or it is an assignment line whose value has the
    text after its last colon replaced by a tag the registry lookup
    returned.  Neither [tag] nor [new_tag] holds a colon, so [name] is
    the whole text before the last colon of the value, on both sides. *)
Definition patched_line (latest : str -> outcome str) (line line' : str) : Prop :=
  line = line'
  \/ exists const pre name tag new_tag post,
       line = pre ++ ch_quote :: (name ++ ch_colon :: tag) ++ ch_quote :: post
       /\ line' = pre ++ ch_quote :: (name ++ ch_colon :: new_tag) ++ ch_quote :: post
       /\ pre <> []
       /\ has_colon tag = false
       /\ has_colon new_tag = false
       /\ matches line const (name ++ ch_colon :: tag)
       /\ matches line' const (name ++ ch_colon :: new_tag)
       /\ (exists repository, latest repository = Ret new_tag).

(** ** Lines as [splitlines] produces them *)

Definition nolb (s : str) : bool := forallb (fun c => negb (is_linebreak c)) s.

(** A complete line: text without line boundaries, then one boundary
    (a single boundary character, or carriage return and line feed). *)
Fixpoint line_ok (l : str) : bool :=
  match l with
  | [] => false
  | c :: r =>
    if is_linebreak c then
      match r with
      | [] => true
      | [d] => Ascii.eqb c ch_cr && Ascii.eqb d ch_lf
      | _ => false
      end
    else line_ok r
  end.

(** A last line without a boundary. *)
Definition open_ok (l : str) : bool :=
  match l with
  | [] => false
  | _ :: _ => nolb l
  end.

(** A line ending in a bare carriage return is not followed by text
    that starts with a line feed. *)
Definition no_cr_lf (l : str) (rest : list str) : Prop :=
  ~ (last l = Some ch_cr /\ head (concat rest) = Some ch_lf).

(** A list of lines that [splitlines] can have produced. *)
Fixpoint well_split (ls : list str) : Prop :=
  match ls with
  | [] => True
  | l :: rest =>
    (rest = [] /\ open_ok l = true)
    \/ (line_ok l = true /\ no_cr_lf l rest /\ well_split rest)
  end.

(** ** The world after a successful run *)

(** The world [main] leaves when the plan is [updates] and the patched
    buffer is [patched], after the requests [log]. *)
Definition after_run (images_file report_file timestamp : str)
    (updates : list ImageUpdate) (patched : list str) (log : list json) (w : world) : world :=
  let w1 := add_requests log w in
  let w2 :=
    match updates with
    | [] => w1
    | _ :: _ =>
      World (requests w1) (<[images_file := concat patched]> (fs w1))
        (writes w1 ++ [(images_file, concat patched)])
    end in
  World (requests w2) (<[report_file := report_text timestamp updates]> (fs w2))
    (writes w2 ++ [(report_file, report_text timestamp updates)]).

(** ** Sample data *)

(** One assignment line of the constants file: a tab, the identifier,
    the quoted image reference, a newline. *)
Definition assignment (const image tag : string) : str :=
  [ascii_of_N 9] ++ lit const ++ lit " = " ++ [ch_quote]
    ++ lit "horuszup/" ++ lit image ++ lit ":" ++ lit tag ++ [ch_quote; ch_lf].

Definition sample_assignments (go_value : str) : str :=
  assignment "C" "horusec-c" "v1.0.1"
  ++ assignment "Csharp" "horusec-csharp" "v1.2.0"
  ++ assignment "Elixir" "horusec-elixir" "v1.1.0"
  ++ assignment "Generic" "horusec-generic" "v1.2.0"
  ++ ([ascii_of_N 9] ++ lit "Go = " ++ [ch_quote] ++ go_value ++ [ch_quote; ch_lf])
  ++ assignment "HCL" "horusec-hcl" "v1.1.0"
  ++ assignment "Javascript" "horusec-js" "v1.2.0"
  ++ assignment "Leaks" "horusec-leaks" "v1.1.0"
  ++ assignment "PHP" "horusec-php" "v1.0.1"
  ++ assignment "Python" "horusec-python" "v1.0.0"
  ++ assignment "Ruby" "horusec-ruby" "v1.0.1"
  ++ assignment "Shell" "horusec-shell" "v1.0.1".

(** A constants file with every tracked identifier. *)
Definition sample_text : str :=
  lit "package images" ++ [ch_lf; ch_lf] ++ lit "const (" ++ [ch_lf]
  ++ sample_assignments (lit "horuszup/horusec-go:v1.0.0")
  ++ lit ")" ++ [ch_lf].

(** The same file with a value that has no colon. *)
Definition sample_text_no_colon : str :=
  lit "const (" ++ [ch_lf] ++ sample_assignments (lit "horusec-go-v1.0.0") ++ lit ")" ++ [ch_lf].

Definition sample_page (names : list string) (next : json) : json :=
  JObj [ (lit "results", JArr (map (fun n => JObj [(lit "name", JStr (lit n))]) names));
         (lit "next", next) ].

Definition sample_tags : list string :=
  ["v1.0.0"; "v1.2.0"; "v1.1.5"; "latest"; "v2.0.0-rc1"]%string.

(** A registry that lists the same tags, on one page, for every
    repository. *)
Definition one_page_registry (url : json) (timeout : Z) : response :=
  Payload (sample_page sample_tags JNull).

(** A page that lists the given names and refers to no further page. *)
Definition last_page (names : list str) : json :=
  JObj [ (lit "results", JArr (map (fun n => JObj [(lit "name", JStr n)]) names));
         (lit "next", JNull) ].

(** A registry that lists the given names, on one page, for every
    repository. *)
Definition names_registry (names : list str) (url : json) (timeout : Z) : response :=
  Payload (last_page names).

Definition second_page_url : str := lit "https://hub.docker.com/v2/page2".

(** A registry that lists the tags of every repository on two pages. *)
Definition two_page_registry (url : json) (timeout : Z) : response :=
  match url with
  | JStr s =>
    if decide (s = second_page_url)
    then Payload (sample_page ["v1.1.5"; "latest"; "v2.0.0-rc1"]%string JNull)
    else Payload (sample_page ["v1.0.0"; "v1.2.0"]%string (JStr second_page_url))
  | _ => Failure (Exn ValueError (lit "unknown url type"))
  end.

(** A registry whose second page cannot be retrieved. *)
Definition failing_registry (url : json) (timeout : Z) : response :=
  match url with
  | JStr s =>
    if decide (s = second_page_url)
    then Failure (Exn HTTPError (lit "HTTP Error 502: Bad Gateway"))
    else Payload (sample_page ["v1.0.0"; "v1.2.0"]%string (JStr second_page_url))
  | _ => Failure (Exn ValueError (lit "unknown url type"))
  end.

Definition sample_world (text : str) : world :=
  World [] {[ lit "images.go" := text ]} [].

Definition sample_lines : list str := splitlines sample_text.

Definition sample_constants : gmap str (nat * str) := parse_image_constants sample_lines.

(** A record that moves the Go scanner to v1.3.0. *)
Definition sample_update : ImageUpdate :=
  mkImageUpdate (lit "Go") (lit "horusec-go") (lit "v1.0.0") (lit "v1.3.0").

(** The plan for the sample file against [one_page_registry]. *)
Definition sample_plan : outcome (list ImageUpdate) * world :=
  compute_updates_over one_page_registry TARGET_CONST_TO_REPOSITORY sample_constants 15 3
    empty_world.

Definition sample_updates : list ImageUpdate :=
  match fst sample_plan with
  | Ret updates => updates
  | _ => []
  end.

(** The first run of [main] on the sample file. *)
Definition sample_run : outcome Z * world :=
  main one_page_registry (lit "2026-01-01 00:00:00Z") (lit "images.go") (lit "report.md") 15 3
    (sample_world sample_text).

(** ** Further notions used by the additional properties *)

(** The shape [CONST_LINE_RE] accepts, written out: indentation, an
    identifier, optional space, an equals sign, optional space, a quoted
    non-empty value without a quote, then anything. *)
Definition assignment_shape (line indent const value : str) : Prop :=
  exists c0 cs sp1 sp2 post,
    const = c0 :: cs
    /\ is_ident_start c0 = true /\ forallb is_ident_char cs = true
    /\ forallb is_space indent = true
    /\ forallb is_space sp1 = true /\ forallb is_space sp2 = true
    /\ value <> [] /\ no_quote value
    /\ line = indent ++ const ++ sp1 ++ ch_eq :: sp2 ++ ch_quote :: value ++ ch_quote :: post.

Definition ch_zero : ascii := "0"%char.

(** A numeral as [str(n)] writes it: digits, with no leading zero
    unless it is the single digit zero. *)
Definition canonical (s : str) : Prop :=
  digits s /\ (s = [ch_zero] \/ head s <> Some ch_zero).

(** A tag of the exact form whose three numerals are canonical. *)
Definition canonical_tag (tag : str) : Prop :=
  exists a b c, canonical a /\ canonical b /\ canonical c
    /\ tag = ch_v :: a ++ ch_dot :: b ++ ch_dot :: c.

(** A registry whose every page refers to the first page of horusec-go
    as the next one. *)
Definition looping_registry (url : json) (timeout : Z) : response :=
  Payload (sample_page ["v1.0.0"]%string (JStr (first_page_url (lit "horusec-go")))).

(** The requests one call of [fetch_latest_semver_tag] sends for a
    repository. *)
Definition fetch_log (registry : json -> Z -> response) (timeout : Z) (fuel : nat)
    (repository : str) : list json :=
  requests (snd (fetch_latest_semver_tag registry repository timeout fuel empty_world)).

(** The requests one iteration of the loop of [compute_updates] sends:
    none when the constant is missing or its value has no colon. *)
Definition entry_log (registry : json -> Z -> response) (timeout : Z) (fuel : nat)
    (constants : gmap str (nat * str)) (entry : str * str) : list json :=
  match constants !! fst entry with
  | Some (_, value) => if has_colon value then fetch_log registry timeout fuel (snd entry) else []
  | None => []
  end.

(** A constants file whose Go scanner is ahead of the registry. *)
Definition sample_text_ahead : str :=
  lit "const (" ++ [ch_lf] ++ sample_assignments (lit "horuszup/horusec-go:v9.0.0")
    ++ lit ")" ++ [ch_lf].

Definition sample_plan_ahead : outcome (list ImageUpdate) * world :=
  compute_updates_over one_page_registry TARGET_CONST_TO_REPOSITORY
    (parse_image_constants (splitlines sample_text_ahead)) 15 3 empty_world.

Definition sample_updates_ahead : list ImageUpdate :=
  match fst sample_plan_ahead with
  | Ret updates => updates
  | _ => []
  end.

(** A record [apply_updates] can apply to a buffer as long as [lines]:
    its identifier is in the mapping, with a value that holds a colon
    and a line number inside the buffer. *)
Definition applicable (lines : list str) (constants : gmap str (nat * str))
    (update : ImageUpdate) : Prop :=
  exists i v, constants !! const_name update = Some (i, v)
    /\ has_colon v = true /\ (i < length lines)%nat.

(** ** [apply_updates] on a mapping with arbitrary integer line numbers

    [parse_image_constants] records natural line numbers, and
    [apply_update] above takes them as such.  The function itself
    accepts any mapping: a Python integer index may be negative, and
    then counts from the end of the list. *)

(** The position [lines[i]] refers to in a list of [n] items, when it is
    in range. *)
Definition list_position (n : nat) (i : Z) : option nat :=
  if (i <? 0)%Z then
    if (i + Z.of_nat n <? 0)%Z then None else Some (Z.to_nat (i + Z.of_nat n))
  else
    if (i <? Z.of_nat n)%Z then Some (Z.to_nat i) else None.

(** The body of the loop of [apply_updates], for an integer line
    number. *)
Definition apply_update_z (constants : gmap str (Z * str))
    (updated_lines : list str) (update : ImageUpdate) : outcome (list str) :=
  match constants !! const_name update with
  | None => Raise (Exn KeyError (const_name update))
  | Some (line_index, current_value) =>
    obind (replace_image_tag current_value (to_tag update)) (fun new_value =>
      match list_position (length updated_lines) line_index with
      | None => Raise (Exn IndexError (lit "list index out of range"))
      | Some position =>
        match updated_lines !! position with
        | None => Raise (Exn IndexError (lit "list index out of range"))
        | Some line =>
          Ret (<[position := replace_first current_value new_value line]> updated_lines)
        end
      end)
  end.

Fixpoint apply_updates_loop_z (constants : gmap str (Z * str))
    (updated_lines : list str) (updates : list ImageUpdate) : outcome (list str) :=
  match updates with
  | [] => Ret updated_lines
  | update :: rest =>
    obind (apply_update_z constants updated_lines update) (fun updated_lines' =>
      apply_updates_loop_z constants updated_lines' rest)
  end.

Definition apply_updates_z (lines : list str) (constants : gmap str (Z * str))
    (updates : list ImageUpdate) : outcome (list str) :=
  apply_updates_loop_z constants lines updates.

(** A mapping with natural line numbers, as a mapping with integer line
    numbers. *)
Definition integer_lines (constants : gmap str (nat * str)) : gmap str (Z * str) :=
  (fun entry => (Z.of_nat (fst entry), snd entry)) <$> constants.

(** A record [apply_updates] can apply to a list as long as [lines]: its
    identifier is in the mapping, with a value that holds a colon and a
    line number that is in range as a Python index, from the front or
    from the end. *)
Definition applicable_z (lines : list str) (constants : gmap str (Z * str))
    (update : ImageUpdate) : Prop :=
  exists i v, constants !! const_name update = Some (i, v)
    /\ has_colon v = true
    /\ (- Z.of_nat (length lines) <= i < Z.of_nat (length lines))%Z.

(** The text holds no carriage return, so that reading it in text mode
    (where a carriage return, alone or before a newline, is turned into a
    newline) returns it as it is. *)
Definition no_carriage_return (text : str) : bool :=
  forallb (fun c => negb (Ascii.eqb c ch_cr)) text.

(** ** Characters and numerals *)

Ltac app_norm := repeat first [rewrite <- app_assoc | progress cbn [app]].

Ltac by_cases_on_char c :=
  destruct c as [[] [] [] [] [] [] [] []]; vm_compute; try congruence; try tauto.

Lemma digit_small (d : N) : d < 10 ->
  d = 0 \/ d = 1 \/ d = 2 \/ d = 3 \/ d = 4 \/ d = 5 \/ d = 6 \/ d = 7 \/ d = 8 \/ d = 9.
Proof. lia. Qed.

Lemma digit_char_is_digit (d : N) : d < 10 -> is_digit (digit_char d) = true.
Proof.
  intros H. destruct (digit_small d H) as [-> | [-> | [-> | [-> | [-> | [-> | [-> | [-> | [-> | ->]]]]]]]]];
    reflexivity.
Qed.

Lemma digit_val_char (d : N) : d < 10 -> digit_val (digit_char d) = d.
Proof.
  intros H. destruct (digit_small d H) as [-> | [-> | [-> | [-> | [-> | [-> | [-> | [-> | [-> | ->]]]]]]]]];
    reflexivity.
Qed.

Lemma is_digit_other (c : ascii) : is_digit c = true ->
  is_colon c = false /\ is_quote c = false /\ is_linebreak c = false
  /\ Ascii.eqb c ch_dot = false /\ Ascii.eqb c ch_lf = false.
Proof. by_cases_on_char c. Qed.

Lemma int_snoc (s : str) (c : ascii) : int (s ++ [c]) = 10 * int s + digit_val c.
Proof. unfold int. rewrite fold_left_app. reflexivity. Qed.

Lemma dec_aux_spec (fuel : nat) : forall (n : N) (acc : str),
  n < 10 ^ N.of_nat (S fuel) ->
  exists ds, dec_aux fuel n acc = ds ++ acc /\ digits ds /\ int ds = n.
Proof.
  assert (Hone : forall n acc, n < 10 ->
    exists ds, digit_char (n mod 10) :: acc = ds ++ acc /\ digits ds /\ int ds = n).
  { intros n acc Hn. exists [digit_char (n mod 10)].
    rewrite N.mod_small by exact Hn. split; [reflexivity |]. split.
    - split; [discriminate |]. simpl. rewrite digit_char_is_digit by exact Hn. reflexivity.
    - unfold int. simpl. rewrite digit_val_char by exact Hn. lia. }
  induction fuel as [| fuel IH]; intros n acc Hn.
  - simpl. apply Hone. simpl in Hn. lia.
  - simpl. destruct (N.ltb_spec n 10) as [Hlt | Hge].
    + apply Hone. exact Hlt.
    + assert (Hdiv : n / 10 < 10 ^ N.of_nat (S fuel)).
      { apply N.Div0.div_lt_upper_bound.
        replace (N.of_nat (S (S fuel))) with (N.succ (N.of_nat (S fuel))) in Hn by lia.
        rewrite N.pow_succ_r' in Hn. exact Hn. }
      destruct (IH (n / 10) (digit_char (n mod 10) :: acc) Hdiv) as (ds & Heq & [Hne Hds] & Hint).
      exists (ds ++ [digit_char (n mod 10)]). split; [| split; [split |]].
      * rewrite Heq. rewrite <- app_assoc. reflexivity.
      * destruct ds; discriminate.
      * rewrite forallb_app, Hds. simpl.
        rewrite digit_char_is_digit; [reflexivity |]. apply N.mod_lt. lia.
      * rewrite int_snoc, Hint, digit_val_char by (apply N.mod_lt; lia).
        pose proof (N.div_mod n 10). lia.
Qed.

Lemma dec_spec (n : N) : digits (dec n) /\ int (dec n) = n.
Proof.
  assert (Hn : n < 10 ^ N.of_nat (S (N.to_nat (N.log2 n)))).
  { destruct (N.eq_dec n 0) as [-> | Hpos]; [reflexivity |].
    replace (N.of_nat (S (N.to_nat (N.log2 n)))) with (N.succ (N.log2 n)) by lia.
    apply N.lt_le_trans with (2 ^ N.succ (N.log2 n)).
    - apply N.log2_spec. lia.
    - apply N.pow_le_mono_l. lia. }
  destruct (dec_aux_spec _ n [] Hn) as (ds & Heq & Hd & Hint).
  unfold dec. rewrite Heq, app_nil_r. split; assumption.
Qed.

Lemma dec_digits (n : N) : digits (dec n).
Proof. apply dec_spec. Qed.

Lemma int_dec (n : N) : int (dec n) = n.
Proof. apply dec_spec. Qed.

(** ** Greedy runs *)

Lemma span_inv (p : ascii -> bool) : forall s a b,
  span p s = (a, b) -> s = a ++ b /\ forallb p a = true /\ stops p b.
Proof.
  induction s as [| c r IH]; intros a b H; simpl in H.
  - inversion H; subst. repeat split.
  - destruct (p c) eqn:Hc.
    + destruct (span p r) as [a' b'] eqn:Hs. inversion H; subst.
      destruct (IH a' b eq_refl) as (-> & Ha & Hb).
      repeat split; [simpl; rewrite Hc, Ha; reflexivity | exact Hb].
    + inversion H; subst. repeat split. exact Hc.
Qed.

Lemma span_intro (p : ascii -> bool) : forall a b,
  forallb p a = true -> stops p b -> span p (a ++ b) = (a, b).
Proof.
  induction a as [| c a IH]; intros b Ha Hb; simpl.
  - destruct b as [| d b]; [reflexivity |]. simpl in *. rewrite Hb. reflexivity.
  - simpl in Ha. apply andb_prop in Ha. destruct Ha as [Hc Ha].
    rewrite Hc, (IH b Ha Hb). reflexivity.
Qed.

(** ** The version pattern *)

Lemma semver_match_form (a b c : str) :
  digits a -> digits b -> digits c ->
  semver_match (ch_v :: a ++ ch_dot :: b ++ ch_dot :: c) = Some (a, b, c).
Proof.
  intros [Ha1 Ha2] [Hb1 Hb2] [Hc1 Hc2].
  unfold semver_match. change (Ascii.eqb ch_v ch_v) with true. cbv iota.
  rewrite (span_intro is_digit a _ Ha2) by reflexivity.
  destruct a as [| a0 a']; [congruence |].
  change (Ascii.eqb ch_dot ch_dot) with true. cbv iota.
  rewrite (span_intro is_digit b _ Hb2) by reflexivity.
  destruct b as [| b0 b']; [congruence |]. cbv iota.
  rewrite <- (app_nil_r c) at 1.
  rewrite (span_intro is_digit c [] Hc2) by exact I.
  destruct c as [| c0 c']; [congruence |]. reflexivity.
Qed.

Lemma semver_match_newline (a b c : str) :
  digits a -> digits b -> digits c ->
  semver_match ((ch_v :: a ++ ch_dot :: b ++ ch_dot :: c) ++ [ch_lf]) = Some (a, b, c).
Proof.
  intros [Ha1 Ha2] [Hb1 Hb2] [Hc1 Hc2].
  simpl. rewrite <- !app_assoc. simpl. rewrite <- !app_assoc. simpl.
  unfold semver_match. change (Ascii.eqb ch_v ch_v) with true. cbv iota.
  rewrite (span_intro is_digit a _ Ha2) by reflexivity.
  destruct a as [| a0 a']; [congruence |].
  change (Ascii.eqb ch_dot ch_dot) with true. cbv iota.
  rewrite (span_intro is_digit b _ Hb2) by reflexivity.
  destruct b as [| b0 b']; [congruence |]. cbv iota.
  rewrite (span_intro is_digit c [ch_lf] Hc2) by reflexivity.
  destruct c as [| c0 c']; [congruence |]. reflexivity.
Qed.

Lemma semver_match_inv (tag a b c : str) :
  semver_match tag = Some (a, b, c) ->
  digits a /\ digits b /\ digits c
  /\ (tag = ch_v :: a ++ ch_dot :: b ++ ch_dot :: c
      \/ tag = (ch_v :: a ++ ch_dot :: b ++ ch_dot :: c) ++ [ch_lf]).
Proof.
  unfold semver_match. destruct tag as [| x r0]; [discriminate |].
  destruct (Ascii.eqb_spec x ch_v) as [-> | _]; [| discriminate].
  destruct (span is_digit r0) as [g1 r1] eqn:H1.
  destruct g1 as [| g10 g1']; [discriminate |].
  destruct r1 as [| d1 r2]; [discriminate |].
  destruct (Ascii.eqb_spec d1 ch_dot) as [-> | _]; [| discriminate].
  destruct (span is_digit r2) as [g2 r3] eqn:H2.
  destruct g2 as [| g20 g2']; [discriminate |].
  destruct r3 as [| d2 r4]; [discriminate |].
  destruct (Ascii.eqb_spec d2 ch_dot) as [-> | _]; [| discriminate].
  destruct (span is_digit r4) as [g3 r5] eqn:H3.
  destruct g3 as [| g30 g3']; [discriminate |].
  apply span_inv in H1, H2, H3.
  destruct H1 as (-> & D1 & _), H2 as (-> & D2 & _), H3 as (-> & D3 & _).
  assert (E : forall g, (if match r5 with
                              | [] => true
                              | [e] => Ascii.eqb e ch_lf
                              | _ => false
                              end then Some g else None) = Some (a, b, c) ->
              g = (a, b, c) /\ (r5 = [] \/ r5 = [ch_lf])).
  { intros g. destruct r5 as [| e [| e' r]]; [| | discriminate].
    - intros [= <-]. auto.
    - destruct (Ascii.eqb_spec e ch_lf) as [-> | _]; [| discriminate]. intros [= <-]. auto. }
  intros H.
  destruct (E (g10 :: g1', g20 :: g2', g30 :: g3')) as [[= <- <- <-] Hr5].
  { destruct r5 as [| e [| e' r]]; [exact H | | discriminate H].
    destruct (Ascii.eqb e ch_lf); [exact H | discriminate H]. }
  repeat split; try discriminate; try assumption.
  destruct Hr5 as [-> | ->]; [left | right].
  - rewrite app_nil_r. reflexivity.
  - simpl. rewrite <- !app_assoc. simpl. rewrite <- !app_assoc. reflexivity.
Qed.

Lemma parse_semver_form (tag : str) (v : version) :
  stable_semver_form tag v -> parse_semver tag = Some v.
Proof.
  intros (a & b & c & Ha & Hb & Hc & -> & ->).
  unfold parse_semver. rewrite semver_match_form by assumption. reflexivity.
Qed.

(** What [parse_semver] accepts: the exact form, or the exact form
    followed by one newline. *)
Lemma parse_semver_inv (tag : str) (v : version) :
  parse_semver tag = Some v ->
  stable_semver_form tag v
  \/ exists tag', tag = tag' ++ [ch_lf] /\ stable_semver_form tag' v.
Proof.
  unfold parse_semver. destruct (semver_match tag) as [[[a b] c] |] eqn:H; [| discriminate].
  intros [= <-]. apply semver_match_inv in H.
  destruct H as (Ha & Hb & Hc & [-> | ->]).
  - left. exists a, b, c. auto.
  - right. eexists. split; [reflexivity |]. exists a, b, c. auto.
Qed.

Lemma format_version_form (v : version) : stable_semver_form (format_version v) v.
Proof.
  destruct v as [[a b] c]. exists (dec a), (dec b), (dec c).
  repeat split; try apply dec_digits.
  rewrite !int_dec. reflexivity.
Qed.

Lemma parse_format_version (v : version) : parse_semver (format_version v) = Some v.
Proof. apply parse_semver_form, format_version_form. Qed.

(** ** The maximum of a list of versions *)

Lemma version_ltb_false (x y : version) : version_ltb x y = false <-> version_le y x.
Proof.
  destruct x as [[a1 b1] c1], y as [[a2 b2] c2]. unfold version_ltb, version_le.
  destruct (N.ltb_spec a1 a2), (N.eqb_spec a1 a2), (N.ltb_spec b1 b2),
    (N.eqb_spec b1 b2), (N.ltb_spec c1 c2); simpl; split; intros; try discriminate; try lia.
Qed.

Lemma version_ltb_true (x y : version) : version_ltb x y = true -> version_le x y.
Proof.
  destruct x as [[a1 b1] c1], y as [[a2 b2] c2]. unfold version_ltb, version_le.
  destruct (N.ltb_spec a1 a2), (N.eqb_spec a1 a2), (N.ltb_spec b1 b2),
    (N.eqb_spec b1 b2), (N.ltb_spec c1 c2); simpl; intros; try discriminate; try lia.
Qed.

Lemma version_le_refl (x : version) : version_le x x.
Proof. destruct x as [[a b] c]. unfold version_le. lia. Qed.

Lemma version_le_trans (x y z : version) : version_le x y -> version_le y z -> version_le x z.
Proof.
  destruct x as [[a1 b1] c1], y as [[a2 b2] c2], z as [[a3 b3] c3].
  unfold version_le. lia.
Qed.

Lemma max_version_spec (rest : list version) : forall first,
  In (max_version first rest) (first :: rest)
  /\ forall x, In x (first :: rest) -> version_le x (max_version first rest).
Proof.
  unfold max_version. induction rest as [| y rest IH]; intros first; simpl.
  - split; [auto |]. intros x [<- | []]. apply version_le_refl.
  - destruct (version_ltb first y) eqn:Hlt.
    + destruct (IH y) as [Hin Hmax]. split.
      * simpl in Hin. tauto.
      * intros x [<- | Hx]; [| apply Hmax; exact Hx].
        apply version_le_trans with y; [apply version_ltb_true; exact Hlt |].
        apply Hmax. left. reflexivity.
    + destruct (IH first) as [Hin Hmax]. split.
      * simpl in Hin. tauto.
      * intros x [<- | [<- | Hx]].
        -- apply Hmax. left. reflexivity.
        -- apply version_le_trans with first; [apply version_ltb_false; exact Hlt |].
           apply Hmax. left. reflexivity.
        -- apply Hmax. right. exact Hx.
Qed.

Lemma In_omap_parse (tags : list str) (v : version) :
  In v (omap parse_semver tags) <-> exists t, In t tags /\ parse_semver t = Some v.
Proof.
  rewrite <- list_elem_of_In, list_elem_of_omap.
  split; intros (t & Ht & Hv); exists t; split; try exact Hv; apply list_elem_of_In; exact Ht.
Qed.

Lemma select_latest_raise (repository : str) (tags : list str) :
  select_latest repository tags = Raise (no_stable_tag repository)
  <-> forall t, In t tags -> ~ passes_filter t.
Proof.
  unfold select_latest, passes_filter. destruct (omap parse_semver tags) as [| v vs] eqn:E.
  - split; [| reflexivity]. intros _ t Ht Hq. apply Hq.
    destruct (parse_semver t) as [v |] eqn:Hv; [| reflexivity].
    assert (Hin : In v (omap parse_semver tags)) by (apply In_omap_parse; eauto).
    rewrite E in Hin. destruct Hin.
  - split; [discriminate |]. intros H. exfalso.
    assert (Hin : In v (omap parse_semver tags)) by (rewrite E; left; reflexivity).
    apply In_omap_parse in Hin. destruct Hin as (t & Ht & Hv).
    apply (H t Ht). rewrite Hv. discriminate.
Qed.

Lemma select_latest_ret (repository : str) (tags : list str) :
  (exists t, In t tags /\ passes_filter t) ->
  exists m, (exists t, In t tags /\ parse_semver t = Some m)
    /\ (forall t v, In t tags -> parse_semver t = Some v -> version_le v m)
    /\ select_latest repository tags = Ret (format_version m).
Proof.
  intros (t & Ht & Hq). unfold select_latest, passes_filter in *.
  destruct (omap parse_semver tags) as [| v vs] eqn:E.
  - exfalso. destruct (parse_semver t) as [v |] eqn:Hv; [| congruence].
    assert (Hin : In v (omap parse_semver tags)) by (apply In_omap_parse; eauto).
    rewrite E in Hin. destruct Hin.
  - destruct (max_version_spec vs v) as [Hin Hmax].
    exists (max_version v vs). split; [| split; [| reflexivity]].
    + apply In_omap_parse. rewrite E. exact Hin.
    + intros t' v' Ht' Hv'. apply Hmax. rewrite <- E. apply In_omap_parse. eauto.
Qed.

(** ** The selection and its filter *)

(** What [fetch_latest_semver_tag] does in terms of the filter it
    applies itself.  Whatever tags [fetch_tags] returned for the
    repository, it raises the no-stable-tag error exactly when no fetched
    tag passes the filter; when some tag passes it returns the greatest
    triple among the tags that pass, in the order of (major, minor,
    patch), written back as v, major, dot, minor, dot, patch. *)
Lemma fetch_latest_semver_tag_selects_maximum
    (registry : json -> Z -> response) (repository : str) (timeout : Z) (fuel : nat)
    (w w' : world) (tags : list str) :
  fetch_tags registry repository timeout fuel w = (Ret tags, w') ->
  let result := fetch_latest_semver_tag registry repository timeout fuel w in
  (result = (Raise (no_stable_tag repository), w') <-> forall t, In t tags -> ~ passes_filter t)
  /\ ((exists t, In t tags /\ passes_filter t) ->
      exists m, (exists t, In t tags /\ parse_semver t = Some m)
        /\ (forall t v, In t tags -> parse_semver t = Some v -> version_le v m)
        /\ result = (Ret (format_version m), w')
        /\ stable_semver_form (format_version m) m).
Proof.
  intros Hfetch result.
  assert (Hres : result = (select_latest repository tags, w')).
  { unfold result, fetch_latest_semver_tag, bind. rewrite Hfetch. reflexivity. }
  rewrite Hres. split.
  - rewrite <- select_latest_raise. split; [intros [= ->]; reflexivity | intros ->; reflexivity].
  - intros Hq. destruct (select_latest_ret repository tags Hq) as (m & Hm & Hmax & ->).
    exists m. repeat split; try assumption. apply format_version_form.
Qed.

(** ** The pagination loop *)

Lemma add_requests_nil (w : world) : add_requests [] w = w.
Proof. destruct w. unfold add_requests. simpl. rewrite app_nil_r. reflexivity. Qed.

Lemma add_requests_app (l1 l2 : list json) (w : world) :
  add_requests l2 (add_requests l1 w) = add_requests (l1 ++ l2) w.
Proof. unfold add_requests. simpl. rewrite app_assoc. reflexivity. Qed.

Lemma http_get_json_run registry url timeout w :
  http_get_json registry url timeout w
  = (match registry url timeout with Failure e => Raise e | Payload j => Ret j end,
     add_requests [url] w).
Proof. unfold http_get_json, add_requests. destruct (registry url timeout); reflexivity. Qed.

Lemma omap_cons {A B} (f : A -> option B) (x : A) (l : list A) :
  omap f (x :: l) = match f x with Some y => y :: omap f l | None => omap f l end.
Proof. reflexivity. Qed.

Lemma collect_names_objects (items : list json) : forall tags,
  Forall is_object items ->
  collect_names items tags = Ret (tags ++ omap string_name items).
Proof.
  induction items as [| item items IH]; intros tags Hall.
  - simpl. rewrite app_nil_r. reflexivity.
  - inversion Hall as [| ? ? [fields ->] Hrest]; subst.
    rewrite omap_cons. cbn [collect_names json_get obind string_name].
    rewrite (IH _ Hrest).
    destruct (assoc (lit "name") fields) as [[| | | s | |] |]; try reflexivity.
    rewrite <- app_assoc. reflexivity.
Qed.

Lemma page_of_tags payload names next tags :
  page_of payload names next ->
  page_tags payload tags = Ret (tags ++ names)
  /\ json_get payload (lit "next") JNull = Ret next.
Proof.
  intros (fields & items & -> & Hres & Hobj & -> & ->).
  unfold page_tags. simpl. rewrite Hres. simpl. split; [| reflexivity].
  apply collect_names_objects. exact Hobj.
Qed.

Lemma fetch_tags_loop_walk registry timeout url pages last :
  walk registry timeout url pages last ->
  forall fuel tags w,
    fetch_tags_loop registry (length pages + fuel) timeout url tags w
    = fetch_tags_loop registry fuel timeout last (tags ++ concat (map snd pages))
        (add_requests (map fst pages) w).
Proof.
  induction 1 as [url | url payload next last names rest Htruthy Hreg Hpage Hwalk IH];
    intros fuel tags w.
  - simpl. rewrite app_nil_r, add_requests_nil. reflexivity.
  - destruct (page_of_tags payload names next tags Hpage) as [Htags Hnext].
    cbn [length Nat.add fetch_tags_loop]. rewrite Htruthy.
    unfold bind at 1. rewrite http_get_json_run, Hreg.
    unfold bind at 1. unfold lift at 1. rewrite Htags.
    unfold bind at 1. unfold lift at 1. rewrite Hnext.
    rewrite IH. cbn [map fst snd concat]. rewrite add_requests_app, <- app_assoc. reflexivity.
Qed.

(** ** C8 *)

(** C8.  When the registry serves a finite chain of pages from the first
    page URL on, each reached through the preceding page's truthy [next]
    and the last carrying none, [fetch_tags] (given at least as many
    iterations as there are pages) requests exactly the URLs of the chain
    in order and returns the names of all pages, concatenated in order. *)
Theorem fetch_tags_walks_finite_chain
    (registry : json -> Z -> response) (repository : str) (timeout : Z) (fuel : nat)
    (w : world) (pages : list (json * list str)) (last : json) :
  walk registry timeout (JStr (first_page_url repository)) pages last ->
  truthy last = false ->
  (length pages <= fuel)%nat ->
  fetch_tags registry repository timeout fuel w
  = (Ret (concat (map snd pages)), add_requests (map fst pages) w).
Proof.
  intros Hwalk Hlast Hfuel. unfold fetch_tags.
  replace fuel with (length pages + (fuel - length pages))%nat by lia.
  rewrite (fetch_tags_loop_walk _ _ _ _ _ Hwalk).
  destruct (fuel - length pages)%nat; simpl; rewrite Hlast; reflexivity.
Qed.

(** ** Failures while fetching *)

Lemma collect_names_acc (items : list json) : forall tags,
  collect_names items tags
  = obind (collect_names items []) (fun names => Ret (tags ++ names)).
Proof.
  induction items as [| item items IH]; intros tags.
  - simpl. rewrite app_nil_r. reflexivity.
  - cbn [collect_names]. destruct (json_get item (lit "name") JNull) as [name | e |];
      cbn [obind]; try reflexivity.
    destruct name as [| b | z | s | l | f]; try apply IH.
    rewrite (IH (tags ++ [s])), (IH ([] ++ [s])).
    destruct (collect_names items []) as [names | e |]; cbn [obind]; try reflexivity.
    rewrite <- app_assoc. reflexivity.
Qed.

Lemma page_tags_acc (payload : json) (tags : list str) :
  page_tags payload tags = obind (page_tags payload []) (fun names => Ret (tags ++ names)).
Proof.
  unfold page_tags.
  destruct (json_get payload (lit "results") (JArr [])) as [results | e |]; cbn [obind];
    try reflexivity.
  destruct (json_iter results) as [items | e |]; cbn [obind]; try reflexivity.
  apply collect_names_acc.
Qed.

Lemma page_tags_not_object (payload : json) (tags : list str) :
  ~ is_object payload ->
  page_tags payload tags = Raise (Exn AttributeError (lit "object has no attribute 'get'")).
Proof.
  intros H. destruct payload; try reflexivity. exfalso. apply H. eexists. reflexivity.
Qed.

Lemma page_tags_missing_results (fields : list (str * json)) (tags : list str) :
  assoc (lit "results") fields = None -> page_tags (JObj fields) tags = Ret tags.
Proof. intros H. unfold page_tags. cbn [json_get obind]. rewrite H. reflexivity. Qed.

Lemma page_tags_results (fields : list (str * json)) (results : json) (tags : list str) :
  assoc (lit "results") fields = Some results ->
  page_tags (JObj fields) tags
  = obind (json_iter results) (fun items => collect_names items tags).
Proof. intros H. unfold page_tags. cbn [json_get obind]. rewrite H. reflexivity. Qed.

Lemma fetch_tags_loop_failure registry timeout fuel url tags w :
  truthy url = true ->
  (forall e, registry url timeout = Failure e ->
     fetch_tags_loop registry (S fuel) timeout url tags w = (Raise e, add_requests [url] w))
  /\ (forall payload e, registry url timeout = Payload payload ->
        page_tags payload [] = Raise e ->
        fetch_tags_loop registry (S fuel) timeout url tags w = (Raise e, add_requests [url] w)).
Proof.
  intros Htruthy. split.
  - intros e Hreg. cbn [fetch_tags_loop]. rewrite Htruthy.
    unfold bind at 1. rewrite http_get_json_run, Hreg. reflexivity.
  - intros payload e Hreg Hpage. cbn [fetch_tags_loop]. rewrite Htruthy.
    unfold bind at 1. rewrite http_get_json_run, Hreg.
    unfold bind at 1. unfold lift at 1. rewrite page_tags_acc, Hpage. reflexivity.
Qed.

(** ** C9 *)

(** C9, as claimed, fails: a body that decodes but lacks the documented
    shape (a result whose [name] is a number, or no [results] at all) is
    accepted, and [fetch_tags] returns normally with no tags. *)
Lemma fetch_tags_accepts_undocumented_page :
  let odd_name := JObj [(lit "results", JArr [JObj [(lit "name", JNum 5)]])] in
  let no_results := JObj [(lit "message", JStr (lit "rate limited"))] in
  let url := JStr (first_page_url (lit "horusec-go")) in
  ~ documented_page odd_name
  /\ fetch_tags (fun _ _ => Payload odd_name) (lit "horusec-go") 15 1 empty_world
     = (Ret [], add_requests [url] empty_world)
  /\ ~ documented_page no_results
  /\ fetch_tags (fun _ _ => Payload no_results) (lit "horusec-go") 15 1 empty_world
     = (Ret [], add_requests [url] empty_world).
Proof.
  cbv zeta. repeat split.
  - intros (fields & items & [= <-] & Hres & Hall & _).
    vm_compute in Hres. injection Hres as <-.
    apply Forall_cons in Hall. destruct Hall as [(f & s & Hitem & Hname) _].
    injection Hitem as <-. vm_compute in Hname. discriminate.
  - intros (fields & items & [= <-] & Hres & _). vm_compute in Hres. discriminate.
Qed.

(** C9, amended.  Once the walk has read [pages] and holds a truthy
    reference [url], a single request is made for it: an exception raised
    by the request or by decoding its body is raised by [fetch_tags], and
    so is the exception of a body that is not an object, whose [results]
    cannot be iterated, or that lists an entry that is not an object; in
    each case nothing is requested after the failing request.  A body
    without [results] counts as an empty page and an entry without a
    string [name] is skipped, both without error.  (The entries of
    [results] are what iterating it yields: the elements of a list, the
    keys of a dict, the characters of a string.) *)
Theorem fetch_tags_raises_without_retry
    (registry : json -> Z -> response) (repository : str) (timeout : Z) (fuel : nat)
    (w : world) (pages : list (json * list str)) (url : json) :
  walk registry timeout (JStr (first_page_url repository)) pages url ->
  truthy url = true ->
  (length pages < fuel)%nat ->
  let failed e :=
    fetch_tags registry repository timeout fuel w
    = (Raise e, add_requests (map fst pages ++ [url]) w) in
  (forall e, registry url timeout = Failure e -> failed e)
  /\ (forall payload e, registry url timeout = Payload payload ->
        page_tags payload [] = Raise e -> failed e)
  /\ (forall payload, ~ is_object payload -> exists e, page_tags payload [] = Raise e)
  /\ (forall fields results e, assoc (lit "results") fields = Some results ->
        json_iter results = Raise e -> page_tags (JObj fields) [] = Raise e)
  /\ (forall fields results items, assoc (lit "results") fields = Some results ->
        json_iter results = Ret items -> ~ Forall is_object items ->
        exists e, page_tags (JObj fields) [] = Raise e)
  /\ (forall fields, assoc (lit "results") fields = None -> page_tags (JObj fields) [] = Ret [])
  /\ (forall fields results items, assoc (lit "results") fields = Some results ->
        json_iter results = Ret items -> Forall is_object items ->
        page_tags (JObj fields) [] = Ret (omap string_name items)).
Proof.
  intros Hwalk Htruthy Hfuel failed.
  assert (Hrun : fetch_tags registry repository timeout fuel w
                 = fetch_tags_loop registry (S (fuel - S (length pages))) timeout url
                     (concat (map snd pages)) (add_requests (map fst pages) w)).
  { unfold fetch_tags.
    replace fuel with (length pages + S (fuel - S (length pages)))%nat at 1 by lia.
    rewrite (fetch_tags_loop_walk _ _ _ _ _ Hwalk). reflexivity. }
  destruct (fetch_tags_loop_failure registry timeout (fuel - S (length pages)) url
              (concat (map snd pages)) (add_requests (map fst pages) w) Htruthy) as [Hf Hp].
  repeat split.
  - intros e Hreg. unfold failed. rewrite Hrun, (Hf e Hreg), add_requests_app. reflexivity.
  - intros payload e Hreg Hpage. unfold failed.
    rewrite Hrun, (Hp payload e Hreg Hpage), add_requests_app. reflexivity.
  - intros payload Hno. eexists. apply page_tags_not_object. exact Hno.
  - intros fields results e Hres Hiter. rewrite (page_tags_results _ _ _ Hres), Hiter. reflexivity.
  - intros fields results items Hres Hiter Hno. rewrite (page_tags_results _ _ _ Hres), Hiter.
    cbn [obind]. clear Hres Hiter. induction items as [| item items IH].
    + exfalso. apply Hno. constructor.
    + cbn [collect_names]. destruct item as [| b | z | s | l | f];
        try (eexists; reflexivity).
      cbn [json_get obind]. rewrite collect_names_acc.
      destruct IH as [e He].
      { intros Hall. apply Hno. constructor; [eexists; reflexivity | exact Hall]. }
      rewrite He. eexists. reflexivity.
  - intros fields Hres. apply page_tags_missing_results. exact Hres.
  - intros fields results items Hres Hiter Hall.
    rewrite (page_tags_results _ _ _ Hres), Hiter. cbn [obind].
    apply collect_names_objects. exact Hall.
Qed.

(** ** Assignment lines *)

Lemma is_quote_eq (c : ascii) : is_quote c = true <-> c = ch_quote.
Proof. by_cases_on_char c; split; congruence. Qed.

Lemma ident_start_not_space (c : ascii) : is_ident_start c = true -> is_space c = false.
Proof. by_cases_on_char c. Qed.

Lemma space_not_ident (c : ascii) : is_space c = true -> is_ident_char c = false.
Proof. by_cases_on_char c. Qed.

Lemma space_not_eq (c : ascii) : is_space c = true -> Ascii.eqb c ch_eq = false.
Proof. by_cases_on_char c. Qed.

Lemma space_plain (c : ascii) : is_space c = true -> plain c = true.
Proof. by_cases_on_char c. Qed.

Lemma ident_char_plain (c : ascii) : is_ident_char c = true -> plain c = true.
Proof. by_cases_on_char c. Qed.

Lemma ident_start_char (c : ascii) : is_ident_start c = true -> is_ident_char c = true.
Proof. unfold is_ident_char. intros ->. reflexivity. Qed.

Lemma forallb_impl (p q : ascii -> bool) (s : str) :
  (forall c, p c = true -> q c = true) -> forallb p s = true -> forallb q s = true.
Proof.
  intros Hpq. induction s as [| c s IH]; simpl; [reflexivity |].
  intros H. apply andb_prop in H. destruct H as [Hc Hs].
  rewrite (Hpq c Hc), (IH Hs). reflexivity.
Qed.

Lemma stops_same_head (p : ascii -> bool) (a : str) (x : ascii) (b b' : str) :
  stops p (a ++ x :: b) -> stops p (a ++ x :: b').
Proof. destruct a; simpl; auto. Qed.

(** The head of an assignment line: everything up to the opening quote
    is free of colons and quotes, and alone decides the match. *)
Lemma const_line_head_inv (line indent const r6 : str) :
  const_line_head line = Some (indent, const, r6) ->
  exists pre,
    line = pre ++ ch_quote :: r6
    /\ forallb plain pre = true
    /\ pre <> []
    /\ (exists c0, head pre = Some c0 /\ (is_space c0 = true \/ is_ident_start c0 = true))
    /\ forall r', const_line_head (pre ++ ch_quote :: r') = Some (indent, const, r').
Proof.
  unfold const_line_head.
  destruct (span is_space line) as [ind r0] eqn:H0.
  destruct r0 as [| c0 r1]; [discriminate |].
  destruct (is_ident_start c0) eqn:Hc0; [| discriminate].
  destruct (span is_ident_char r1) as [cs r2] eqn:H1.
  destruct (span is_space r2) as [sp1 r3] eqn:H2.
  destruct r3 as [| e r4]; [discriminate |].
  destruct (Ascii.eqb_spec e ch_eq) as [-> | _]; [| discriminate].
  destruct (span is_space r4) as [sp2 r5] eqn:H3.
  destruct r5 as [| q r6']; [discriminate |].
  destruct (Ascii.eqb_spec q ch_quote) as [-> | _]; [| discriminate].
  intros [= <- <- <-].
  apply span_inv in H0, H1, H2, H3.
  destruct H0 as (-> & Hind & S0), H1 as (-> & Hcs & S1), H2 as (-> & Hsp1 & S2),
    H3 as (-> & Hsp2 & S3).
  exists (ind ++ c0 :: cs ++ sp1 ++ ch_eq :: sp2).
  split; [| split; [| split; [| split]]].
  - app_norm. reflexivity.
  - rewrite forallb_app. simpl. rewrite forallb_app, forallb_app. simpl.
    rewrite (forallb_impl _ _ _ space_plain Hind), (forallb_impl _ _ _ ident_char_plain Hcs),
      (forallb_impl _ _ _ space_plain Hsp1), (forallb_impl _ _ _ space_plain Hsp2).
    rewrite (ident_char_plain c0 (ident_start_char c0 Hc0)). reflexivity.
  - destruct ind; discriminate.
  - destruct ind as [| i0 ind'].
    + exists c0. split; [reflexivity | right; exact Hc0].
    + exists i0. split; [reflexivity | left]. simpl in Hind.
      apply andb_prop in Hind. tauto.
  - intros r'.
    replace ((ind ++ c0 :: cs ++ sp1 ++ ch_eq :: sp2) ++ ch_quote :: r')
      with (ind ++ c0 :: cs ++ sp1 ++ ch_eq :: sp2 ++ ch_quote :: r').
    2:{ app_norm. reflexivity. }
    rewrite (span_intro is_space ind _ Hind) by exact S0.
    rewrite Hc0.
    rewrite (span_intro is_ident_char cs _ Hcs).
    2:{ exact (stops_same_head _ sp1 ch_eq _ _ S1). }
    rewrite (span_intro is_space sp1 _ Hsp1) by reflexivity.
    change (Ascii.eqb ch_eq ch_eq) with true. cbv iota.
    rewrite (span_intro is_space sp2 _ Hsp2) by reflexivity.
    reflexivity.
Qed.

Lemma const_line_match_inv (line indent const value : str) :
  const_line_match line = Some (indent, const, value) ->
  exists post,
    const_line_head line = Some (indent, const, value ++ ch_quote :: post)
    /\ value <> [] /\ no_quote value.
Proof.
  unfold const_line_match.
  destruct (const_line_head line) as [[[ind c] r6] |]; [| discriminate].
  destruct (span (fun x => negb (is_quote x)) r6) as [v r7] eqn:Hv.
  destruct v as [| v0 v']; [discriminate |].
  destruct r7 as [| q post]; [discriminate |].
  intros [= <- <- <-].
  apply span_inv in Hv. destruct Hv as (-> & Hnq & Hq).
  simpl in Hq. apply negb_false_iff, is_quote_eq in Hq. subst q.
  exists post. split; [reflexivity |]. split; [discriminate | exact Hnq].
Qed.

Lemma const_line_match_intro (line indent const value post : str) :
  const_line_head line = Some (indent, const, value ++ ch_quote :: post) ->
  value <> [] -> no_quote value ->
  const_line_match line = Some (indent, const, value).
Proof.
  intros Hhead Hne Hnq. unfold const_line_match. rewrite Hhead.
  rewrite (span_intro _ value _ Hnq) by reflexivity.
  destruct value; [congruence | reflexivity].
Qed.

(** The shape of a matching line. *)
Lemma matches_shape (line const value : str) :
  matches line const value ->
  exists pre post,
    line = pre ++ ch_quote :: value ++ ch_quote :: post
    /\ forallb plain pre = true /\ pre <> []
    /\ value <> [] /\ no_quote value
    /\ forall value', value' <> [] -> no_quote value' ->
         matches (pre ++ ch_quote :: value' ++ ch_quote :: post) const value'.
Proof.
  intros [indent H]. apply const_line_match_inv in H.
  destruct H as (post & Hhead & Hne & Hnq).
  apply const_line_head_inv in Hhead.
  destruct Hhead as (pre & -> & Hplain & Hpre & _ & Hany).
  exists pre, post. repeat split; try assumption.
  intros value' Hne' Hnq'. exists indent.
  apply const_line_match_intro with post; [apply Hany | assumption | assumption].
Qed.

Lemma matches_functional (line c1 v1 c2 v2 : str) :
  matches line c1 v1 -> matches line c2 v2 -> c1 = c2 /\ v1 = v2.
Proof. intros [i1 H1] [i2 H2]. rewrite H1 in H2. injection H2 as _ -> ->. auto. Qed.

(** ** The constant table parser *)

Lemma parse_from_last (lines : list str) : forall index constants const,
  parse_from index lines constants !! const
  = match last_assignment index lines const with
    | Some entry => Some entry
    | None => constants !! const
    end.
Proof.
  induction lines as [| line rest IH]; intros index constants const; [reflexivity |].
  cbn [parse_from last_assignment]. rewrite IH.
  destruct (last_assignment (S index) rest const) as [entry |]; [reflexivity |].
  destruct (const_line_match line) as [[[indent c] v] |]; [| reflexivity].
  destruct (decide (c = const)) as [-> | Hne].
  - apply lookup_insert_eq.
  - apply lookup_insert_ne. exact Hne.
Qed.

Lemma last_assignment_None (lines : list str) : forall index const,
  last_assignment index lines const = None
  <-> forall j line, lines !! j = Some line -> ~ assigns line const.
Proof.
  induction lines as [| line rest IH]; intros index const.
  - split; [| reflexivity]. intros _ j line H. rewrite lookup_nil in H. discriminate.
  - cbn [last_assignment]. split.
    + intros H j line' Hj.
      destruct (last_assignment (S index) rest const) eqn:Hrest; [discriminate |].
      destruct j as [| j]; simpl in Hj.
      * injection Hj as <-. intros (v & indent & Hm). rewrite Hm in H.
        destruct (decide (const = const)); [discriminate | congruence].
      * rewrite IH in Hrest. exact (Hrest j line' Hj).
    + intros H.
      assert (Hrest : last_assignment (S index) rest const = None).
      { apply IH. intros j line' Hj. apply (H (S j)). exact Hj. }
      rewrite Hrest. destruct (const_line_match line) as [[[indent c] v] |] eqn:Hm; [| reflexivity].
      destruct (decide (c = const)) as [-> | Hne]; [| reflexivity].
      exfalso. apply (H 0%nat line eq_refl). exists v, indent. exact Hm.
Qed.

Lemma last_assignment_Some (lines : list str) : forall index const i value,
  last_assignment index lines const = Some (i, value)
  <-> exists j line,
        i = (index + j)%nat /\ lines !! j = Some line /\ matches line const value
        /\ forall j' line', (j < j')%nat -> lines !! j' = Some line' -> ~ assigns line' const.
Proof.
  induction lines as [| line rest IH]; intros index const i value.
  - split; [discriminate |]. intros (j & l & _ & H & _). rewrite lookup_nil in H. discriminate.
  - cbn [last_assignment].
    destruct (last_assignment (S index) rest const) as [[i' v'] |] eqn:Hrest.
    + pose proof Hrest as Hrest'. apply IH in Hrest'.
      destruct Hrest' as (j0 & l0 & -> & Hl0 & Hm0 & Hlater0).
      split.
      * intros [= <- <-]. exists (S j0), l0. repeat split; [lia | exact Hl0 | exact Hm0 |].
        intros j' line' Hlt Hj'. destruct j' as [| j']; [lia |].
        simpl in Hj'. apply (Hlater0 j' line'); [lia | exact Hj'].
      * intros (j & l & -> & Hl & Hm & Hlater).
        destruct j as [| j].
        -- exfalso. apply (Hlater (S j0) l0); [lia | exact Hl0 |]. exists v'. exact Hm0.
        -- simpl in Hl.
           assert (H : last_assignment (S index) rest const = Some ((S index + j)%nat, value)).
           { apply IH. exists j, l. repeat split; try assumption.
             intros j' line' Hlt Hj'. apply (Hlater (S j') line'); [lia | exact Hj']. }
           rewrite Hrest in H. injection H as E1 E2. rewrite E2. f_equal. f_equal. lia.
    + rewrite last_assignment_None in Hrest. split.
      * intros H. destruct (const_line_match line) as [[[indent c] v] |] eqn:Hm; [| discriminate].
        destruct (decide (c = const)) as [-> | Hne]; [| discriminate].
        injection H as <- <-. exists 0%nat, line.
        repeat split; [lia | exists indent; exact Hm |].
        intros j' line' Hlt Hj'. destruct j' as [| j']; [lia |]. simpl in Hj'.
        exact (Hrest j' line' Hj').
      * intros (j & l & -> & Hl & [indent Hm] & Hlater).
        destruct j as [| j].
        -- simpl in Hl. injection Hl as <-. rewrite Hm.
           destruct (decide (const = const)); [| congruence]. f_equal. f_equal. lia.
        -- simpl in Hl. exfalso. apply (Hrest j l Hl). exists value, indent. exact Hm.
Qed.

Lemma parse_entry_iff (lines : list str) (const : str) (i : nat) (value : str) :
  parse_image_constants lines !! const = Some (i, value)
  <-> exists line,
        lines !! i = Some line /\ matches line const value
        /\ forall j line', (i < j)%nat -> lines !! j = Some line' -> ~ assigns line' const.
Proof.
  unfold parse_image_constants. rewrite parse_from_last. split.
  - destruct (last_assignment 0 lines const) as [entry |] eqn:H.
    + intros [= ->]. apply last_assignment_Some in H.
      destruct H as (j & line & -> & Hl & Hm & Hlater). exists line. auto.
    + rewrite lookup_empty. discriminate.
  - intros (line & Hl & Hm & Hlater).
    assert (H : last_assignment 0 lines const = Some (i, value)).
    { apply last_assignment_Some. exists i, line. auto. }
    rewrite H. reflexivity.
Qed.

Lemma parse_missing_iff (lines : list str) (const : str) :
  parse_image_constants lines !! const = None
  <-> forall j line, lines !! j = Some line -> ~ assigns line const.
Proof.
  unfold parse_image_constants. rewrite parse_from_last. split.
  - destruct (last_assignment 0 lines const) eqn:H; [discriminate |].
    intros _. exact (proj1 (last_assignment_None lines 0%nat const) H).
  - intros H. rewrite (proj2 (last_assignment_None lines 0%nat const) H). apply lookup_empty.
Qed.

(** Two identifiers recorded on the same line are the same identifier. *)
Lemma parse_same_line (lines : list str) (c1 c2 : str) (i : nat) (v1 v2 : str) :
  parse_image_constants lines !! c1 = Some (i, v1) ->
  parse_image_constants lines !! c2 = Some (i, v2) ->
  c1 = c2.
Proof.
  intros H1 H2. apply parse_entry_iff in H1, H2.
  destruct H1 as (l1 & Hl1 & Hm1 & _), H2 as (l2 & Hl2 & Hm2 & _).
  rewrite Hl1 in Hl2. injection Hl2 as <-.
  apply (matches_functional _ _ _ _ _ Hm1 Hm2).
Qed.

(** ** C7 *)

(** C7.  The mapping built by [parse_image_constants] holds, for an
    identifier, the line number and value of the last line that assigns
    it; it has no entry for an identifier that no line assigns; and a
    line that does not match the pattern leaves the mapping under
    construction as it is. *)
Theorem parse_image_constants_last_line_wins (lines : list str) :
  (forall const i value,
     parse_image_constants lines !! const = Some (i, value)
     <-> exists line,
           lines !! i = Some line /\ matches line const value
           /\ forall j line', (i < j)%nat -> lines !! j = Some line' -> ~ assigns line' const)
  /\ (forall const,
        parse_image_constants lines !! const = None
        <-> forall j line, lines !! j = Some line -> ~ assigns line const)
  /\ (forall index line rest constants,
        const_line_match line = None ->
        parse_from index (line :: rest) constants = parse_from (S index) rest constants).
Proof.
  split; [| split].
  - intros const i value. apply parse_entry_iff.
  - intros const. apply parse_missing_iff.
  - intros index line rest constants H. cbn [parse_from]. rewrite H. reflexivity.
Qed.

(** ** Substrings *)

Lemma starts_with_app (v rest : str) : starts_with v (v ++ rest) = true.
Proof.
  induction v as [| c v IH]; simpl; [reflexivity |].
  rewrite Ascii.eqb_refl, IH. reflexivity.
Qed.

Lemma starts_with_split (v : str) : forall s rest,
  starts_with v (s ++ rest) = true -> (exists x, v = s ++ x) \/ (exists y, s = v ++ y).
Proof.
  induction v as [| c v IH]; intros s rest H.
  - right. exists s. reflexivity.
  - destruct s as [| d s].
    + left. exists (c :: v). reflexivity.
    + simpl in H. apply andb_prop in H. destruct H as [Hc Hv].
      apply Ascii.eqb_eq in Hc. subst d.
      destruct (IH s rest Hv) as [[x ->] | [y ->]].
      * left. exists x. reflexivity.
      * right. exists y. reflexivity.
Qed.

Lemma replace_first_unfold (old new s : str) :
  replace_first old new s
  = if starts_with old s then new ++ drop (length old) s
    else match s with
         | [] => []
         | c :: r => c :: replace_first old new r
         end.
Proof. destruct s; reflexivity. Qed.

Lemma occurs_unfold (old s : str) :
  occurs old s = starts_with old s || match s with [] => false | _ :: r => occurs old r end.
Proof. destruct s; reflexivity. Qed.

Lemma replace_first_leftmost (old new : str) : forall pre post,
  leftmost old pre post ->
  replace_first old new (pre ++ old ++ post) = pre ++ new ++ post.
Proof.
  induction pre as [| c pre IH]; intros post Hleft.
  - cbn [app]. rewrite replace_first_unfold, starts_with_app, drop_app_length. reflexivity.
  - assert (Hhere : starts_with old ((c :: pre) ++ old ++ post) = false).
    { apply (Hleft [] (c :: pre)); [reflexivity | discriminate]. }
    rewrite replace_first_unfold, Hhere. cbn [app]. f_equal. apply IH.
    intros pre1 pre2 -> Hne. apply (Hleft (c :: pre1) pre2); [reflexivity | exact Hne].
Qed.

Lemma replace_first_absent (old new : str) : forall s,
  occurs old s = false -> replace_first old new s = s.
Proof.
  induction s as [| c s IH]; intros H; rewrite occurs_unfold in H;
    apply orb_false_elim in H; destruct H as [Hhere Hrest];
    rewrite replace_first_unfold, Hhere; [reflexivity |].
  f_equal. apply IH. exact Hrest.
Qed.

Lemma occurs_app (old : str) : forall pre post, occurs old (pre ++ old ++ post) = true.
Proof.
  induction pre as [| c pre IH]; intros post; rewrite occurs_unfold.
  - cbn [app]. rewrite starts_with_app. reflexivity.
  - cbn [app]. rewrite (IH post). apply orb_true_r.
Qed.

Lemma is_colon_eq (c : ascii) : is_colon c = true <-> c = ch_colon.
Proof. by_cases_on_char c; split; congruence. Qed.

Lemma has_colon_app (a b : str) : has_colon (a ++ b) = has_colon a || has_colon b.
Proof. apply existsb_app. Qed.

Lemma plain_no_colon (s : str) : forallb plain s = true -> has_colon s = false /\ no_quote s.
Proof.
  unfold no_quote, has_colon. induction s as [| c s IH]; simpl; [auto |].
  intros H. apply andb_prop in H. destruct H as [Hc Hs].
  destruct (IH Hs) as [-> ->]. unfold plain in Hc. apply andb_prop in Hc.
  destruct Hc as [H1 H2]. rewrite H2. apply negb_true_iff in H1. rewrite H1. auto.
Qed.

Lemma no_quote_app (a b : str) : no_quote (a ++ b) <-> no_quote a /\ no_quote b.
Proof. unfold no_quote. rewrite forallb_app. apply andb_true_iff. Qed.

Lemma rsplit_colon_None (value : str) : rsplit_colon value = None <-> has_colon value = false.
Proof.
  unfold has_colon. induction value as [| c r IH]; simpl; [tauto |].
  destruct (rsplit_colon r) as [[a b] |].
  - split; [discriminate |]. intros H. apply orb_false_elim in H.
    destruct H as [_ H]. apply IH in H. discriminate.
  - destruct (is_colon c); simpl; [split; discriminate |]. tauto.
Qed.

Lemma rsplit_colon_Some (value name tag : str) :
  rsplit_colon value = Some (name, tag) ->
  value = name ++ ch_colon :: tag /\ has_colon tag = false.
Proof.
  revert name tag. induction value as [| c r IH]; intros name tag; simpl; [discriminate |].
  destruct (rsplit_colon r) as [[a b] |] eqn:Hr.
  - intros [= <- <-]. destruct (IH a b eq_refl) as [-> Hb]. auto.
  - destruct (is_colon c) eqn:Hc; [| discriminate].
    intros [= <- <-]. apply is_colon_eq in Hc. subst c.
    split; [reflexivity |]. apply rsplit_colon_None. exact Hr.
Qed.

Lemma rsplit_colon_app (name tag : str) :
  has_colon tag = false -> rsplit_colon (name ++ ch_colon :: tag) = Some (name, tag).
Proof.
  intros Htag. induction name as [| c name IH]; simpl.
  - rewrite (proj2 (rsplit_colon_None tag) Htag). reflexivity.
  - rewrite IH. reflexivity.
Qed.

Lemma has_colon_rsplit (value : str) :
  has_colon value = true ->
  exists name tag, rsplit_colon value = Some (name, tag)
    /\ value = name ++ ch_colon :: tag /\ has_colon tag = false.
Proof.
  intros H. destruct (rsplit_colon value) as [[name tag] |] eqn:E.
  - exists name, tag. split; [reflexivity |]. apply rsplit_colon_Some. exact E.
  - apply rsplit_colon_None in E. congruence.
Qed.

Lemma extract_image_tag_app (name tag : str) :
  has_colon tag = false -> extract_image_tag (name ++ ch_colon :: tag) = Ret tag.
Proof.
  intros H. unfold extract_image_tag.
  rewrite has_colon_app. simpl. rewrite orb_true_r. simpl.
  rewrite (rsplit_colon_app name tag H). reflexivity.
Qed.

Lemma replace_image_tag_app (name tag new_tag : str) :
  has_colon tag = false ->
  replace_image_tag (name ++ ch_colon :: tag) new_tag = Ret (name ++ ch_colon :: new_tag).
Proof.
  intros H. unfold replace_image_tag.
  rewrite has_colon_app. simpl. rewrite orb_true_r. simpl.
  rewrite (rsplit_colon_app name tag H). reflexivity.
Qed.

(** The value of an assignment line first occurs right after the opening
    quote, provided it holds a colon. *)
Lemma value_leftmost (pre value post : str) :
  forallb plain pre = true -> no_quote value -> has_colon value = true ->
  leftmost value (pre ++ [ch_quote]) (ch_quote :: post).
Proof.
  intros Hplain Hnq Hcolon pre1 pre2 Heq Hne.
  destruct (starts_with value (pre2 ++ value ++ ch_quote :: post)) eqn:Hs; [| reflexivity].
  exfalso.
  destruct (exists_last Hne) as (z & a & ->).
  rewrite app_assoc in Heq. apply app_inj_tail in Heq. destruct Heq as [-> <-].
  rewrite forallb_app in Hplain. apply andb_prop in Hplain. destruct Hplain as [_ Hz].
  apply plain_no_colon in Hz. destruct Hz as [Hzc _].
  apply starts_with_split in Hs. destruct Hs as [[x ->] | [y Hy]].
  - apply no_quote_app in Hnq. destruct Hnq as [Hnq _].
    apply no_quote_app in Hnq. destruct Hnq as [_ Hnq]. discriminate Hnq.
  - assert (Hc : has_colon (z ++ [ch_quote]) = true).
    { rewrite Hy, has_colon_app, Hcolon. reflexivity. }
    rewrite has_colon_app, Hzc in Hc. discriminate Hc.
Qed.

(** ** Patching one line *)

Lemma no_quote_colon_tag (name new_tag : str) :
  no_quote name -> no_quote new_tag -> no_quote (name ++ ch_colon :: new_tag).
Proof.
  intros Hn Ht. apply no_quote_app. split; [exact Hn |].
  unfold no_quote in *. simpl. exact Ht.
Qed.

Lemma patch_matching_line (line const name tag new_tag : str) :
  matches line const (name ++ ch_colon :: tag) ->
  no_quote new_tag ->
  exists pre post,
    line = pre ++ ch_quote :: (name ++ ch_colon :: tag) ++ ch_quote :: post
    /\ leftmost (name ++ ch_colon :: tag) (pre ++ [ch_quote]) (ch_quote :: post)
    /\ replace_first (name ++ ch_colon :: tag) (name ++ ch_colon :: new_tag) line
       = pre ++ ch_quote :: (name ++ ch_colon :: new_tag) ++ ch_quote :: post
    /\ matches (pre ++ ch_quote :: (name ++ ch_colon :: new_tag) ++ ch_quote :: post)
         const (name ++ ch_colon :: new_tag).
Proof.
  intros Hm Hnew. destruct (matches_shape _ _ _ Hm) as (pre & post & -> & Hplain & _ & _ & Hnq & Hany).
  assert (Hcolon : has_colon (name ++ ch_colon :: tag) = true).
  { rewrite has_colon_app. simpl. apply orb_true_r. }
  pose proof (value_leftmost pre _ post Hplain Hnq Hcolon) as Hleft.
  exists pre, post. split; [reflexivity |]. split; [exact Hleft |]. split.
  - pose proof (replace_first_leftmost _ (name ++ ch_colon :: new_tag) _ _ Hleft) as H.
    repeat rewrite <- app_assoc in H. cbn [app] in H.
    repeat rewrite <- app_assoc. cbn [app]. exact H.
  - apply Hany.
    + destruct name; discriminate.
    + apply no_quote_app in Hnq. destruct Hnq as [Hname _].
      apply no_quote_colon_tag; assumption.
Qed.

(** ** The patch applier *)

Lemma apply_update_ret (constants : gmap str (nat * str)) (buffer : list str)
    (update : ImageUpdate) (i : nat) (value line : str) :
  constants !! const_name update = Some (i, value) ->
  has_colon value = true ->
  buffer !! i = Some line ->
  exists name tag,
    value = name ++ ch_colon :: tag /\ has_colon tag = false
    /\ apply_update constants buffer update
       = Ret (<[i := replace_first value (name ++ ch_colon :: to_tag update) line]> buffer).
Proof.
  intros Hc Hcolon Hline.
  destruct (has_colon_rsplit value Hcolon) as (name & tag & _ & -> & Htag).
  exists name, tag. split; [reflexivity |]. split; [exact Htag |].
  unfold apply_update. rewrite Hc, (replace_image_tag_app name tag _ Htag).
  cbn [obind]. rewrite Hline. reflexivity.
Qed.

Lemma split_last_colon (name1 tag1 name2 tag2 : str) :
  name1 ++ ch_colon :: tag1 = name2 ++ ch_colon :: tag2 ->
  has_colon tag1 = false -> has_colon tag2 = false ->
  name1 = name2 /\ tag1 = tag2.
Proof.
  intros Heq H1 H2.
  pose proof (rsplit_colon_app name1 tag1 H1) as E1.
  pose proof (rsplit_colon_app name2 tag2 H2) as E2.
  rewrite Heq, E2 in E1. injection E1 as -> ->. auto.
Qed.

Lemma apply_updates_loop_frame (constants : gmap str (nat * str)) (updates : list ImageUpdate) :
  forall buffer,
  (forall u, In u updates ->
     exists i v, constants !! const_name u = Some (i, v)
       /\ (i < length buffer)%nat /\ has_colon v = true) ->
  NoDup (map (target_line constants) updates) ->
  exists out,
    apply_updates_loop constants buffer updates = Ret out
    /\ length out = length buffer
    /\ (forall j, (forall u, In u updates -> target_line constants u <> Some j) ->
          out !! j = buffer !! j)
    /\ (forall u i v line, In u updates ->
          constants !! const_name u = Some (i, v) -> buffer !! i = Some line ->
          exists name tag, v = name ++ ch_colon :: tag /\ has_colon tag = false
            /\ out !! i = Some (replace_first v (name ++ ch_colon :: to_tag u) line)).
Proof.
  induction updates as [| u rest IH]; intros buffer Hok Hnd.
  - exists buffer. repeat split; try reflexivity. intros u i v line [].
  - destruct (Hok u (or_introl eq_refl)) as (i & v & Hc & Hi & Hcolon).
    destruct (lookup_lt_is_Some_2 buffer i Hi) as [line Hline].
    destruct (apply_update_ret constants buffer u i v line Hc Hcolon Hline)
      as (name & tag & Hv & Htag & Hstep).
    set (buffer1 := <[i := replace_first v (name ++ ch_colon :: to_tag u) line]> buffer) in *.
    assert (Hlen1 : length buffer1 = length buffer) by apply length_insert.
    cbn [map] in Hnd. apply NoDup_cons in Hnd. destruct Hnd as [Hfresh Hnd].
    assert (Htarget : target_line constants u = Some i).
    { unfold target_line. rewrite Hc. reflexivity. }
    assert (Hrest_ne : forall u', In u' rest -> target_line constants u' <> Some i).
    { intros u' Hin Heq. apply Hfresh. rewrite Htarget, <- Heq.
      apply list_elem_of_In, in_map, Hin. }
    destruct (IH buffer1) as (out & Hrun & Hlen & Hframe & Heach).
    { intros u' Hin. destruct (Hok u' (or_intror Hin)) as (i' & v' & H1 & H2 & H3).
      exists i', v'. rewrite Hlen1. auto. }
    { exact Hnd. }
    exists out. split; [| split; [| split]].
    + cbn [apply_updates_loop]. rewrite Hstep. cbn [obind]. exact Hrun.
    + rewrite Hlen, Hlen1. reflexivity.
    + intros j Hj. rewrite Hframe.
      * apply list_lookup_insert_ne. intros <-. apply (Hj u (or_introl eq_refl)). exact Htarget.
      * intros u' Hin. apply Hj. right. exact Hin.
    + intros u' i' v' line' [<- | Hin] Hc' Hline'.
      * rewrite Hc in Hc'. injection Hc' as <- <-.
        rewrite Hline in Hline'. injection Hline' as <-.
        exists name, tag. split; [exact Hv |]. split; [exact Htag |].
        rewrite (Hframe i Hrest_ne). apply list_lookup_insert_eq. exact Hi.
      * assert (Hne : i <> i').
        { intros <-. apply (Hrest_ne u' Hin). unfold target_line. rewrite Hc'. reflexivity. }
        apply (Heach u' i' v' line' Hin Hc').
        unfold buffer1. rewrite list_lookup_insert_ne by exact Hne. exact Hline'.
Qed.

(** ** C2 *)

(** C2.  When every update record names an identifier of the mapping
    whose line exists and whose value holds a colon, and no two records
    target the same line, [apply_updates] returns a buffer of the same
    length in which every line that no record targets is the original
    line, and in which a targeted line has the leftmost occurrence of the
    recorded value replaced by the same value with the text after its
    last colon changed to the record's target tag, the text before and
    after that occurrence being kept; a targeted line that does not
    contain the value is kept whole. *)
Theorem apply_updates_rewrites_only_the_tag
    (lines : list str) (constants : gmap str (nat * str)) (updates : list ImageUpdate) :
  (forall u, In u updates ->
     exists i v, constants !! const_name u = Some (i, v)
       /\ (i < length lines)%nat /\ has_colon v = true) ->
  NoDup (map (target_line constants) updates) ->
  exists out,
    apply_updates lines constants updates = Ret out
    /\ length out = length lines
    /\ (forall j, (forall u, In u updates -> target_line constants u <> Some j) ->
          out !! j = lines !! j)
    /\ (forall u i v, In u updates -> constants !! const_name u = Some (i, v) ->
          exists image_name tag,
            v = image_name ++ ch_colon :: tag /\ has_colon tag = false
            /\ (forall pre post, lines !! i = Some (pre ++ v ++ post) -> leftmost v pre post ->
                  out !! i = Some (pre ++ (image_name ++ ch_colon :: to_tag u) ++ post))
            /\ (forall line, lines !! i = Some line -> occurs v line = false ->
                  out !! i = Some line)).
Proof.
  intros Hok Hnd.
  destruct (apply_updates_loop_frame constants updates lines Hok Hnd)
    as (out & Hrun & Hlen & Hframe & Heach).
  exists out. split; [exact Hrun |]. split; [exact Hlen |]. split; [exact Hframe |].
  intros u i v Hin Hc.
  destruct (Hok u Hin) as (i' & v' & Hc' & Hi & Hcolon).
  rewrite Hc in Hc'. injection Hc' as <- <-.
  destruct (has_colon_rsplit v Hcolon) as (name & tag & _ & Hv & Htag).
  exists name, tag. split; [exact Hv |]. split; [exact Htag |]. split.
  - intros pre post Hline Hleft.
    destruct (Heach u i v _ Hin Hc Hline) as (name' & tag' & Hv' & Htag' & Hout).
    rewrite Hv in Hv'. destruct (split_last_colon _ _ _ _ Hv' Htag Htag') as [<- <-].
    rewrite Hout. f_equal. apply replace_first_leftmost. exact Hleft.
  - intros line Hline Habs.
    destruct (Heach u i v _ Hin Hc Hline) as (name' & tag' & _ & _ & Hout).
    rewrite Hout. f_equal. apply replace_first_absent. exact Habs.
Qed.

(** ** The entries of the parsed mapping *)

Lemma no_quote_not_In (s : str) : no_quote s -> ~ In ch_quote s.
Proof.
  unfold no_quote. intros H Hin. rewrite forallb_forall in H.
  specialize (H ch_quote Hin). discriminate H.
Qed.

Lemma apply_updates_loop_others (constants : gmap str (nat * str)) (updates : list ImageUpdate) :
  forall buffer out j,
  apply_updates_loop constants buffer updates = Ret out ->
  (forall u, In u updates -> target_line constants u <> Some j) ->
  out !! j = buffer !! j.
Proof.
  induction updates as [| u rest IH]; intros buffer out j Hrun Hj.
  - injection Hrun as <-. reflexivity.
  - cbn [apply_updates_loop] in Hrun.
    destruct (apply_update constants buffer u) as [buffer1 | e |] eqn:Hstep;
      cbn [obind] in Hrun; try discriminate.
    rewrite (IH buffer1 out j Hrun) by (intros u' Hin; apply Hj; right; exact Hin).
    unfold apply_update in Hstep.
    pose proof (Hj u (or_introl eq_refl)) as Hne. unfold target_line in Hne.
    destruct (constants !! const_name u) as [[i v] |]; [| discriminate].
    destruct (replace_image_tag v (to_tag u)) as [nv | e |]; cbn [obind] in Hstep;
      try discriminate.
    destruct (buffer !! i) as [line |]; [| discriminate].
    injection Hstep as <-. apply list_lookup_insert_ne. congruence.
Qed.

Lemma parse_entry_valid (lines : list str) (const : str) (i : nat) (value : str) :
  parse_image_constants lines !! const = Some (i, value) ->
  (i < length lines)%nat /\ value <> [] /\ ~ In ch_quote value
  /\ exists pre post, lines !! i = Some (pre ++ value ++ post).
Proof.
  intros H. apply parse_entry_iff in H. destruct H as (line & Hl & Hm & _).
  destruct (matches_shape _ _ _ Hm) as (pre & post & -> & _ & _ & Hne & Hnq & _).
  split; [apply lookup_lt_Some in Hl; exact Hl |].
  split; [exact Hne |]. split; [apply no_quote_not_In; exact Hnq |].
  exists (pre ++ [ch_quote]), (ch_quote :: post). rewrite Hl. f_equal.
  app_norm. reflexivity.
Qed.

(** ** C10 *)

(** C10.  Every entry of the mapping returned by [parse_image_constants]
    has a line number inside the input, a non-empty value without a
    double quote, and that value is a substring of the line with that
    number.  Hence, for update records with pairwise distinct
    identifiers, when the loop of [apply_updates] reaches a record whose
    identifier is in the mapping, the recorded line exists in the buffer
    and still contains the recorded value. *)
Theorem parse_image_constants_entries_valid (lines : list str) :
  (forall const i value,
     parse_image_constants lines !! const = Some (i, value) ->
     (i < length lines)%nat /\ value <> [] /\ ~ In ch_quote value
     /\ exists pre post, lines !! i = Some (pre ++ value ++ post))
  /\ (forall done update todo buffer i value,
        NoDup (map const_name (done ++ update :: todo)) ->
        apply_updates lines (parse_image_constants lines) done = Ret buffer ->
        parse_image_constants lines !! const_name update = Some (i, value) ->
        exists line, buffer !! i = Some line /\ occurs value line = true).
Proof.
  split; [intros const i value; apply parse_entry_valid |].
  intros done update todo buffer i value Hnd Hrun Hc.
  destruct (parse_entry_valid _ _ _ _ Hc) as (_ & _ & _ & pre & post & Hline).
  exists (pre ++ value ++ post). split; [| apply occurs_app].
  rewrite <- Hline. apply (apply_updates_loop_others _ done lines buffer i Hrun).
  intros u Hin Htarget. unfold target_line in Htarget.
  destruct (parse_image_constants lines !! const_name u) as [[i' v'] |] eqn:Hu; [| discriminate].
  injection Htarget as ->.
  pose proof (parse_same_line _ _ _ _ _ _ Hu Hc) as Hsame.
  rewrite map_app in Hnd. cbn [map] in Hnd.
  apply NoDup_app in Hnd. destruct Hnd as (_ & Hdisj & _).
  apply (Hdisj (const_name u)).
  - apply list_elem_of_In, in_map, Hin.
  - rewrite Hsame. left.
Qed.

(** ** Computations that only send requests *)

Lemma net_only_ret {A} (a : A) : net_only (ret a).
Proof. exists (Ret a), []. intros w. rewrite add_requests_nil. reflexivity. Qed.

Lemma net_only_lift {A} (o : outcome A) : net_only (lift o).
Proof. exists o, []. intros w. rewrite add_requests_nil. reflexivity. Qed.

Lemma net_only_raise {A} (e : exn) : net_only (@raise A e).
Proof. exists (Raise e), []. intros w. rewrite add_requests_nil. reflexivity. Qed.

Lemma net_only_diverge {A} : net_only (@diverge A).
Proof. exists Diverge, []. intros w. rewrite add_requests_nil. reflexivity. Qed.

Lemma net_only_bind {A B} (m : M A) (k : A -> M B) :
  net_only m -> (forall a, net_only (k a)) -> net_only (bind m k).
Proof.
  intros (o & log & Hm) Hk. destruct o as [a | e |].
  - destruct (Hk a) as (o' & log' & Hka). exists o', (log ++ log'). intros w.
    unfold bind. rewrite Hm, Hka, add_requests_app. reflexivity.
  - exists (Raise e), log. intros w. unfold bind. rewrite Hm. reflexivity.
  - exists Diverge, log. intros w. unfold bind. rewrite Hm. reflexivity.
Qed.

Lemma net_only_http_get_json registry url timeout : net_only (http_get_json registry url timeout).
Proof. eexists _, [url]. intros w. apply http_get_json_run. Qed.

Lemma net_only_fetch_tags_loop registry timeout (fuel : nat) : forall next_url tags,
  net_only (fetch_tags_loop registry fuel timeout next_url tags).
Proof.
  induction fuel as [| fuel IH]; intros next_url tags; cbn [fetch_tags_loop];
    destruct (truthy next_url); try apply net_only_ret; try apply net_only_diverge.
  apply net_only_bind; [apply net_only_http_get_json |]. intros payload.
  apply net_only_bind; [apply net_only_lift |]. intros tags'.
  apply net_only_bind; [apply net_only_lift |]. intros next_url'. apply IH.
Qed.

Lemma net_only_fetch_latest registry repository timeout fuel :
  net_only (fetch_latest_semver_tag registry repository timeout fuel).
Proof.
  apply net_only_bind; [apply net_only_fetch_tags_loop |]. intros tags. apply net_only_lift.
Qed.

Lemma fetch_latest_run registry repository timeout fuel :
  exists log, forall w,
    fetch_latest_semver_tag registry repository timeout fuel w
    = (latest_of registry timeout fuel repository, add_requests log w).
Proof.
  destruct (net_only_fetch_latest registry repository timeout fuel) as (o & log & H).
  exists log. intros w. unfold latest_of. rewrite (H empty_world), (H w). reflexivity.
Qed.

Lemma plan_step_run registry constants timeout fuel entry :
  exists log, forall w,
    plan_step registry constants timeout fuel entry w
    = (plan_entry constants (latest_of registry timeout fuel) entry, add_requests log w).
Proof.
  destruct entry as [c r]. unfold plan_step, plan_entry.
  destruct (constants !! c) as [[i value] |].
  2:{ exists []. intros w. rewrite add_requests_nil. reflexivity. }
  destruct (extract_image_tag value) as [current_tag | e |]; cbn [obind].
  2:{ exists []. intros w. rewrite add_requests_nil. reflexivity. }
  2:{ exists []. intros w. rewrite add_requests_nil. reflexivity. }
  destruct (fetch_latest_run registry r timeout fuel) as (log & Hlog).
  exists log. intros w. unfold bind at 1. unfold lift at 1. unfold bind.
  rewrite Hlog. destruct (latest_of registry timeout fuel r) as [latest_tag | e |];
    cbn [obind]; try reflexivity.
  destruct (parse_semver latest_tag); [| reflexivity].
  destruct (decide (current_tag = latest_tag)); reflexivity.
Qed.

Lemma plan_loop_run registry constants timeout fuel (table : list (str * str)) :
  forall updates, exists log, forall w,
    plan_loop registry constants timeout fuel table updates w
    = (plan_pure constants (latest_of registry timeout fuel) table updates, add_requests log w).
Proof.
  induction table as [| entry rest IH]; intros updates.
  - exists []. intros w. rewrite add_requests_nil. reflexivity.
  - destruct (plan_step_run registry constants timeout fuel entry) as (log1 & H1).
    cbn [plan_loop plan_pure].
    destruct (plan_entry constants (latest_of registry timeout fuel) entry) as [step | e |] eqn:E.
    + destruct (IH match step with
                   | Some update => updates ++ [update]
                   | None => updates
                   end) as (log2 & H2).
      exists (log1 ++ log2). intros w. unfold bind. rewrite H1.
      cbn [obind]. rewrite <- add_requests_app, <- H2. reflexivity.
    + exists log1. intros w. unfold bind. rewrite H1. reflexivity.
    + exists log1. intros w. unfold bind. rewrite H1. reflexivity.
Qed.

Lemma compute_updates_over_run registry table constants timeout fuel :
  exists log, forall w,
    compute_updates_over registry table constants timeout fuel w
    = (obind (plan_pure constants (latest_of registry timeout fuel) table [])
         (fun updates => Ret (sorted_by_name updates)),
       add_requests log w).
Proof.
  destruct (plan_loop_run registry constants timeout fuel table []) as (log & H).
  exists log. intros w. unfold compute_updates_over, bind. rewrite H.
  destruct (plan_pure constants (latest_of registry timeout fuel) table []); reflexivity.
Qed.

(** ** Sorting by identifier *)






Lemma insert_by_name_perm (u : ImageUpdate) (l : list ImageUpdate) :
  Permutation (insert_by_name u l) (u :: l).
Proof.
  induction l as [| x l IH]; cbn [insert_by_name]; [reflexivity |].
  destruct (str_leb (const_name u) (const_name x)); [reflexivity |].
  rewrite IH. apply perm_swap.
Qed.

Lemma sorted_by_name_perm (l : list ImageUpdate) : Permutation (sorted_by_name l) l.
Proof.
  induction l as [| u l IH]; [reflexivity |].
  unfold sorted_by_name in *. cbn [foldr]. rewrite insert_by_name_perm, IH. reflexivity.
Qed.





(** ** The update plan *)

Section Plan.

Variable constants : gmap str (nat * str).
Variable latest : str -> outcome str.

Lemma plan_entry_inv (c r : str) (step : option ImageUpdate) :
  plan_entry constants latest (c, r) = Ret step ->
  exists i v current_tag latest_tag,
    constants !! c = Some (i, v)
    /\ extract_image_tag v = Ret current_tag
    /\ latest r = Ret latest_tag
    /\ passes_filter latest_tag
    /\ step = if decide (current_tag = latest_tag) then None
              else Some (mkImageUpdate c r current_tag latest_tag).
Proof.
  unfold plan_entry. destruct (constants !! c) as [[i v] |]; [| discriminate].
  destruct (extract_image_tag v) as [cur | e |] eqn:E1; cbn [obind]; try discriminate.
  destruct (latest r) as [lt | e |] eqn:E2; cbn [obind]; try discriminate.
  destruct (parse_semver lt) eqn:E3; [| discriminate].
  intros H. exists i, v, cur, lt.
  split; [reflexivity |]. split; [exact E1 |]. split; [reflexivity |].
  split; [unfold passes_filter; congruence |].
  destruct (decide (cur = lt)); injection H as <-; reflexivity.
Qed.

Lemma plan_pure_returns (table : list (str * str)) : forall updates,
  Forall (returns constants latest) table ->
  plan_pure constants latest table updates
  = Ret (updates ++ flat_map (step_records constants latest) table).
Proof.
  induction table as [| entry rest IH]; intros updates Hall.
  - simpl. rewrite app_nil_r. reflexivity.
  - apply Forall_cons in Hall. destruct Hall as [[step Hstep] Hrest].
    cbn [plan_pure flat_map]. unfold step_records at 1. rewrite Hstep. cbn [obind].
    rewrite (IH _ Hrest). destruct step; cbn [option_list]; [| reflexivity].
    rewrite <- app_assoc. reflexivity.
Qed.

Lemma plan_pure_inv (table : list (str * str)) : forall updates result,
  plan_pure constants latest table updates = Ret result -> Forall (returns constants latest) table.
Proof.
  induction table as [| entry rest IH]; intros updates result H; [constructor |].
  cbn [plan_pure] in H.
  destruct (plan_entry constants latest entry) as [step | e |] eqn:Hstep;
    cbn [obind] in H; try discriminate.
  constructor; [exists step; exact Hstep | eapply IH; exact H].
Qed.

Lemma step_records_name (c r : str) (u : ImageUpdate) :
  In u (step_records constants latest (c, r)) -> const_name u = c.
Proof.
  unfold step_records.
  destruct (plan_entry constants latest (c, r)) as [step | e |] eqn:H; try (intros []).
  apply plan_entry_inv in H. destruct H as (i & v & cur & lt & _ & _ & _ & _ & ->).
  destruct (decide (cur = lt)); [intros [] |]. intros [<- | []]. reflexivity.
Qed.

Lemma In_flat_records (table : list (str * str)) (u : ImageUpdate) :
  In u (flat_map (step_records constants latest) table)
  <-> exists r, In (const_name u, r) table
        /\ In u (step_records constants latest (const_name u, r)).
Proof.
  rewrite in_flat_map. split.
  - intros ([c r] & Hin & Hu). pose proof (step_records_name c r u Hu) as <-.
    exists r. auto.
  - intros (r & Hin & Hu). exists (const_name u, r). auto.
Qed.

Lemma flat_records_names (table : list (str * str)) :
  NoDup (map fst table) ->
  NoDup (map const_name (flat_map (step_records constants latest) table)).
Proof.
  induction table as [| [c r] rest IH]; intros Hnd; [constructor |].
  cbn [map fst] in Hnd. apply NoDup_cons in Hnd. destruct Hnd as [Hfresh Hnd].
  cbn [flat_map]. rewrite map_app. apply NoDup_app. split; [| split].
  - unfold step_records. destruct (plan_entry constants latest (c, r)) as [[u |] | |];
      cbn [option_list map]; try constructor; [| constructor].
    intros H. apply elem_of_nil in H. exact H.
  - intros name H1 H2. apply list_elem_of_In, in_map_iff in H1, H2.
    destruct H1 as (u1 & <- & Hu1), H2 as (u2 & Hname & Hu2).
    apply step_records_name in Hu1.
    apply In_flat_records in Hu2. destruct Hu2 as (r2 & Hin2 & _).
    apply Hfresh. rewrite <- Hu1, <- Hname.
    apply list_elem_of_In. change (const_name u2) with (fst (const_name u2, r2)).
    apply in_map. exact Hin2.
  - apply IH. exact Hnd.
Qed.

End Plan.

Lemma version_le_antisym (x y : version) : version_le x y -> version_le y x -> x = y.
Proof.
  destruct x as [[a1 b1] c1], y as [[a2 b2] c2]. unfold version_le.
  intros H1 H2. assert (a1 = a2 /\ b1 = b2 /\ c1 = c2) as (-> & -> & ->) by lia. reflexivity.
Qed.


Lemma select_latest_format (repository : str) (tags : list str) (t : str) :
  select_latest repository tags = Ret t -> exists m, t = format_version m.
Proof.
  unfold select_latest. destruct (omap parse_semver tags) as [| v vs]; [discriminate |].
  intros [= <-]. eexists. reflexivity.
Qed.

Lemma latest_of_format registry timeout fuel (repository t : str) :
  latest_of registry timeout fuel repository = Ret t -> exists m, t = format_version m.
Proof.
  unfold latest_of, fetch_latest_semver_tag, bind.
  destruct (fetch_tags registry repository timeout fuel empty_world) as [[tags | e |] w'];
    cbn [fst]; try discriminate.
  unfold lift. cbn [fst]. apply select_latest_format.
Qed.

Lemma fetch_tags_run registry repository timeout fuel :
  exists log, forall w,
    fetch_tags registry repository timeout fuel w
    = (fst (fetch_tags registry repository timeout fuel empty_world), add_requests log w).
Proof.
  destruct (net_only_fetch_tags_loop registry timeout fuel
              (JStr (first_page_url repository)) []) as (o & log & H).
  exists log. intros w. unfold fetch_tags. rewrite (H empty_world), (H w). reflexivity.
Qed.



Lemma table_functional (table : list (str * str)) (c r r' : str) :
  NoDup (map fst table) -> In (c, r) table -> In (c, r') table -> r = r'.
Proof.
  induction table as [| [c0 r0] rest IH]; intros Hnd H1 H2; [destruct H1 |].
  cbn [map fst] in Hnd. apply NoDup_cons in Hnd. destruct Hnd as [Hfresh Hnd].
  assert (Hkey : forall x, In (c0, x) rest -> False).
  { intros x Hx. apply Hfresh, list_elem_of_In.
    change c0 with (fst (c0, x)). apply in_map. exact Hx. }
  destruct H1 as [E1 | H1], H2 as [E2 | H2].
  - congruence.
  - exfalso. injection E1 as -> _. eapply Hkey. exact H2.
  - exfalso. injection E2 as -> _. eapply Hkey. exact H1.
  - apply IH; assumption.
Qed.


(** When the plan returns.  The re-validation of the latest tag cannot
    fail: the tag is a formatted version. *)
Lemma returns_iff (registry : json -> Z -> response) (timeout : Z) (fuel : nat)
    (constants : gmap str (nat * str)) (c r : str) :
  returns constants (latest_of registry timeout fuel) (c, r)
  <-> exists i v latest_tag,
        constants !! c = Some (i, v) /\ has_colon v = true
        /\ latest_of registry timeout fuel r = Ret latest_tag.
Proof.
  split.
  - intros [step Hstep]. apply plan_entry_inv in Hstep.
    destruct Hstep as (i & v & cur & lt & Hc & Hex & Hlt & _).
    exists i, v, lt. split; [exact Hc |]. split; [| exact Hlt].
    unfold extract_image_tag in Hex. destruct (has_colon v); [reflexivity | discriminate].
  - intros (i & v & lt & Hc & Hv & Hlt).
    destruct (has_colon_rsplit v Hv) as (name & tag & _ & -> & Htag).
    unfold returns, plan_entry. rewrite Hc, (extract_image_tag_app name tag Htag).
    cbn [obind]. rewrite Hlt. cbn [obind].
    apply latest_of_format in Hlt. destruct Hlt as [m ->]. rewrite parse_format_version.
    destruct (decide (tag = format_version m)); eexists; reflexivity.
Qed.

Lemma compute_updates_returns (registry : json -> Z -> response) (table : list (str * str))
    (constants : gmap str (nat * str)) (timeout : Z) (fuel : nat) :
  Forall (returns constants (latest_of registry timeout fuel)) table ->
  exists log, forall w,
    compute_updates_over registry table constants timeout fuel w
    = (Ret (sorted_by_name
              (flat_map (step_records constants (latest_of registry timeout fuel)) table)),
       add_requests log w).
Proof.
  intros Hall.
  destruct (compute_updates_over_run registry table constants timeout fuel) as (log & Hlog).
  exists log. intros w. rewrite Hlog, (plan_pure_returns _ _ _ _ Hall). reflexivity.
Qed.

(** ** C4 *)


(** ** C6 *)

Lemma digits_last (s : str) : digits s -> exists z d, s = z ++ [d] /\ is_digit d = true.
Proof.
  intros [Hne Hall]. destruct (exists_last Hne) as (z & d & ->).
  exists z, d. split; [reflexivity |].
  rewrite forallb_app in Hall. apply andb_prop in Hall. destruct Hall as [_ Hd].
  simpl in Hd. rewrite andb_true_r in Hd. exact Hd.
Qed.

Lemma stable_form_ends_with_digit (tag : str) (v : version) :
  stable_semver_form tag v -> exists z d, tag = z ++ [d] /\ is_digit d = true.
Proof.
  intros (a & b & c & _ & _ & Hc & -> & _).
  destruct (digits_last c Hc) as (z & d & -> & Hd).
  exists (ch_v :: a ++ ch_dot :: b ++ ch_dot :: z), d. split; [| exact Hd].
  app_norm. reflexivity.
Qed.

Lemma newline_not_stable_form (tag : str) (v : version) :
  ~ stable_semver_form (tag ++ [ch_lf]) v.
Proof.
  intros H. apply stable_form_ends_with_digit in H. destruct H as (z & d & Heq & Hd).
  apply app_inj_tail in Heq. destruct Heq as [_ <-]. discriminate Hd.
Qed.

(** Every tag of the exact form is accepted again, with the same triple,
    when a newline is appended. *)
Lemma parse_semver_newline (tag : str) (v : version) :
  stable_semver_form tag v -> parse_semver (tag ++ [ch_lf]) = Some v.
Proof.
  intros (a & b & c & Ha & Hb & Hc & -> & ->).
  unfold parse_semver. rewrite semver_match_newline by assumption. reflexivity.
Qed.

(** C6, at the failing input: the tag v1.2.3 followed by a newline is not
    of the form v, digits, dot, digits, dot, digits, yet [parse_semver]
    returns the version (1, 2, 3) for it and the selection keeps it.
    (Tags of the exact form are parsed to the triple written in them:
    [parse_semver_form]; among the strings of code points below 256 the
    only other accepted tags are those with one trailing newline:
    [parse_semver_inv].) *)
Theorem parse_semver_accepts_trailing_newline :
  let tag := lit "v1.2.3" ++ [ch_lf] in
  (forall v, ~ stable_semver_form tag v)
  /\ parse_semver tag = Some (1, 2, 3)
  /\ select_latest (lit "horusec-go") [tag; lit "v1.0.0"] = Ret (lit "v1.2.3").
Proof.
  cbv zeta. split; [| split].
  - intros v. apply newline_not_stable_form.
  - reflexivity.
  - reflexivity.
Qed.

(** ** C1 *)

Lemma last_page_of (names : list str) : page_of (last_page names) names JNull.
Proof.
  exists [ (lit "results", JArr (map (fun n => JObj [(lit "name", JStr n)]) names));
           (lit "next", JNull) ],
    (map (fun n => JObj [(lit "name", JStr n)]) names).
  split; [reflexivity |]. split; [reflexivity |]. split; [| split; [| reflexivity]].
  - induction names as [| n names IH]; constructor; [eexists; reflexivity | exact IH].
  - induction names as [| n names IH]; [reflexivity |].
    cbn [map]. rewrite omap_cons. cbn [string_name]. rewrite <- IH. reflexivity.
Qed.

Lemma fetch_tags_last_page (names : list str) (repository : str) (timeout : Z) (w : world) :
  fetch_tags (names_registry names) repository timeout 1 w
  = (Ret names, add_requests [JStr (first_page_url repository)] w).
Proof.
  assert (Hwalk : walk (names_registry names) timeout (JStr (first_page_url repository))
                    [(JStr (first_page_url repository), names)] JNull).
  { eapply walk_page; [reflexivity | reflexivity | apply last_page_of | apply walk_done]. }
  unfold fetch_tags.
  change 1%nat with (length [(JStr (first_page_url repository), names)] + 0)%nat.
  rewrite (fetch_tags_loop_walk _ _ _ _ _ Hwalk 0%nat [] w).
  cbn [fetch_tags_loop truthy ret map fst snd concat app]. rewrite app_nil_r. reflexivity.
Qed.

(** C1, at two failing inputs.  When the registry lists the one tag
    v1.2.3 followed by a newline, no fetched tag is of the form v,
    digits, dot, digits, dot, digits, yet [fetch_latest_semver_tag]
    raises no error and returns v1.2.3.  When it lists that tag and
    v1.0.0, the only fetched tag of the form is v1.0.0, yet the function
    returns v1.2.3, which is greater and is not a fetched tag. *)
Theorem fetch_latest_semver_tag_counts_newline_tag
    (repository : str) (timeout : Z) (w : world) :
  let tag := lit "v1.2.3" ++ [ch_lf] in
  let w' := add_requests [JStr (first_page_url repository)] w in
  (forall v, ~ stable_semver_form tag v)
  /\ fetch_tags (names_registry [tag]) repository timeout 1 w = (Ret [tag], w')
  /\ fetch_latest_semver_tag (names_registry [tag]) repository timeout 1 w
     = (Ret (lit "v1.2.3"), w')
  /\ fetch_tags (names_registry [tag; lit "v1.0.0"]) repository timeout 1 w
     = (Ret [tag; lit "v1.0.0"], w')
  /\ stable_semver_form (lit "v1.0.0") (1, 0, 0)
  /\ fetch_latest_semver_tag (names_registry [tag; lit "v1.0.0"]) repository timeout 1 w
     = (Ret (lit "v1.2.3"), w')
  /\ ~ In (lit "v1.2.3") [tag; lit "v1.0.0"].
Proof.
  cbv zeta.
  split; [intros v; apply newline_not_stable_form |].
  split; [apply fetch_tags_last_page |].
  split.
  { unfold fetch_latest_semver_tag, bind. rewrite fetch_tags_last_page. reflexivity. }
  split; [apply fetch_tags_last_page |].
  split.
  { exists (lit "1"), (lit "0"), (lit "0").
    repeat split; try reflexivity; discriminate. }
  split.
  { unfold fetch_latest_semver_tag, bind. rewrite fetch_tags_last_page. reflexivity. }
  intros [H | [H | []]]; vm_compute in H; discriminate H.
Qed.

(** ** C5 *)

Lemma plan_step_outcome registry constants timeout fuel entry (w : world) :
  fst (plan_step registry constants timeout fuel entry w)
  = plan_entry constants (latest_of registry timeout fuel) entry.
Proof.
  destruct (plan_step_run registry constants timeout fuel entry) as (log & H).
  rewrite H. reflexivity.
Qed.

Lemma extract_image_tag_no_colon (value : str) :
  has_colon value = false -> extract_image_tag value = Raise (invalid_format value).
Proof. intros H. unfold extract_image_tag. rewrite H. reflexivity. Qed.

Lemma extract_image_tag_ret (value tag : str) :
  extract_image_tag value = Ret tag ->
  exists name, value = name ++ ch_colon :: tag /\ has_colon tag = false.
Proof.
  unfold extract_image_tag. destruct (has_colon value); [| discriminate]. cbn [negb].
  destruct (rsplit_colon value) as [[name t] |] eqn:E; [| discriminate].
  intros [= <-]. exists name. apply rsplit_colon_Some. exact E.
Qed.

(** What [main] does when the plan does not return a list of records. *)
Lemma main_plan_fails registry timestamp images_file report_file timeout fuel (w : world)
    (text : str) :
  fs w !! images_file = Some text ->
  (forall raw, plan_pure (parse_image_constants (splitlines text))
                 (latest_of registry timeout fuel) TARGET_CONST_TO_REPOSITORY [] <> Ret raw) ->
  exists result log,
    main registry timestamp images_file report_file timeout fuel w
    = (result, add_requests log w)
    /\ result <> Ret 0%Z.
Proof.
  intros Hfile Hplan. unfold main. rewrite Hfile. unfold main_body.
  destruct (compute_updates_over_run registry TARGET_CONST_TO_REPOSITORY
              (parse_image_constants (splitlines text)) timeout fuel) as (log & Hlog).
  unfold bind at 1. unfold compute_updates. rewrite Hlog.
  destruct (plan_pure (parse_image_constants (splitlines text))
              (latest_of registry timeout fuel) TARGET_CONST_TO_REPOSITORY [])
    as [raw | e |]; cbn [obind].
  - exfalso. apply (Hplan raw). reflexivity.
  - destruct (caught_by_main e); eexists _, log; (split; [reflexivity | discriminate]).
  - eexists _, log. split; [reflexivity | discriminate].
Qed.

(** C5.  When the step of some tracked identifier does not return (it
    raises, or never ends), [main] writes no file: the file system and
    the record of writes are as before, whatever the other identifiers
    would have needed, and the exit status is not 0.  The listed errors
    all make the step raise: a missing constant, a value without a
    colon, an exception from the registry lookup (a retrieval failure or
    no stable tag), and a latest tag that fails the re-validation. *)
Theorem main_writes_nothing_on_error
    (registry : json -> Z -> response) (timestamp images_file report_file : str)
    (timeout : Z) (fuel : nat) (w w0 : world) (text : str) (entry : str * str) :
  let constants := parse_image_constants (splitlines text) in
  let step_of e := fst (plan_step registry constants timeout fuel e w0) in
  fs w !! images_file = Some text ->
  In entry TARGET_CONST_TO_REPOSITORY ->
  (forall step, step_of entry <> Ret step) ->
  (let run := main registry timestamp images_file report_file timeout fuel w in
   fs (snd run) = fs w /\ writes (snd run) = writes w /\ fst run <> Ret 0%Z)
  /\ (forall c r, constants !! c = None -> step_of (c, r) = Raise (constant_not_found c))
  /\ (forall c r i v, constants !! c = Some (i, v) -> has_colon v = false ->
        step_of (c, r) = Raise (invalid_format v))
  /\ (forall c r i v e, constants !! c = Some (i, v) -> has_colon v = true ->
        fst (fetch_latest_semver_tag registry r timeout fuel w0) = Raise e ->
        step_of (c, r) = Raise e)
  /\ (forall c r i v latest_tag, constants !! c = Some (i, v) -> has_colon v = true ->
        fst (fetch_latest_semver_tag registry r timeout fuel w0) = Ret latest_tag ->
        parse_semver latest_tag = None ->
        step_of (c, r) = Raise (latest_not_stable r latest_tag)).
Proof.
  intros constants step_of Hfile Hin Hfail.
  assert (Hlatest : forall r, fst (fetch_latest_semver_tag registry r timeout fuel w0)
                              = latest_of registry timeout fuel r).
  { intros r. destruct (fetch_latest_run registry r timeout fuel) as (log & H).
    rewrite H. reflexivity. }
  assert (Hstep : forall e, step_of e = plan_entry constants (latest_of registry timeout fuel) e).
  { intros e. apply plan_step_outcome. }
  split; [| split; [| split; [| split]]].
  - destruct (main_plan_fails registry timestamp images_file report_file timeout fuel w text Hfile)
      as (result & log & Hmain & Hres).
    { intros raw Hraw. apply plan_pure_inv in Hraw. rewrite Forall_forall in Hraw.
      destruct (Hraw entry (proj2 (list_elem_of_In _ _) Hin)) as [step Hentry].
      apply (Hfail step). rewrite Hstep. exact Hentry. }
    cbv zeta. rewrite Hmain. auto.
  - intros c r Hc. rewrite Hstep. unfold plan_entry. rewrite Hc. reflexivity.
  - intros c r i v Hc Hv. rewrite Hstep. unfold plan_entry.
    rewrite Hc, (extract_image_tag_no_colon v Hv). reflexivity.
  - intros c r i v e Hc Hv He. rewrite Hstep. unfold plan_entry. rewrite Hc.
    destruct (has_colon_rsplit v Hv) as (name & tag & _ & -> & Htag).
    rewrite (extract_image_tag_app name tag Htag). cbn [obind].
    rewrite <- Hlatest, He. reflexivity.
  - intros c r i v lt Hc Hv Hlt Hparse. rewrite Hstep. unfold plan_entry. rewrite Hc.
    destruct (has_colon_rsplit v Hv) as (name & tag & _ & -> & Htag).
    rewrite (extract_image_tag_app name tag Htag). cbn [obind].
    rewrite <- Hlatest, Hlt. cbn [obind]. rewrite Hparse. reflexivity.
Qed.

(** ** Planning again after the patch *)

Lemma digit_plain (c : ascii) : is_digit c = true -> plain c = true.
Proof. by_cases_on_char c. Qed.

Lemma stable_form_plain (tag : str) (v : version) :
  stable_semver_form tag v -> forallb plain tag = true.
Proof.
  intros (a & b & c & [_ Ha] & [_ Hb] & [_ Hc] & -> & _).
  cbn [forallb]. rewrite forallb_app. cbn [forallb]. rewrite forallb_app. cbn [forallb].
  rewrite (forallb_impl _ _ _ digit_plain Ha), (forallb_impl _ _ _ digit_plain Hb),
    (forallb_impl _ _ _ digit_plain Hc). reflexivity.
Qed.

Lemma passes_filter_plain (tag : str) : passes_filter tag -> has_colon tag = false /\ no_quote tag.
Proof.
  unfold passes_filter. destruct (parse_semver tag) as [v |] eqn:H; [| congruence]. intros _.
  apply plain_no_colon.
  apply parse_semver_inv in H. destruct H as [H | (tag' & -> & H)].
  - apply (stable_form_plain _ _ H).
  - rewrite forallb_app, (stable_form_plain _ _ H). reflexivity.
Qed.

Lemma NoDup_map_inj_on {A B C} (f : A -> B) (g : A -> C) (l : list A) :
  (forall x y, In x l -> In y l -> g x = g y -> f x = f y) ->
  NoDup (map f l) -> NoDup (map g l).
Proof.
  induction l as [| a l IH]; intros Hinj Hnd; [constructor |].
  cbn [map] in *. apply NoDup_cons in Hnd. destruct Hnd as [Hfresh Hnd].
  apply NoDup_cons. split.
  - intros Hin. apply list_elem_of_In, in_map_iff in Hin. destruct Hin as (y & Hy & Hin).
    apply Hfresh. rewrite (Hinj a y); [| left; reflexivity | right; exact Hin | congruence].
    apply list_elem_of_In, in_map, Hin.
  - apply IH; [| exact Hnd]. intros x y Hx Hy. apply Hinj; right; assumption.
Qed.

Section Replan.

Variable lines : list str.
Variable latest : str -> outcome str.
Variable table : list (str * str).

Let constants := parse_image_constants lines.
Let updates := sorted_by_name (flat_map (step_records constants latest) table).

Hypothesis table_keys : NoDup (map fst table).
Hypothesis table_returns : Forall (returns constants latest) table.

(** What the records of the first plan are. *)
Lemma update_inv (u : ImageUpdate) :
  In u updates ->
  exists r i name,
    In (const_name u, r) table
    /\ u = mkImageUpdate (const_name u) r (from_tag u) (to_tag u)
    /\ repository u = r
    /\ constants !! const_name u = Some (i, name ++ ch_colon :: from_tag u)
    /\ has_colon (from_tag u) = false
    /\ latest r = Ret (to_tag u)
    /\ passes_filter (to_tag u)
    /\ from_tag u <> to_tag u.
Proof.
  intros Hu. unfold updates in Hu.
  apply (Permutation_in _ (sorted_by_name_perm _)) in Hu.
  apply In_flat_records in Hu. destruct Hu as (r & Hin & Hu).
  unfold step_records in Hu.
  destruct (plan_entry constants latest (const_name u, r)) as [step | e |] eqn:Hstep;
    try destruct Hu.
  apply plan_entry_inv in Hstep.
  destruct Hstep as (i & v & cur & lt & Hc & Hex & Hlt & Hq & ->).
  destruct (decide (cur = lt)) as [| Hne]; [destruct Hu |].
  destruct Hu as [<- | []]. cbn [const_name from_tag to_tag repository] in *.
  apply extract_image_tag_ret in Hex. destruct Hex as (name & -> & Hcur).
  exists r, i, name. repeat split; assumption.
Qed.

Lemma update_of_entry (c r : str) (i : nat) (v current_tag latest_tag : str) :
  In (c, r) table ->
  constants !! c = Some (i, v) ->
  extract_image_tag v = Ret current_tag ->
  latest r = Ret latest_tag ->
  passes_filter latest_tag ->
  (current_tag <> latest_tag -> In (mkImageUpdate c r current_tag latest_tag) updates)
  /\ (current_tag = latest_tag -> forall u, In u updates -> const_name u <> c).
Proof.
  intros Hin Hc Hex Hlt Hq.
  assert (Hstep : plan_entry constants latest (c, r)
                  = Ret (if decide (current_tag = latest_tag) then None
                         else Some (mkImageUpdate c r current_tag latest_tag))).
  { unfold plan_entry. rewrite Hc, Hex. cbn [obind]. rewrite Hlt. cbn [obind].
    unfold passes_filter in Hq. destruct (parse_semver latest_tag); [| congruence].
    destruct (decide (current_tag = latest_tag)); reflexivity. }
  split.
  - intros Hne. unfold updates.
    apply (Permutation_in _ (Permutation_sym (sorted_by_name_perm _))).
    apply In_flat_records. cbn [const_name]. exists r. split; [exact Hin |].
    unfold step_records. rewrite Hstep.
    destruct (decide (current_tag = latest_tag)); [contradiction | left; reflexivity].
  - intros Heq u Hu Hname. destruct (update_inv u Hu) as (r' & i' & name & Hin' & _ & _ & Hc' & _ & Hlt' & _ & Hne).
    rewrite Hname in Hin', Hc'.
    rewrite (table_functional _ _ _ _ table_keys Hin' Hin) in Hlt'.
    rewrite Hc in Hc'. injection Hc' as _ Hv. subst v.
    apply extract_image_tag_ret in Hex. destruct Hex as (name' & Hv & Hcur).
    assert (Hcolon : has_colon (from_tag u) = false).
    { destruct (update_inv u Hu) as (_ & _ & _ & _ & _ & _ & _ & H & _). exact H. }
    destruct (split_last_colon _ _ _ _ Hv Hcolon Hcur) as [_ Htag].
    apply Hne. rewrite Htag, Heq. congruence.
Qed.

End Replan.

Section Patched.

Variable lines : list str.
Variable latest : str -> outcome str.
Variable table : list (str * str).

Let constants := parse_image_constants lines.
Let updates := sorted_by_name (flat_map (step_records constants latest) table).

Hypothesis table_keys : NoDup (map fst table).
Hypothesis table_returns : Forall (returns constants latest) table.

Lemma updates_ok (u : ImageUpdate) :
  In u updates ->
  exists i v, constants !! const_name u = Some (i, v)
    /\ (i < length lines)%nat /\ has_colon v = true.
Proof.
  intros Hu.
  destruct (update_inv lines latest table u Hu) as (r & i & name & _ & _ & _ & Hc & _).
  exists i, (name ++ ch_colon :: from_tag u). split; [exact Hc |]. split.
  - apply (parse_entry_valid lines _ _ _ Hc).
  - rewrite has_colon_app. simpl. apply orb_true_r.
Qed.

Lemma updates_names_distinct : NoDup (map const_name updates).
Proof.
  unfold updates.
  assert (P : Permutation (map const_name (sorted_by_name
                (flat_map (step_records constants latest) table)))
                (map const_name (flat_map (step_records constants latest) table)))
    by apply Permutation_map, sorted_by_name_perm.
  rewrite P. apply flat_records_names. exact table_keys.
Qed.

Lemma updates_targets_distinct : NoDup (map (target_line constants) updates).
Proof.
  apply (NoDup_map_inj_on const_name); [| exact updates_names_distinct].
  intros x y Hx Hy Heq.
  destruct (updates_ok x Hx) as (i & v & Hcx & _), (updates_ok y Hy) as (j & v' & Hcy & _).
  unfold target_line in Heq. rewrite Hcx, Hcy in Heq. injection Heq as <-.
  apply (parse_same_line lines _ _ _ _ _ Hcx Hcy).
Qed.

Variable patched : list str.
Hypothesis patched_eq : apply_updates lines constants updates = Ret patched.

Lemma patched_facts :
  length patched = length lines
  /\ (forall j, (forall u, In u updates -> target_line constants u <> Some j) ->
        patched !! j = lines !! j)
  /\ (forall u i name line, In u updates ->
        constants !! const_name u = Some (i, name ++ ch_colon :: from_tag u) ->
        lines !! i = Some line ->
        patched !! i = Some (replace_first (name ++ ch_colon :: from_tag u)
                               (name ++ ch_colon :: to_tag u) line)).
Proof.
  destruct (apply_updates_loop_frame constants updates lines updates_ok updates_targets_distinct)
    as (out & Hrun & Hlen & Hframe & Heach).
  unfold apply_updates in patched_eq. rewrite patched_eq in Hrun. injection Hrun as <-.
  split; [exact Hlen |]. split; [exact Hframe |].
  intros u i name line Hu Hc Hline.
  destruct (Heach u i _ line Hu Hc Hline) as (name' & tag' & Hv & Htag & Hout).
  destruct (update_inv lines latest table u Hu) as (_ & _ & _ & _ & _ & _ & _ & Hfrom & _).
  destruct (split_last_colon _ _ _ _ Hv Hfrom Htag) as [<- _]. exact Hout.
Qed.

(** The line a record targets, before and after. *)
Lemma patched_target (u : ImageUpdate) (i : nat) (name : str) :
  In u updates ->
  constants !! const_name u = Some (i, name ++ ch_colon :: from_tag u) ->
  exists pre post,
    lines !! i = Some (pre ++ ch_quote :: (name ++ ch_colon :: from_tag u) ++ ch_quote :: post)
    /\ patched !! i = Some (pre ++ ch_quote :: (name ++ ch_colon :: to_tag u) ++ ch_quote :: post)
    /\ pre <> []
    /\ matches (pre ++ ch_quote :: (name ++ ch_colon :: from_tag u) ++ ch_quote :: post)
         (const_name u) (name ++ ch_colon :: from_tag u)
    /\ matches (pre ++ ch_quote :: (name ++ ch_colon :: to_tag u) ++ ch_quote :: post)
         (const_name u) (name ++ ch_colon :: to_tag u).
Proof.
  intros Hu Hc.
  destruct (update_inv lines latest table u Hu) as (_ & _ & _ & _ & _ & _ & _ & _ & _ & Hq & _).
  apply passes_filter_plain in Hq. destruct Hq as [_ Hnq].
  pose proof Hc as Hentry. apply parse_entry_iff in Hentry.
  destruct Hentry as (line & Hline & Hm & _).
  destruct (patch_matching_line line _ name (from_tag u) (to_tag u) Hm Hnq)
    as (pre & post & Heq & _ & Hrep & Hm').
  destruct patched_facts as (_ & _ & Heach).
  exists pre, post. split; [rewrite Hline, Heq; reflexivity |].
  split; [rewrite (Heach u i name line Hu Hc Hline), Hrep; reflexivity |].
  split.
  - destruct (matches_shape _ _ _ Hm) as (pre0 & post0 & Heq0 & _ & Hne0 & _).
    intros ->. rewrite Heq in Hm. destruct Hm as [indent Hm].
    apply const_line_match_inv in Hm. destruct Hm as (p & Hhead & _).
    apply const_line_head_inv in Hhead.
    destruct Hhead as (pre1 & Heq1 & Hplain1 & _ & (c0 & Hc0 & Hclass) & _).
    cbn [app] in Heq1. destruct pre1 as [| x pre1]; [discriminate Hc0 |].
    cbn [head] in Hc0. injection Hc0 as ->. cbn [app] in Heq1. injection Heq1 as <- _.
    destruct Hclass as [H | H]; discriminate H.
  - split; [rewrite <- Heq; exact Hm | exact Hm'].
Qed.

End Patched.

Section Replanned.

Variable lines : list str.
Variable latest : str -> outcome str.
Variable table : list (str * str).

Let constants := parse_image_constants lines.
Let updates := sorted_by_name (flat_map (step_records constants latest) table).

Hypothesis table_keys : NoDup (map fst table).
Hypothesis table_returns : Forall (returns constants latest) table.

Variable patched : list str.
Hypothesis patched_eq : apply_updates lines constants updates = Ret patched.

Lemma patched_line_at (j : nat) (line : str) :
  lines !! j = Some line ->
  exists line', patched !! j = Some line' /\ patched_line latest line line'.
Proof.
  intros Hline.
  destruct (patched_facts lines latest table table_keys patched patched_eq)
    as (_ & Hframe & _).
  destruct (decide (Some j ∈ map (target_line constants) updates)) as [Hin | Hout].
  - apply list_elem_of_In, in_map_iff in Hin. destruct Hin as (u & Htarget & Hu).
    destruct (update_inv lines latest table u Hu)
      as (r & i & name & _ & _ & _ & Hc & Hfrom & Hlt & Hq & _).
    fold constants in Hc. unfold target_line in Htarget. rewrite Hc in Htarget.
    injection Htarget as ->.
    destruct (patched_target lines latest table table_keys patched patched_eq
                u j name Hu Hc) as (pre & post & Hl & Hp & Hne & Hm & Hm').
    rewrite Hline in Hl. injection Hl as ->.
    eexists. split; [exact Hp |]. right.
    exists (const_name u), pre, name, (from_tag u), (to_tag u), post.
    repeat split; try assumption; [| exists r; exact Hlt].
    apply passes_filter_plain, Hq.
  - exists line. split; [| left; reflexivity].
    rewrite Hframe; [exact Hline |]. intros u Hu Htarget. apply Hout.
    rewrite <- Htarget. apply list_elem_of_In, in_map, Hu.
Qed.

Lemma patched_lines : Forall2 (patched_line latest) lines patched.
Proof.
  destruct (patched_facts lines latest table table_keys patched patched_eq)
    as (Hlen & _).
  apply Forall2_same_length_lookup_2; [symmetry; exact Hlen |].
  intros j line line' Hl Hp. destruct (patched_line_at j line Hl) as (l2 & Hp2 & Hrel).
  rewrite Hp in Hp2. injection Hp2 as <-. exact Hrel.
Qed.

Lemma patched_line_assigns (line line' const : str) :
  patched_line latest line line' -> assigns line' const -> assigns line const.
Proof.
  intros [<- | (c & pre & name & tag & new_tag & post & -> & -> & _ & _ & _ & Hm & Hm' & _)] Ha;
    [exact Ha |].
  destruct Ha as [v Hv]. destruct (matches_functional _ _ _ _ _ Hm' Hv) as [<- _].
  eexists. exact Hm.
Qed.

(** After the patch every tracked identifier is up to date. *)
Lemma replan_entry (c r : str) :
  In (c, r) table ->
  plan_entry (parse_image_constants patched) latest (c, r) = Ret None.
Proof.
  intros Hin. rewrite Forall_forall in table_returns.
  destruct (table_returns (c, r) (proj2 (list_elem_of_In _ _) Hin)) as [step Hstep].
  destruct (plan_entry_inv _ _ _ _ _ Hstep) as (i & v & cur & lt & Hc & Hex & Hlt & Hq & _).
  fold constants in Hc.
  destruct (extract_image_tag_ret _ _ Hex) as (name & Hv & Hcur).
  destruct (passes_filter_plain lt Hq) as [Hltc _].
  destruct (patched_facts lines latest table table_keys patched patched_eq)
    as (Hlen & Hframe & _).
  pose proof Hc as Hentry. apply parse_entry_iff in Hentry.
  destruct Hentry as (line & Hline & Hm & Hlater).
  assert (Hlater' : forall j l', (i < j)%nat -> patched !! j = Some l' -> ~ assigns l' c).
  { intros j l' Hlt' Hl' Ha.
    assert (Hj : (j < length lines)%nat) by (rewrite <- Hlen; apply (lookup_lt_Some _ _ _ Hl')).
    destruct (lookup_lt_is_Some_2 lines j Hj) as [l Hl].
    destruct (patched_line_at j l Hl) as (l2 & Hl2 & Hrel).
    rewrite Hl' in Hl2. injection Hl2 as <-.
    apply (Hlater j l Hlt' Hl). apply (patched_line_assigns _ _ _ Hrel Ha). }
  destruct (update_of_entry lines latest table table_keys c r i v cur lt Hin Hc Hex Hlt Hq)
    as [Hdiff Hsame].
  assert (Hnew : exists v', parse_image_constants patched !! c = Some (i, v')
                            /\ extract_image_tag v' = Ret lt).
  { destruct (decide (cur = lt)) as [Heq | Hne].
    - exists v. split; [| rewrite Hex, Heq; reflexivity].
      apply parse_entry_iff. exists line. split; [| split; [exact Hm | exact Hlater']].
      rewrite Hframe; [exact Hline |]. intros u Hu Htarget.
      apply (Hsame Heq u Hu). unfold target_line in Htarget.
      destruct (parse_image_constants lines !! const_name u) as [[i' v'] |] eqn:Hcu;
        [| discriminate].
      injection Htarget as ->. apply (parse_same_line lines _ _ _ _ _ Hcu Hc).
    - pose proof (Hdiff Hne) as Hu. subst v.
      destruct (patched_target lines latest table table_keys patched patched_eq
                  _ i name Hu Hc) as (pre & post & _ & Hp & _ & _ & Hm').
      cbn [const_name from_tag to_tag] in *.
      exists (name ++ ch_colon :: lt). split; [| apply extract_image_tag_app; exact Hltc].
      apply parse_entry_iff. eexists. split; [exact Hp |]. split; [exact Hm' | exact Hlater']. }
  destruct Hnew as (v' & Hc' & Hex').
  unfold plan_entry. rewrite Hc', Hex'. cbn [obind]. rewrite Hlt. cbn [obind].
  unfold passes_filter in Hq. destruct (parse_semver lt); [| congruence].
  destruct (decide (lt = lt)); [reflexivity | congruence].
Qed.

Lemma replan_empty : plan_pure (parse_image_constants patched) latest table [] = Ret [].
Proof.
  assert (Hall : Forall (returns (parse_image_constants patched) latest) table).
  { apply Forall_forall. intros [c r] Hin. exists None.
    apply replan_entry, list_elem_of_In, Hin. }
  rewrite (plan_pure_returns _ _ _ _ Hall). cbn [app]. f_equal.
  assert (H : forall l, (forall e, In e l -> In e table) ->
            flat_map (step_records (parse_image_constants patched) latest) l = []).
  { induction l as [| [c r] l IH]; intros Hsub; [reflexivity |].
    cbn [flat_map]. unfold step_records at 1.
    rewrite (replan_entry c r (Hsub _ (or_introl eq_refl))). cbn [option_list app].
    apply IH. intros e He. apply Hsub. right. exact He. }
  apply H. auto.
Qed.

End Replanned.

(** ** Splitting into lines and joining again *)

Lemma splitlines_from_unfold (cur text : str) :
  splitlines_from cur text
  = match text with
    | [] => match cur with [] => [] | _ :: _ => [cur] end
    | c :: r =>
      if is_linebreak c then
        match r with
        | d :: r' =>
          if Ascii.eqb c ch_cr && Ascii.eqb d ch_lf
          then (cur ++ [c; d]) :: splitlines_from [] r'
          else (cur ++ [c]) :: splitlines_from [] r
        | [] => (cur ++ [c]) :: splitlines_from [] r
        end
      else splitlines_from (cur ++ [c]) r
    end.
Proof. destruct text; reflexivity. Qed.

Lemma concat_splitlines_from (n : nat) : forall text cur,
  (length text <= n)%nat -> concat (splitlines_from cur text) = cur ++ text.
Proof.
  induction n as [| n IH]; intros text cur Hlen.
  - destruct text; [| simpl in Hlen; lia]. destruct cur; simpl; rewrite ?app_nil_r; reflexivity.
  - destruct text as [| c r].
    + destruct cur; simpl; rewrite ?app_nil_r; reflexivity.
    + rewrite splitlines_from_unfold. simpl in Hlen.
      destruct (is_linebreak c).
      * destruct r as [| d r'].
        -- cbn [concat]. rewrite splitlines_from_unfold. cbn [concat].
           rewrite app_nil_r. reflexivity.
        -- destruct (Ascii.eqb c ch_cr && Ascii.eqb d ch_lf); cbn [concat].
           ++ rewrite IH by (simpl in Hlen; lia). app_norm. reflexivity.
           ++ rewrite IH by lia. app_norm. reflexivity.
      * rewrite IH by lia. app_norm. reflexivity.
Qed.

Lemma concat_splitlines (text : str) : concat (splitlines text) = text.
Proof. apply (concat_splitlines_from (length text)). lia. Qed.

Lemma nolb_app (a b : str) : nolb (a ++ b) = nolb a && nolb b.
Proof. apply forallb_app. Qed.

Lemma line_ok_skip (a : str) : forall b, nolb a = true -> line_ok (a ++ b) = line_ok b.
Proof.
  induction a as [| c a IH]; intros b H; [reflexivity |].
  cbn [nolb forallb] in H. apply andb_prop in H. destruct H as [Hc Ha].
  apply negb_true_iff in Hc. cbn [app line_ok]. rewrite Hc. apply IH. exact Ha.
Qed.

Lemma line_ok_nonempty (l : str) : line_ok l = true -> l <> [].
Proof. destruct l; [discriminate | discriminate]. Qed.

Lemma last_cons_nonempty (c : ascii) (r : str) : r <> [] -> last (c :: r) = last r.
Proof. destruct r; [congruence | reflexivity]. Qed.

Lemma splitlines_line (l : str) : forall cur text,
  line_ok l = true ->
  ~ (last l = Some ch_cr /\ head text = Some ch_lf) ->
  splitlines_from cur (l ++ text) = (cur ++ l) :: splitlines_from [] text.
Proof.
  induction l as [| c r IH]; intros cur text Hok Hadj; [discriminate |].
  cbn [line_ok] in Hok. cbn [app]. rewrite splitlines_from_unfold.
  destruct (is_linebreak c) eqn:Hc.
  - destruct r as [| d [| d' r']]; [| | discriminate].
    + cbn [app]. destruct text as [| t text']; [reflexivity |].
      destruct (Ascii.eqb_spec c ch_cr) as [-> | Hne]; [| reflexivity].
      destruct (Ascii.eqb_spec t ch_lf) as [-> | Hne']; [| reflexivity].
      exfalso. apply Hadj. split; reflexivity.
    + apply andb_prop in Hok. destruct Hok as [H1 H2].
      cbn [app]. rewrite H1, H2. reflexivity.
  - rewrite (IH (cur ++ [c]) text Hok).
    + rewrite <- app_assoc. reflexivity.
    + rewrite <- (last_cons_nonempty c r (line_ok_nonempty r Hok)). exact Hadj.
Qed.

Lemma splitlines_open (l : str) : forall cur,
  nolb l = true -> cur ++ l <> [] -> splitlines_from cur l = [cur ++ l].
Proof.
  induction l as [| c r IH]; intros cur Hl Hne.
  - rewrite app_nil_r in *. destruct cur; [congruence | reflexivity].
  - cbn [nolb forallb] in Hl. apply andb_prop in Hl. destruct Hl as [Hc Hr].
    apply negb_true_iff in Hc. rewrite splitlines_from_unfold, Hc.
    rewrite (IH (cur ++ [c]) Hr).
    + rewrite <- app_assoc. reflexivity.
    + destruct cur; discriminate.
Qed.

(** A well split list of lines is what [splitlines] returns for the
    text it concatenates to. *)
Lemma splitlines_concat (ls : list str) : well_split ls -> splitlines (concat ls) = ls.
Proof.
  unfold splitlines. induction ls as [| l rest IH]; intros H; [reflexivity |].
  cbn [well_split] in H. destruct H as [[-> Hopen] | (Hok & Hadj & Hrest)].
  - cbn [concat]. rewrite app_nil_r. destruct l as [| c r]; [discriminate |].
    cbn [open_ok] in Hopen. apply (splitlines_open (c :: r) []); [exact Hopen | discriminate].
  - cbn [concat]. rewrite (splitlines_line l [] (concat rest) Hok Hadj).
    cbn [app]. f_equal. apply IH. exact Hrest.
Qed.

Lemma last_snoc_str (a : str) (c : ascii) : last (a ++ [c]) = Some c.
Proof. induction a as [| x a IH]; [reflexivity |]. cbn [app]. rewrite last_cons_nonempty; [exact IH | destruct a; discriminate]. Qed.

Lemma last_app_cons (a : str) (c : ascii) (b : str) : last (a ++ c :: b) = last (c :: b).
Proof.
  induction a as [| x a IH]; [reflexivity |].
  cbn [app]. rewrite last_cons_nonempty; [exact IH | destruct a; discriminate].
Qed.

Lemma well_split_splitlines_from (n : nat) : forall text cur,
  (length text <= n)%nat -> nolb cur = true -> well_split (splitlines_from cur text).
Proof.
  induction n as [| n IH]; intros text cur Hlen Hcur.
  - destruct text; [| simpl in Hlen; lia].
    destruct cur; [exact I | left; split; [reflexivity | exact Hcur]].
  - destruct text as [| c r].
    + destruct cur; [exact I | left; split; [reflexivity | exact Hcur]].
    + rewrite splitlines_from_unfold. simpl in Hlen.
      destruct (is_linebreak c) eqn:Hc.
      * assert (Hone : line_ok (cur ++ [c]) = true).
        { rewrite (line_ok_skip cur _ Hcur). cbn [line_ok]. rewrite Hc. reflexivity. }
        destruct r as [| d r'].
        -- cbn [well_split]. right. split; [exact Hone |]. split; [| exact I].
           intros [_ H]. discriminate H.
        -- destruct (Ascii.eqb c ch_cr && Ascii.eqb d ch_lf) eqn:Hcrlf.
           ++ apply andb_prop in Hcrlf. destruct Hcrlf as [H1 H2].
              apply Ascii.eqb_eq in H1, H2. subst c d.
              cbn [well_split]. right. split; [| split].
              ** rewrite (line_ok_skip cur _ Hcur). reflexivity.
              ** intros [H _]. change [ch_cr; ch_lf] with ([ch_cr] ++ [ch_lf]) in H.
                 rewrite app_assoc, last_snoc_str in H. discriminate H.
              ** apply IH; [simpl in Hlen; lia | reflexivity].
           ++ cbn [well_split]. right. split; [exact Hone |]. split.
              ** intros [H1 H2]. rewrite last_snoc_str in H1. injection H1 as ->.
                 rewrite (concat_splitlines_from (length (d :: r'))) in H2 by lia.
                 cbn [app head] in H2. injection H2 as ->. discriminate Hcrlf.
              ** apply IH; [lia | reflexivity].
      * apply IH; [lia |]. rewrite nolb_app, Hcur. cbn [nolb forallb]. rewrite Hc. reflexivity.
Qed.

Lemma well_split_splitlines (text : str) : well_split (splitlines text).
Proof. apply (well_split_splitlines_from (length text)); [lia | reflexivity]. Qed.

Lemma line_ok_prefix_nolb (a : str) (q : ascii) (post : str) :
  is_linebreak q = false -> line_ok (a ++ q :: post) = true -> nolb a = true.
Proof.
  intros Hq. induction a as [| c a IH]; [reflexivity |].
  cbn [app line_ok nolb forallb]. destruct (is_linebreak c) eqn:Hc.
  - destruct a as [| x a']; cbn [app].
    + destruct post as [| p post']; [| discriminate].
      intros H. apply andb_prop in H. destruct H as [_ H]. apply Ascii.eqb_eq in H.
      subst q. discriminate Hq.
    + destruct (a' ++ q :: post) eqn:E; [destruct a'; discriminate E | discriminate].
  - intros H. cbn [negb andb]. apply IH. exact H.
Qed.

Lemma digit_nolb (c : ascii) : is_digit c = true -> negb (is_linebreak c) = true.
Proof. by_cases_on_char c. Qed.

Lemma format_version_nolb (v : version) : nolb (format_version v) = true.
Proof.
  destruct (format_version_form v) as (a & b & c & [_ Ha] & [_ Hb] & [_ Hc] & -> & _).
  unfold nolb. cbn [forallb]. rewrite forallb_app. cbn [forallb]. rewrite forallb_app.
  cbn [forallb].
  rewrite (forallb_impl _ _ _ digit_nolb Ha), (forallb_impl _ _ _ digit_nolb Hb),
    (forallb_impl _ _ _ digit_nolb Hc). reflexivity.
Qed.

(** ** Patched buffers stay well split *)

Lemma open_ok_app_cons (a : str) (c : ascii) (b : str) :
  open_ok (a ++ c :: b) = nolb a && nolb (c :: b).
Proof. destruct a as [| x a']; [reflexivity |]. cbn [app open_ok]. apply (nolb_app (x :: a')). Qed.

Lemma patched_line_frame (latest : str -> outcome str) (l l' : str) :
  (forall r t, latest r = Ret t -> nolb t = true) ->
  patched_line latest l l' ->
  (line_ok l = true -> line_ok l' = true)
  /\ (open_ok l = true -> open_ok l' = true)
  /\ last l' = last l /\ head l' = head l.
Proof.
  intros Hlatest
    [<- | (c & pre & name & tag & new_tag & post & -> & -> & Hpre & _ & _ & _ & _ & r & Hr)];
    [auto |].
  pose proof (Hlatest r new_tag Hr) as Hnew.
  assert (Hq : is_linebreak ch_quote = false) by reflexivity.
  assert (Hparts : nolb (pre ++ ch_quote :: name ++ ch_colon :: tag) = true ->
                   nolb (pre ++ ch_quote :: name ++ ch_colon :: new_tag) = true).
  { rewrite !nolb_app. cbn [nolb forallb]. rewrite !forallb_app. cbn [forallb].
    intros H. apply andb_prop in H. destruct H as [H1 H]. apply andb_prop in H.
    destruct H as [_ H]. apply andb_prop in H. destruct H as [H2 _].
    rewrite H1, H2. exact Hnew. }
  assert (E : forall t, pre ++ ch_quote :: (name ++ ch_colon :: t) ++ ch_quote :: post
                        = (pre ++ ch_quote :: name ++ ch_colon :: t) ++ ch_quote :: post).
  { intros t. app_norm. reflexivity. }
  rewrite !E. split; [| split; [| split]].
  - intros H. pose proof (line_ok_prefix_nolb _ _ _ Hq H) as Hn.
    rewrite (line_ok_skip _ _ Hn) in H. rewrite (line_ok_skip _ _ (Hparts Hn)). exact H.
  - rewrite !open_ok_app_cons. intros H. apply andb_prop in H. destruct H as [H1 H2].
    rewrite H2, (Hparts H1). reflexivity.
  - rewrite !last_app_cons. reflexivity.
  - destruct pre; [congruence | reflexivity].
Qed.

Lemma well_split_head (l : str) (rest : list str) :
  well_split (l :: rest) -> l <> [] /\ head (concat (l :: rest)) = head l.
Proof.
  cbn [well_split]. intros [[_ H] | [H _]].
  - destruct l; [discriminate |]. split; [discriminate | reflexivity].
  - destruct l; [discriminate |]. split; [discriminate | reflexivity].
Qed.

Lemma well_split_patched (latest : str -> outcome str) (ls ls' : list str) :
  (forall r t, latest r = Ret t -> nolb t = true) ->
  Forall2 (patched_line latest) ls ls' -> well_split ls -> well_split ls'.
Proof.
  intros Hlatest. induction 1 as [| l l' rest rest' Hl Hrest IH]; intros Hws; [exact I |].
  destruct (patched_line_frame latest l l' Hlatest Hl) as (Hok & Hopen & Hlast & Hhead).
  cbn [well_split] in *. destruct Hws as [[-> Ho] | (Hline & Hadj & Hws)].
  - left. inversion Hrest; subst. auto.
  - right. split; [apply Hok, Hline |]. split; [| apply IH, Hws].
    intros [H1 H2]. apply Hadj. split; [rewrite <- Hlast; exact H1 |].
    destruct Hrest as [| l2 l2' rest2 rest2' Hl2 Hrest2]; [exact H2 |].
    destruct (well_split_head _ _ Hws) as [Hne ->].
    destruct (well_split_head _ _ (IH Hws)) as [Hne' E]. rewrite E in H2.
    destruct (patched_line_frame latest l2 l2' Hlatest Hl2) as (_ & _ & _ & Hh).
    rewrite <- Hh. exact H2.
Qed.

(** ** Runs of [main] *)

Lemma main_run_success registry timestamp images_file report_file timeout fuel (w : world)
    (text : str) (raw : list ImageUpdate) (patched : list str) :
  fs w !! images_file = Some text ->
  plan_pure (parse_image_constants (splitlines text)) (latest_of registry timeout fuel)
    TARGET_CONST_TO_REPOSITORY [] = Ret raw ->
  apply_updates (splitlines text) (parse_image_constants (splitlines text))
    (sorted_by_name raw) = Ret patched ->
  exists log,
    main registry timestamp images_file report_file timeout fuel w
    = (Ret 0%Z, after_run images_file report_file timestamp (sorted_by_name raw) patched log w).
Proof.
  intros Hfile Hplan Hpatch. unfold main. rewrite Hfile. unfold main_body.
  destruct (compute_updates_over_run registry TARGET_CONST_TO_REPOSITORY
              (parse_image_constants (splitlines text)) timeout fuel) as (log & Hlog).
  exists log. unfold bind at 1. unfold compute_updates. rewrite Hlog, Hplan. cbn [obind].
  unfold bind at 1. unfold lift at 1. rewrite Hpatch.
  unfold after_run. destruct (sorted_by_name raw); reflexivity.
Qed.

Lemma main_success_inv registry timestamp images_file report_file timeout fuel (w w1 : world) :
  main registry timestamp images_file report_file timeout fuel w = (Ret 0%Z, w1) ->
  exists text raw,
    fs w !! images_file = Some text
    /\ plan_pure (parse_image_constants (splitlines text)) (latest_of registry timeout fuel)
         TARGET_CONST_TO_REPOSITORY [] = Ret raw.
Proof.
  intros Hmain. destruct (fs w !! images_file) as [text |] eqn:Hfile.
  2:{ unfold main in Hmain. rewrite Hfile in Hmain. discriminate Hmain. }
  exists text.
  destruct (plan_pure (parse_image_constants (splitlines text)) (latest_of registry timeout fuel)
              TARGET_CONST_TO_REPOSITORY []) as [raw | e |] eqn:Hplan.
  - exists raw. auto.
  - exfalso.
    destruct (main_plan_fails registry timestamp images_file report_file timeout fuel w text Hfile)
      as (result & log & Hrun & Hres); [rewrite Hplan; discriminate |].
    rewrite Hrun in Hmain. injection Hmain as -> _. congruence.
  - exfalso.
    destruct (main_plan_fails registry timestamp images_file report_file timeout fuel w text Hfile)
      as (result & log & Hrun & Hres); [rewrite Hplan; discriminate |].
    rewrite Hrun in Hmain. injection Hmain as -> _. congruence.
Qed.

Lemma target_keys_distinct : NoDup (map fst TARGET_CONST_TO_REPOSITORY).
Proof. apply (bool_decide_unpack _). vm_compute. exact I. Qed.

(** ** C3 *)

(** C3.  After a successful run of [main], with the report written to a
    file other than the constants file: the constants file holds the
    patched buffer; splitting it into lines gives that buffer back;
    planning against it, with the same registry, yields no update record;
    applying no record returns the buffer itself; and a second run of
    [main] succeeds, writes the report only, and leaves the constants
    file as it is. *)
Theorem second_run_changes_nothing
    (registry : json -> Z -> response) (timestamp timestamp' images_file report_file : str)
    (timeout : Z) (fuel : nat) (w w1 : world) :
  images_file <> report_file ->
  main registry timestamp images_file report_file timeout fuel w = (Ret 0%Z, w1) ->
  (exists text updates patched,
     fs w !! images_file = Some text
     /\ fst (compute_updates registry (parse_image_constants (splitlines text)) timeout fuel w)
        = Ret updates
     /\ apply_updates (splitlines text) (parse_image_constants (splitlines text)) updates
        = Ret patched
     /\ fs w1 !! images_file = Some (concat patched)
     /\ splitlines (concat patched) = patched
     /\ (forall w', fst (compute_updates registry (parse_image_constants patched)
                           timeout fuel w') = Ret [])
     /\ apply_updates patched (parse_image_constants patched) [] = Ret patched)
  /\ (let run := main registry timestamp' images_file report_file timeout fuel w1 in
      fst run = Ret 0%Z
      /\ fs (snd run) !! images_file = fs w1 !! images_file
      /\ writes (snd run) = writes w1 ++ [(report_file, report_text timestamp' [])]).
Proof.
  intros Hpaths Hmain.
  destruct (main_success_inv _ _ _ _ _ _ _ _ Hmain) as (text & raw & Hfile & Hplan).
  set (lines := splitlines text) in *.
  set (latest := latest_of registry timeout fuel) in *.
  pose proof (plan_pure_inv _ _ _ _ _ Hplan) as Hall.
  assert (Hraw : flat_map (step_records (parse_image_constants lines) latest)
                   TARGET_CONST_TO_REPOSITORY = raw).
  { pose proof (plan_pure_returns _ _ _ [] Hall) as H. rewrite Hplan, app_nil_l in H.
    congruence. }
  set (updates := sorted_by_name raw).
  assert (Hlatest : forall r t, latest r = Ret t -> nolb t = true).
  { intros r t Ht. apply latest_of_format in Ht. destruct Ht as [m ->].
    apply format_version_nolb. }
  destruct (apply_updates_loop_frame (parse_image_constants lines) updates lines)
    as (patched & Hpatch & _).
  { unfold updates. rewrite <- Hraw. apply updates_ok. }
  { unfold updates. rewrite <- Hraw. apply updates_targets_distinct, target_keys_distinct. }
  fold (apply_updates lines (parse_image_constants lines) updates) in Hpatch.
  destruct (main_run_success registry timestamp images_file report_file timeout fuel w text
              raw patched Hfile Hplan Hpatch) as (log & Hrun).
  fold updates in Hrun. rewrite Hrun in Hmain. injection Hmain as <-.
  assert (Hpatch' : apply_updates lines (parse_image_constants lines)
            (sorted_by_name (flat_map (step_records (parse_image_constants lines) latest)
                               TARGET_CONST_TO_REPOSITORY)) = Ret patched)
    by (rewrite Hraw; exact Hpatch).
  assert (Hsplit : splitlines (concat patched) = patched).
  { apply splitlines_concat. apply (well_split_patched latest lines patched Hlatest).
    - apply (patched_lines lines latest TARGET_CONST_TO_REPOSITORY target_keys_distinct
               patched Hpatch').
    - apply well_split_splitlines. }
  assert (Hfile1 : fs (after_run images_file report_file timestamp updates patched log w)
                   !! images_file = Some (concat patched)).
  { unfold after_run. cbn [fs]. rewrite lookup_insert_ne by congruence.
    destruct updates as [| u us] eqn:Hups.
    - cbn [fs add_requests]. rewrite Hfile. f_equal.
      injection Hpatch as <-. symmetry. apply concat_splitlines.
    - cbn [fs]. apply lookup_insert_eq. }
  assert (Hreplan : plan_pure (parse_image_constants patched) latest
                      TARGET_CONST_TO_REPOSITORY [] = Ret []).
  { apply (replan_empty lines latest TARGET_CONST_TO_REPOSITORY target_keys_distinct Hall
             patched Hpatch'). }
  split.
  - exists text, updates, patched. split; [exact Hfile |]. split; [| split; [exact Hpatch |
      split; [exact Hfile1 | split; [exact Hsplit | split; [| reflexivity]]]]].
    + destruct (compute_updates_over_run registry TARGET_CONST_TO_REPOSITORY
                  (parse_image_constants lines) timeout fuel) as (log0 & Hlog0).
      unfold compute_updates. rewrite Hlog0. cbn [fst]. fold latest. rewrite Hplan. reflexivity.
    + intros w'.
      destruct (compute_updates_over_run registry TARGET_CONST_TO_REPOSITORY
                  (parse_image_constants patched) timeout fuel) as (log0 & Hlog0).
      unfold compute_updates. rewrite Hlog0. cbn [fst]. fold latest. rewrite Hreplan. reflexivity.
  - destruct (main_run_success registry timestamp' images_file report_file timeout fuel
                (after_run images_file report_file timestamp updates patched log w)
                (concat patched) [] patched Hfile1) as (log2 & Hrun2).
    { rewrite Hsplit. exact Hreplan. }
    { rewrite Hsplit. reflexivity. }
    intros run. unfold run. rewrite Hrun2. cbn [fst snd]. split; [reflexivity |].
    unfold after_run at 1. cbn [sorted_by_name foldr fs writes add_requests]. split.
    + apply lookup_insert_ne. congruence.
    + reflexivity.
Qed.

(** ** Worked instances *)

Lemma sample_page_of (names : list string) (next : json) :
  page_of (sample_page names next) (map lit names) next.
Proof.
  exists [ (lit "results", JArr (map (fun n => JObj [(lit "name", JStr (lit n))]) names));
           (lit "next", next) ],
    (map (fun n => JObj [(lit "name", JStr (lit n))]) names).
  split; [reflexivity |]. split; [reflexivity |]. split; [| split; [| reflexivity]].
  - induction names as [| n names IH]; constructor; [eexists; reflexivity | exact IH].
  - induction names as [| n names IH]; [reflexivity |].
    cbn [map]. rewrite omap_cons. cbn [string_name]. rewrite <- IH. reflexivity.
Defined.

(** Scenario A of the specification: the tags v1.0.0, v1.2.0, v1.1.5,
    latest and v2.0.0-rc1. *)
Lemma fetch_latest_semver_tag_sample :
  let url := JStr (first_page_url (lit "horusec-go")) in
  fetch_tags one_page_registry (lit "horusec-go") 15 3 empty_world
  = (Ret (map lit sample_tags), add_requests [url] empty_world)
  /\ exists m,
       fetch_latest_semver_tag one_page_registry (lit "horusec-go") 15 3 empty_world
       = (Ret (format_version m), add_requests [url] empty_world)
       /\ version_le (1, 2, 0) m.
Proof.
  cbv zeta.
  assert (Hfetch : fetch_tags one_page_registry (lit "horusec-go") 15 3 empty_world
                   = (Ret (map lit sample_tags),
                      add_requests [JStr (first_page_url (lit "horusec-go"))] empty_world))
    by (vm_compute; reflexivity).
  split; [exact Hfetch |].
  destruct (fetch_latest_semver_tag_selects_maximum one_page_registry (lit "horusec-go")
              15 3 empty_world _ _ Hfetch) as [_ Hsome].
  destruct Hsome as (m & _ & Hmax & Hres & _).
  - exists (lit "v1.0.0"). split; [left; reflexivity | vm_compute; discriminate].
  - exists m. split; [exact Hres |].
    apply (Hmax (lit "v1.2.0")); [right; left; reflexivity | reflexivity].
Defined.

Lemma two_page_walk (repository : str) :
  walk two_page_registry 15 (JStr (first_page_url repository))
    [ (JStr (first_page_url repository), map lit ["v1.0.0"; "v1.2.0"]%string);
      (JStr second_page_url, map lit ["v1.1.5"; "latest"; "v2.0.0-rc1"]%string) ]
    JNull.
Proof.
  assert (Hne : first_page_url repository <> second_page_url).
  { unfold first_page_url. intros H. vm_compute in H. discriminate H. }
  eapply walk_page; [reflexivity | | apply sample_page_of |].
  - cbn [two_page_registry]. destruct (decide (first_page_url repository = second_page_url));
      [contradiction | reflexivity].
  - eapply walk_page; [reflexivity | | apply sample_page_of | apply walk_done].
    cbn [two_page_registry]. destruct (decide (second_page_url = second_page_url));
      [reflexivity | contradiction].
Defined.

Lemma fetch_tags_two_pages :
  let first := JStr (first_page_url (lit "horusec-go")) in
  (2 <= 5)%nat
  /\ fetch_tags two_page_registry (lit "horusec-go") 15 5 empty_world
     = (Ret (map lit sample_tags), add_requests [first; JStr second_page_url] empty_world).
Proof.
  cbv zeta. split; [lia |].
  apply (fetch_tags_walks_finite_chain two_page_registry (lit "horusec-go") 15 5 empty_world
           _ JNull (two_page_walk (lit "horusec-go"))); [reflexivity | simpl; lia].
Defined.

Lemma failing_walk (repository : str) :
  walk failing_registry 15 (JStr (first_page_url repository))
    [ (JStr (first_page_url repository), map lit ["v1.0.0"; "v1.2.0"]%string) ]
    (JStr second_page_url).
Proof.
  assert (Hne : first_page_url repository <> second_page_url).
  { unfold first_page_url. intros H. vm_compute in H. discriminate H. }
  eapply walk_page; [reflexivity | | apply sample_page_of | apply walk_done].
  cbn [failing_registry]. destruct (decide (first_page_url repository = second_page_url));
    [contradiction | reflexivity].
Defined.

Lemma fetch_tags_failing_second_page :
  let first := JStr (first_page_url (lit "horusec-go")) in
  truthy (JStr second_page_url) = true
  /\ fetch_tags failing_registry (lit "horusec-go") 15 5 empty_world
     = (Raise (Exn HTTPError (lit "HTTP Error 502: Bad Gateway")),
        add_requests [first; JStr second_page_url] empty_world).
Proof.
  cbv zeta. split; [reflexivity |].
  destruct (fetch_tags_raises_without_retry failing_registry (lit "horusec-go") 15 5
              empty_world _ _ (failing_walk (lit "horusec-go"))) as [Hfail _].
  - reflexivity.
  - simpl. lia.
  - apply Hfail. reflexivity.
Defined.

Lemma pair_of_fst {A B} (p : A * B) (a : A) : fst p = a -> p = (a, snd p).
Proof. destruct p. simpl. intros ->. reflexivity. Defined.

Lemma apply_updates_sample :
  (forall u, In u [sample_update] ->
     exists i v, sample_constants !! const_name u = Some (i, v)
       /\ (i < length sample_lines)%nat /\ has_colon v = true)
  /\ NoDup (map (target_line sample_constants) [sample_update])
  /\ exists out,
       apply_updates sample_lines sample_constants [sample_update] = Ret out
       /\ length out = length sample_lines
       /\ out !! 0%nat = sample_lines !! 0%nat.
Proof.
  assert (H1 : forall u, In u [sample_update] ->
            exists i v, sample_constants !! const_name u = Some (i, v)
              /\ (i < length sample_lines)%nat /\ has_colon v = true).
  { intros u [<- | []]. exists 7%nat, (lit "horuszup/horusec-go:v1.0.0").
    split; [vm_compute; reflexivity |]. split; [vm_compute; lia | reflexivity]. }
  assert (H2 : NoDup (map (target_line sample_constants) [sample_update])).
  { apply NoDup_singleton. }
  split; [exact H1 |]. split; [exact H2 |].
  destruct (apply_updates_rewrites_only_the_tag sample_lines sample_constants [sample_update]
              H1 H2) as (out & Hrun & Hlen & Hframe & _).
  exists out. split; [exact Hrun |]. split; [exact Hlen |].
  apply Hframe. intros u [<- | []]. vm_compute. discriminate.
Defined.


Lemma second_run_sample :
  lit "images.go" <> lit "report.md"
  /\ sample_run = (Ret 0%Z, snd sample_run)
  /\ (let run := main one_page_registry (lit "2026-01-02 00:00:00Z") (lit "images.go")
                   (lit "report.md") 15 3 (snd sample_run) in
      fst run = Ret 0%Z
      /\ fs (snd run) !! lit "images.go" = fs (snd sample_run) !! lit "images.go"
      /\ writes (snd run)
         = writes (snd sample_run)
           ++ [(lit "report.md", report_text (lit "2026-01-02 00:00:00Z") [])]).
Proof.
  assert (Hpaths : lit "images.go" <> lit "report.md") by (vm_compute; discriminate).
  assert (Hrun : sample_run = (Ret 0%Z, snd sample_run)).
  { apply pair_of_fst. vm_compute. reflexivity. }
  split; [exact Hpaths |]. split; [exact Hrun |].
  apply (second_run_changes_nothing one_page_registry (lit "2026-01-01 00:00:00Z")
           (lit "2026-01-02 00:00:00Z") (lit "images.go") (lit "report.md") 15 3
           (sample_world sample_text) (snd sample_run) Hpaths Hrun).
Defined.

(** Scenario D of the specification: the value of Go has no colon while
    other identifiers have pending updates. *)
Lemma main_no_colon_sample :
  let w := sample_world sample_text_no_colon in
  let run := main one_page_registry (lit "2026-01-01 00:00:00Z") (lit "images.go")
               (lit "report.md") 15 3 w in
  fs w !! lit "images.go" = Some sample_text_no_colon
  /\ In (lit "Go", lit "horusec-go") TARGET_CONST_TO_REPOSITORY
  /\ fs (snd run) = fs w /\ writes (snd run) = writes w /\ fst run <> Ret 0%Z.
Proof.
  cbv zeta.
  assert (Hfile : fs (sample_world sample_text_no_colon) !! lit "images.go"
                  = Some sample_text_no_colon) by apply lookup_singleton_eq.
  assert (Hin : In (lit "Go", lit "horusec-go") TARGET_CONST_TO_REPOSITORY)
    by (do 4 right; left; reflexivity).
  split; [exact Hfile |]. split; [exact Hin |].
  apply (main_writes_nothing_on_error one_page_registry (lit "2026-01-01 00:00:00Z")
           (lit "images.go") (lit "report.md") 15 3 (sample_world sample_text_no_colon)
           empty_world sample_text_no_colon (lit "Go", lit "horusec-go") Hfile Hin).
  intros step H. vm_compute in H. discriminate H.
Defined.

(** * Further properties of the script *)

(** ** Image references *)

(** X1.  [extract_image_tag] returns [tag] exactly for the values that
    end in a colon followed by [tag], where [tag] itself has no colon;
    a value without a colon makes both [extract_image_tag] and
    [replace_image_tag] raise the invalid-format ValueError, and these
    are the only ways the two functions end. *)
Theorem extract_image_tag_last_colon (value : str) :
  (forall tag,
     extract_image_tag value = Ret tag
     <-> exists name, value = name ++ ch_colon :: tag /\ has_colon tag = false)
  /\ (has_colon value = false
      <-> extract_image_tag value = Raise (invalid_format value))
  /\ (has_colon value = false
      <-> forall new_tag, replace_image_tag value new_tag = Raise (invalid_format value))
  /\ (forall o, extract_image_tag value = o ->
        (exists tag, o = Ret tag) \/ o = Raise (invalid_format value)).
Proof.
  split; [| split; [| split]].
  - intros tag. split; [apply extract_image_tag_ret |].
    intros (name & -> & Htag). apply extract_image_tag_app. exact Htag.
  - split; [apply extract_image_tag_no_colon |].
    unfold extract_image_tag. destruct (has_colon value) eqn:H; [| reflexivity].
    cbn [negb]. destruct (has_colon_rsplit value H) as (name & tag & -> & _). discriminate.
  - split.
    + intros H new_tag. unfold replace_image_tag. rewrite H. reflexivity.
    + intros H. specialize (H []). unfold replace_image_tag in H.
      destruct (has_colon value); [| reflexivity]. cbn [negb] in H.
      destruct (rsplit_colon value) as [[a b] |]; discriminate H.
  - intros o <-. unfold extract_image_tag. destruct (has_colon value) eqn:H; cbn [negb].
    + destruct (has_colon_rsplit value H) as (name & tag & -> & _). left. eexists. reflexivity.
    + right. reflexivity.
Qed.

(** X2.  Reading a tag and writing it back gives the value again;
    writing a tag without a colon and reading it gives that tag, keeps
    the image name, and makes an earlier written tag irrelevant. *)
Theorem image_tag_round_trip (value tag new_tag other_tag : str) :
  has_colon new_tag = false ->
  extract_image_tag value = Ret tag ->
  replace_image_tag value tag = Ret value
  /\ exists name,
       value = name ++ ch_colon :: tag
       /\ replace_image_tag value new_tag = Ret (name ++ ch_colon :: new_tag)
       /\ extract_image_tag (name ++ ch_colon :: new_tag) = Ret new_tag
       /\ replace_image_tag (name ++ ch_colon :: new_tag) other_tag
          = replace_image_tag value other_tag.
Proof.
  intros Hnew Hex. apply extract_image_tag_ret in Hex. destruct Hex as (name & -> & Htag).
  split; [apply replace_image_tag_app; exact Htag |].
  exists name. split; [reflexivity |].
  split; [apply replace_image_tag_app; exact Htag |].
  split; [apply extract_image_tag_app; exact Hnew |].
  rewrite (replace_image_tag_app name new_tag other_tag Hnew),
    (replace_image_tag_app name tag other_tag Htag). reflexivity.
Qed.

Lemma image_tag_round_trip_sample :
  has_colon (lit "v1.2.0") = false
  /\ extract_image_tag (lit "registry:5000/horusec-go:v1.0.0") = Ret (lit "v1.0.0")
  /\ replace_image_tag (lit "registry:5000/horusec-go:v1.0.0") (lit "v1.0.0")
     = Ret (lit "registry:5000/horusec-go:v1.0.0").
Proof.
  split; [reflexivity |]. split; [reflexivity |].
  apply (image_tag_round_trip (lit "registry:5000/horusec-go:v1.0.0") (lit "v1.0.0")
           (lit "v1.2.0") (lit "v9.9.9")); reflexivity.
Defined.

(** ** The assignment pattern *)

Lemma stops_ident_after_space (sp : str) (rest : str) :
  forallb is_space sp = true -> stops is_ident_char (sp ++ ch_eq :: rest).
Proof.
  destruct sp as [| s sp]; [reflexivity |]. cbn [forallb app stops].
  intros H. apply andb_prop in H. destruct H as [H _]. apply space_not_ident. exact H.
Qed.

(** X3.  [CONST_LINE_RE] matches a line, with the groups indent, const
    and value, exactly when the line is: the indent (white space only),
    the identifier (a letter or underscore, then letters, digits and
    underscores), white space, an equals sign, white space, a double
    quote, the non-empty value free of double quotes, a double quote,
    and any text after it. *)
Theorem const_line_match_accepts_exactly (line indent const value : str) :
  const_line_match line = Some (indent, const, value)
  <-> assignment_shape line indent const value.
Proof.
  split.
  - unfold const_line_match, const_line_head.
    destruct (span is_space line) as [ind r0] eqn:H0.
    destruct r0 as [| c0 r1]; [discriminate |].
    destruct (is_ident_start c0) eqn:Hc0; [| discriminate].
    destruct (span is_ident_char r1) as [cs r2] eqn:H1.
    destruct (span is_space r2) as [sp1 r3] eqn:H2.
    destruct r3 as [| e r4]; [discriminate |].
    destruct (Ascii.eqb_spec e ch_eq) as [-> | _]; [| discriminate].
    destruct (span is_space r4) as [sp2 r5] eqn:H3.
    destruct r5 as [| q r6]; [discriminate |].
    destruct (Ascii.eqb_spec q ch_quote) as [-> | _]; [| discriminate].
    destruct (span (fun x => negb (is_quote x)) r6) as [v r7] eqn:H4.
    destruct v as [| v0 v']; [discriminate |].
    destruct r7 as [| q' post]; [discriminate |].
    intros [= <- <- <-].
    apply span_inv in H0, H1, H2, H3, H4.
    destruct H0 as (-> & Hind & _), H1 as (-> & Hcs & _), H2 as (-> & Hsp1 & _),
      H3 as (-> & Hsp2 & _), H4 as (-> & Hv & Hq).
    simpl in Hq. apply negb_false_iff, is_quote_eq in Hq. subst q'.
    exists c0, cs, sp1, sp2, post.
    repeat (split; [first [reflexivity | assumption | discriminate] |]).
    app_norm. reflexivity.
  - intros (c0 & cs & sp1 & sp2 & post & -> & Hc0 & Hcs & Hind & Hsp1 & Hsp2 & Hne & Hnq & ->).
    unfold const_line_match, const_line_head.
    cbn [app].
    rewrite (span_intro is_space indent _ Hind) by (apply ident_start_not_space; exact Hc0).
    rewrite Hc0.
    rewrite (span_intro is_ident_char cs _ Hcs) by (apply stops_ident_after_space; exact Hsp1).
    rewrite (span_intro is_space sp1 _ Hsp1) by reflexivity.
    change (Ascii.eqb ch_eq ch_eq) with true. cbv iota.
    rewrite (span_intro is_space sp2 _ Hsp2) by reflexivity.
    change (Ascii.eqb ch_quote ch_quote) with true. cbv iota.
    rewrite (span_intro _ value _ Hnq) by reflexivity.
    destruct value; [congruence | reflexivity].
Qed.

(** ** Versions written and read back *)

Lemma dec_fuel_bound (n : N) : n < 10 ^ N.of_nat (S (N.to_nat (N.log2 n))).
Proof.
  destruct (N.eq_dec n 0) as [-> | Hpos]; [reflexivity |].
  replace (N.of_nat (S (N.to_nat (N.log2 n)))) with (N.succ (N.log2 n)) by lia.
  apply N.lt_le_trans with (2 ^ N.succ (N.log2 n)).
  - apply N.log2_spec. lia.
  - apply N.pow_le_mono_l. lia.
Qed.

Lemma pow10_succ (f : nat) : 10 ^ N.of_nat (S f) = 10 * 10 ^ N.of_nat f.
Proof. replace (N.of_nat (S f)) with (N.succ (N.of_nat f)) by lia. apply N.pow_succ_r'. Qed.

Lemma dec_aux_fuel (f1 : nat) : forall f2 n acc,
  n < 10 ^ N.of_nat (S f1) -> n < 10 ^ N.of_nat (S f2) ->
  dec_aux f1 n acc = dec_aux f2 n acc.
Proof.
  induction f1 as [| f1 IH]; intros f2 n acc H1 H2.
  - assert (Hn : n < 10) by (simpl in H1; lia).
    destruct f2; cbn [dec_aux]; [reflexivity |].
    rewrite (proj2 (N.ltb_lt n 10) Hn). reflexivity.
  - cbn [dec_aux]. destruct (N.ltb_spec n 10) as [Hn | Hn].
    + destruct f2; cbn [dec_aux]; [reflexivity |].
      rewrite (proj2 (N.ltb_lt n 10) Hn). reflexivity.
    + destruct f2 as [| f2]; [simpl in H2; lia |].
      cbn [dec_aux]. rewrite (proj2 (N.ltb_ge n 10) Hn).
      rewrite pow10_succ in H1, H2.
      apply IH; apply N.Div0.div_lt_upper_bound; assumption.
Qed.

Lemma dec_aux_acc (f : nat) : forall n acc, dec_aux f n acc = dec_aux f n [] ++ acc.
Proof.
  induction f as [| f IH]; intros n acc; cbn [dec_aux]; [reflexivity |].
  destruct (n <? 10); [reflexivity |].
  rewrite (IH _ (digit_char (n mod 10) :: acc)), (IH _ [digit_char (n mod 10)]).
  rewrite <- app_assoc. reflexivity.
Qed.

Lemma dec_aux_dec (f : nat) (n : N) (acc : str) :
  n < 10 ^ N.of_nat (S f) -> dec_aux f n acc = dec n ++ acc.
Proof.
  intros H. rewrite dec_aux_acc. f_equal. unfold dec.
  apply dec_aux_fuel; [exact H | apply dec_fuel_bound].
Qed.

Lemma dec_small (d : N) : d < 10 -> dec d = [digit_char d].
Proof.
  intros H. rewrite <- (app_nil_r (dec d)), <- (dec_aux_dec 0 d []) by (simpl; lia).
  cbn [dec_aux]. rewrite N.mod_small by exact H. reflexivity.
Qed.

Lemma dec_step (n d : N) : 0 < n -> d < 10 -> dec (10 * n + d) = dec n ++ [digit_char d].
Proof.
  intros Hn Hd. set (F := N.to_nat (N.log2 n)).
  pose proof (dec_fuel_bound n) as Hb. fold F in Hb.
  rewrite <- (app_nil_r (dec (10 * n + d))).
  rewrite <- (dec_aux_dec (S F) (10 * n + d) []) by (rewrite pow10_succ; lia).
  cbn [dec_aux]. rewrite (proj2 (N.ltb_ge (10 * n + d) 10)) by lia.
  replace ((10 * n + d) / 10) with n.
  2:{ apply (N.div_unique (10 * n + d) 10 n d); [exact Hd | reflexivity]. }
  replace ((10 * n + d) mod 10) with d.
  2:{ apply (N.mod_unique (10 * n + d) 10 n d); [exact Hd | reflexivity]. }
  apply dec_aux_dec. exact Hb.
Qed.

Lemma digit_char_val (c : ascii) :
  is_digit c = true -> digit_val c < 10 /\ digit_char (digit_val c) = c.
Proof. by_cases_on_char c; intros _; split; reflexivity. Qed.

Lemma digit_val_zero (c : ascii) : is_digit c = true -> digit_val c = 0 -> c = ch_zero.
Proof.
  intros Hc H0. destruct (digit_char_val c Hc) as [_ <-]. rewrite H0. reflexivity.
Qed.

Lemma digit_char_zero (d : N) : d < 10 -> digit_char d = ch_zero -> d = 0.
Proof.
  intros Hd H. rewrite <- (digit_val_char d Hd), H. reflexivity.
Qed.

Lemma head_snoc (s : str) (c : ascii) : s <> [] -> head (s ++ [c]) = head s.
Proof. destruct s; [congruence | reflexivity]. Qed.

Lemma int_single (c : ascii) : int [c] = digit_val c.
Proof. unfold int. simpl. lia. Qed.

Lemma int_positive (s : str) :
  s <> [] -> forallb is_digit s = true -> head s <> Some ch_zero -> 0 < int s.
Proof.
  induction s as [| c s IH] using rev_ind; [congruence |].
  intros _ Hall Hhead. rewrite forallb_app in Hall. apply andb_prop in Hall.
  destruct Hall as [Hs Hc]. simpl in Hc. rewrite andb_true_r in Hc.
  destruct s as [| x s'].
  - cbn [app] in *. rewrite int_single.
    destruct (N.eq_dec (digit_val c) 0) as [H0 | H0]; [| lia].
    exfalso. apply Hhead. rewrite (digit_val_zero c Hc H0). reflexivity.
  - rewrite int_snoc. assert (0 < int (x :: s')); [| lia].
    apply IH; [discriminate | exact Hs | exact Hhead].
Qed.

(** Writing a number read from a canonical numeral gives the numeral. *)
Lemma dec_int (s : str) : canonical s -> dec (int s) = s.
Proof.
  intros [[Hne Hall] Hcan]. induction s as [| c s IH] using rev_ind; [congruence |].
  rewrite forallb_app in Hall. apply andb_prop in Hall.
  destruct Hall as [Hs Hc]. simpl in Hc. rewrite andb_true_r in Hc.
  destruct (digit_char_val c Hc) as [Hlt Hchar].
  destruct s as [| x s'].
  - cbn [app]. rewrite int_single, (dec_small _ Hlt), Hchar. reflexivity.
  - assert (Hhead : head (x :: s') <> Some ch_zero).
    { destruct Hcan as [H | H]; [destruct s'; discriminate H | exact H]. }
    rewrite int_snoc, dec_step, Hchar; [| | exact Hlt].
    + rewrite IH; [reflexivity | discriminate | exact Hs | right; exact Hhead].
    + apply int_positive; [discriminate | exact Hs | exact Hhead].
Qed.

(** A written number is a canonical numeral. *)
Lemma dec_canonical (n : N) : canonical (dec n).
Proof.
  split; [apply dec_digits |].
  induction n as [n IH] using (well_founded_induction N.lt_wf_0).
  destruct (N.ltb_spec n 10) as [Hlt | Hge].
  - rewrite (dec_small n Hlt). destruct (N.eq_dec n 0) as [-> | Hn]; [left; reflexivity |].
    right. cbn [head]. intros [= H]. apply Hn. apply (digit_char_zero n Hlt H).
  - right. rewrite (N.div_mod n 10) by lia.
    rewrite dec_step; [| | apply N.mod_lt; lia].
    2:{ apply N.div_str_pos. lia. }
    assert (Hq : 0 < n / 10) by (apply N.div_str_pos; lia).
    assert (Hqn : n / 10 < n) by (apply N.div_lt; lia).
    destruct (dec_digits (n / 10)) as [Hne _].
    rewrite head_snoc by exact Hne.
    destruct (IH (n / 10) Hqn) as [Hz | Hh]; [| exact Hh].
    exfalso. pose proof (int_dec (n / 10)) as E. rewrite Hz, int_single in E.
    change (digit_val ch_zero) with 0 in E. lia.
Qed.

Lemma canonical_tag_format (v : version) : canonical_tag (format_version v).
Proof.
  destruct v as [[a b] c]. exists (dec a), (dec b), (dec c).
  repeat split; try apply dec_canonical; try apply dec_digits.
Qed.

Lemma canonical_tag_parse (tag : str) (v : version) :
  canonical_tag tag -> parse_semver tag = Some v -> format_version v = tag.
Proof.
  intros (a & b & c & Ha & Hb & Hc & ->) Hparse.
  unfold parse_semver in Hparse.
  rewrite (semver_match_form a b c (proj1 Ha) (proj1 Hb) (proj1 Hc)) in Hparse.
  injection Hparse as <-. unfold format_version.
  rewrite (dec_int a Ha), (dec_int b Hb), (dec_int c Hc). reflexivity.
Qed.

(** X4.  A formatted version parses back to the same triple.  A parsed
    tag formats back to itself exactly when it is of the form v, numeral,
    dot, numeral, dot, numeral with no leading zeros (and no trailing
    newline).  So the tag the selection returns is one of the tags it
    was given exactly when one of them is such a canonical spelling of
    the selected version. *)
Theorem version_text_round_trip :
  (forall v, parse_semver (format_version v) = Some v)
  /\ (forall tag v, parse_semver tag = Some v ->
        (format_version v = tag <-> canonical_tag tag))
  /\ (forall repository tags t, select_latest repository tags = Ret t ->
        (In t tags
         <-> exists tag, In tag tags /\ canonical_tag tag
               /\ parse_semver tag = parse_semver t)).
Proof.
  split; [exact parse_format_version |]. split.
  - intros tag v Hparse. split.
    + intros <-. apply canonical_tag_format.
    + intros Hcan. apply canonical_tag_parse; assumption.
  - intros repository tags t Hsel. apply select_latest_format in Hsel.
    destruct Hsel as [m ->]. split.
    + intros Hin. exists (format_version m). split; [exact Hin |].
      split; [apply canonical_tag_format | reflexivity].
    + intros (tag & Hin & Hcan & Hparse). rewrite parse_format_version in Hparse.
      rewrite (canonical_tag_parse tag m Hcan Hparse). exact Hin.
Qed.

(** X5.  The selection depends only on which tags were fetched, not on
    their order or on how often each occurs. *)
Theorem select_latest_same_tags (repository : str) (tags tags' : list str) :
  (forall t, In t tags <-> In t tags') ->
  select_latest repository tags = select_latest repository tags'.
Proof.
  intros Hsame. unfold select_latest.
  assert (Hv : forall v, In v (omap parse_semver tags) <-> In v (omap parse_semver tags')).
  { intros v. rewrite !In_omap_parse. split; intros (t & Ht & Hp); exists t;
      (split; [apply Hsame; exact Ht | exact Hp]). }
  destruct (omap parse_semver tags) as [| v vs], (omap parse_semver tags') as [| v' vs'].
  - reflexivity.
  - exfalso. apply (proj2 (Hv v')). left. reflexivity.
  - exfalso. apply (proj1 (Hv v)). left. reflexivity.
  - destruct (max_version_spec vs v) as [Hin Hmax], (max_version_spec vs' v') as [Hin' Hmax'].
    do 2 f_equal. apply version_le_antisym.
    + apply Hmax'. apply Hv. exact Hin.
    + apply Hmax. apply Hv. exact Hin'.
Qed.

Lemma select_latest_same_tags_sample :
  (forall t, In t (map lit ["v1.0.0"; "v1.2.0"]%string)
             <-> In t (map lit ["v1.2.0"; "v1.0.0"; "v1.2.0"]%string))
  /\ select_latest (lit "horusec-go") (map lit ["v1.0.0"; "v1.2.0"]%string)
     = select_latest (lit "horusec-go") (map lit ["v1.2.0"; "v1.0.0"; "v1.2.0"]%string).
Proof.
  assert (H : forall t, In t (map lit ["v1.0.0"; "v1.2.0"]%string)
                        <-> In t (map lit ["v1.2.0"; "v1.0.0"; "v1.2.0"]%string)).
  { intros t. simpl. tauto. }
  split; [exact H |]. apply select_latest_same_tags. exact H.
Defined.

(** ** Pagination that does not end *)

Lemma fetch_tags_loop_short registry timeout url pages last :
  walk registry timeout url pages last ->
  forall fuel tags w, (fuel < length pages)%nat ->
    fetch_tags_loop registry fuel timeout url tags w
    = (Diverge, add_requests (take fuel (map fst pages)) w).
Proof.
  induction 1 as [url | url payload next last names rest Htruthy Hreg Hpage Hwalk IH];
    intros fuel tags w Hfuel; [simpl in Hfuel; lia |].
  destruct fuel as [| fuel].
  - cbn [fetch_tags_loop take]. rewrite Htruthy, add_requests_nil. reflexivity.
  - destruct (page_of_tags payload names next tags Hpage) as [Htags Hnext].
    cbn [fetch_tags_loop]. rewrite Htruthy.
    unfold bind at 1. rewrite http_get_json_run, Hreg.
    unfold bind at 1. unfold lift at 1. rewrite Htags.
    unfold bind at 1. unfold lift at 1. rewrite Hnext.
    rewrite IH by (simpl in Hfuel; lia).
    cbn [map fst take]. rewrite add_requests_app. reflexivity.
Qed.

Lemma fetch_tags_loop_cycle registry timeout url cycle :
  walk registry timeout url cycle url -> cycle <> [] ->
  forall fuel tags w, exists log,
    fetch_tags_loop registry fuel timeout url tags w = (Diverge, add_requests log w)
    /\ length log = fuel.
Proof.
  intros Hwalk Hne fuel.
  induction fuel as [fuel IH] using (well_founded_induction lt_wf). intros tags w.
  destruct (Nat.lt_ge_cases fuel (length cycle)) as [Hshort | Hlong].
  - exists (take fuel (map fst cycle)). split; [apply (fetch_tags_loop_short _ _ _ _ _ Hwalk); exact Hshort |].
    rewrite length_take, length_map. lia.
  - assert (Hpos : (0 < length cycle)%nat) by (destruct cycle; [congruence | simpl; lia]).
    destruct (IH (fuel - length cycle)%nat ltac:(lia) (tags ++ concat (map snd cycle))
                (add_requests (map fst cycle) w)) as (log & Hrun & Hlen).
    exists (map fst cycle ++ log). split.
    + replace fuel with (length cycle + (fuel - length cycle))%nat at 1 by lia.
      rewrite (fetch_tags_loop_walk _ _ _ _ _ Hwalk), Hrun, add_requests_app. reflexivity.
    + rewrite length_app, length_map, Hlen. lia.
Qed.

(** X6.  When the pages served from the first page URL lead into a
    cycle (some page's chain of [next] references comes back to its own
    URL), [fetch_tags] has not ended after any number of iterations,
    and every iteration sends one more request: the loop keeps no record
    of the URLs it has visited. *)
Theorem fetch_tags_cycle_never_ends
    (registry : json -> Z -> response) (repository : str) (timeout : Z)
    (lead cycle : list (json * list str)) (url : json) :
  walk registry timeout (JStr (first_page_url repository)) lead url ->
  walk registry timeout url cycle url ->
  cycle <> [] ->
  forall fuel w, exists log,
    fetch_tags registry repository timeout fuel w = (Diverge, add_requests log w)
    /\ length log = fuel.
Proof.
  intros Hlead Hcycle Hne fuel w. unfold fetch_tags.
  destruct (Nat.lt_ge_cases fuel (length lead)) as [Hshort | Hlong].
  - exists (take fuel (map fst lead)).
    split; [apply (fetch_tags_loop_short _ _ _ _ _ Hlead); exact Hshort |].
    rewrite length_take, length_map. lia.
  - destruct (fetch_tags_loop_cycle registry timeout url cycle Hcycle Hne
                (fuel - length lead)%nat ([] ++ concat (map snd lead))
                (add_requests (map fst lead) w)) as (log & Hrun & Hlen).
    exists (map fst lead ++ log). split.
    + replace fuel with (length lead + (fuel - length lead))%nat at 1 by lia.
      rewrite (fetch_tags_loop_walk _ _ _ _ _ Hlead), Hrun, add_requests_app. reflexivity.
    + rewrite length_app, length_map, Hlen. lia.
Qed.

Lemma looping_walk :
  walk looping_registry 15 (JStr (first_page_url (lit "horusec-go")))
    [ (JStr (first_page_url (lit "horusec-go")), map lit ["v1.0.0"]%string) ]
    (JStr (first_page_url (lit "horusec-go"))).
Proof.
  eapply walk_page; [reflexivity | reflexivity | apply sample_page_of | apply walk_done].
Defined.

Lemma fetch_tags_cycle_sample :
  exists log,
    fetch_tags looping_registry (lit "horusec-go") 15 7 empty_world
    = (Diverge, add_requests log empty_world)
    /\ length log = 7%nat.
Proof.
  apply (fetch_tags_cycle_never_ends looping_registry (lit "horusec-go") 15 [] _ _
           (walk_done _ _ _) looping_walk).
  discriminate.
Defined.

(** ** The requests of the update plan *)

Lemma fetch_latest_run_log registry repository timeout fuel (w : world) :
  fetch_latest_semver_tag registry repository timeout fuel w
  = (latest_of registry timeout fuel repository,
     add_requests (fetch_log registry timeout fuel repository) w).
Proof.
  destruct (net_only_fetch_latest registry repository timeout fuel) as (o & log & H).
  unfold latest_of, fetch_log. rewrite (H empty_world), (H w). reflexivity.
Qed.

Lemma plan_step_log registry constants timeout fuel (entry : str * str) (w : world) :
  plan_step registry constants timeout fuel entry w
  = (plan_entry constants (latest_of registry timeout fuel) entry,
     add_requests (entry_log registry timeout fuel constants entry) w).
Proof.
  destruct entry as [c r]. unfold plan_step, plan_entry, entry_log. cbn [fst snd].
  destruct (constants !! c) as [[i value] |]; [| rewrite add_requests_nil; reflexivity].
  unfold extract_image_tag. destruct (has_colon value) eqn:Hv; cbn [negb].
  2:{ unfold bind, lift. rewrite add_requests_nil. reflexivity. }
  destruct (has_colon_rsplit value Hv) as (name & tag & -> & _).
  unfold bind at 1. unfold lift at 1. unfold bind. rewrite fetch_latest_run_log. cbn [obind].
  destruct (latest_of registry timeout fuel r) as [latest_tag | e |]; cbn [obind];
    try reflexivity.
  destruct (parse_semver latest_tag); [| reflexivity].
  destruct (decide (tag = latest_tag)); reflexivity.
Qed.

Lemma entry_log_returns registry timeout fuel constants (entry : str * str) :
  returns constants (latest_of registry timeout fuel) entry ->
  entry_log registry timeout fuel constants entry = fetch_log registry timeout fuel (snd entry).
Proof.
  destruct entry as [c r]. intros H. apply returns_iff in H.
  destruct H as (i & v & lt & Hc & Hv & _). unfold entry_log. cbn [fst snd].
  rewrite Hc, Hv. reflexivity.
Qed.

Lemma plan_loop_prefix registry constants timeout fuel (before : list (str * str)) :
  forall rest updates w,
  Forall (returns constants (latest_of registry timeout fuel)) before ->
  plan_loop registry constants timeout fuel (before ++ rest) updates w
  = plan_loop registry constants timeout fuel rest
      (updates ++ flat_map (step_records constants (latest_of registry timeout fuel)) before)
      (add_requests (flat_map (fun e => fetch_log registry timeout fuel (snd e)) before) w).
Proof.
  induction before as [| entry before IH]; intros rest updates w Hall.
  - cbn [app flat_map]. rewrite app_nil_r, add_requests_nil. reflexivity.
  - apply Forall_cons in Hall. destruct Hall as [Hentry Hall].
    pose proof Hentry as [step Hstep].
    cbn [app plan_loop flat_map]. unfold bind at 1.
    rewrite plan_step_log, Hstep, (entry_log_returns _ _ _ _ _ Hentry).
    rewrite (IH rest _ _ Hall), add_requests_app.
    unfold step_records at 2. rewrite Hstep.
    destruct step as [u |]; cbn [option_list];
      [rewrite <- app_assoc | ]; reflexivity.
Qed.

Lemma compute_updates_over_inv registry table constants timeout fuel (w w' : world)
    (updates : list ImageUpdate) :
  compute_updates_over registry table constants timeout fuel w = (Ret updates, w') ->
  Forall (returns constants (latest_of registry timeout fuel)) table
  /\ updates = sorted_by_name
                 (flat_map (step_records constants (latest_of registry timeout fuel)) table).
Proof.
  intros Hrun.
  destruct (compute_updates_over_run registry table constants timeout fuel) as (log & Hlog).
  rewrite Hlog in Hrun.
  destruct (plan_pure constants (latest_of registry timeout fuel) table []) as [plan | e |] eqn:Hp;
    cbn [obind] in Hrun; try discriminate.
  pose proof (plan_pure_inv _ _ _ _ _ Hp) as Hall. split; [exact Hall |].
  rewrite (plan_pure_returns _ _ _ [] Hall), app_nil_l in Hp. congruence.
Qed.

Lemma compute_updates_over_log registry table constants timeout fuel (w : world) :
  Forall (returns constants (latest_of registry timeout fuel)) table ->
  compute_updates_over registry table constants timeout fuel w
  = (Ret (sorted_by_name
            (flat_map (step_records constants (latest_of registry timeout fuel)) table)),
     add_requests (flat_map (fun e => fetch_log registry timeout fuel (snd e)) table) w).
Proof.
  intros Hall. unfold compute_updates_over, bind.
  rewrite <- (app_nil_r table) at 1. rewrite (plan_loop_prefix _ _ _ _ _ _ _ _ Hall).
  cbn [plan_loop ret]. rewrite app_nil_l. reflexivity.
Qed.

(** X7.  When every tracked identifier's step returns, [compute_updates]
    sends, in table order, exactly the requests of one registry lookup
    per table entry, so a repository that two identifiers share is looked
    up twice; the world changes in nothing else. *)
Theorem compute_updates_requests
    (registry : json -> Z -> response) (table : list (str * str))
    (constants : gmap str (nat * str)) (timeout : Z) (fuel : nat) (w : world) :
  Forall (returns constants (latest_of registry timeout fuel)) table ->
  exists updates,
    compute_updates_over registry table constants timeout fuel w
    = (Ret updates,
       add_requests (flat_map (fun e => fetch_log registry timeout fuel (snd e)) table) w).
Proof.
  intros Hall. eexists. apply compute_updates_over_log, Hall.
Qed.

Lemma compute_updates_requests_sample :
  Forall (returns sample_constants (latest_of one_page_registry 15 3))
    TARGET_CONST_TO_REPOSITORY
  /\ exists updates,
       compute_updates_over one_page_registry TARGET_CONST_TO_REPOSITORY sample_constants
         15 3 empty_world
       = (Ret updates,
          add_requests
            (flat_map (fun e => fetch_log one_page_registry 15 3 (snd e))
               TARGET_CONST_TO_REPOSITORY) empty_world).
Proof.
  assert (Hrun : sample_plan = (Ret sample_updates, snd sample_plan)).
  { apply pair_of_fst. vm_compute. reflexivity. }
  assert (Hall : Forall (returns sample_constants (latest_of one_page_registry 15 3))
                   TARGET_CONST_TO_REPOSITORY).
  { exact (proj1 (compute_updates_over_inv one_page_registry TARGET_CONST_TO_REPOSITORY
                    sample_constants 15 3 empty_world (snd sample_plan) sample_updates Hrun)). }
  split; [exact Hall |].
  apply (compute_updates_requests one_page_registry TARGET_CONST_TO_REPOSITORY sample_constants
           15 3 empty_world Hall).
Defined.

(** X8.  [compute_updates] stops at the first tracked identifier whose
    step raises: that exception is the one raised, the identifiers
    before it have been looked up, the identifiers after it are not,
    and when the failure is a missing constant or a value without a
    colon the failing identifier's repository is not contacted either. *)
Theorem compute_updates_stops_at_first_error
    (registry : json -> Z -> response) (before after : list (str * str)) (c r : str)
    (constants : gmap str (nat * str)) (timeout : Z) (fuel : nat) (w : world) (e : exn) :
  Forall (returns constants (latest_of registry timeout fuel)) before ->
  fst (plan_step registry constants timeout fuel (c, r) w) = Raise e ->
  compute_updates_over registry (before ++ (c, r) :: after) constants timeout fuel w
  = (Raise e,
     add_requests
       (flat_map (fun e => fetch_log registry timeout fuel (snd e)) before
        ++ entry_log registry timeout fuel constants (c, r)) w)
  /\ (constants !! c = None -> entry_log registry timeout fuel constants (c, r) = [])
  /\ (forall i v, constants !! c = Some (i, v) -> has_colon v = false ->
        entry_log registry timeout fuel constants (c, r) = []).
Proof.
  intros Hall Hfail. rewrite plan_step_log in Hfail. cbn [fst] in Hfail.
  split; [| split].
  - unfold compute_updates_over, bind. rewrite (plan_loop_prefix _ _ _ _ _ _ _ _ Hall).
    cbn [plan_loop]. unfold bind. rewrite plan_step_log, Hfail, add_requests_app. reflexivity.
  - intros Hc. unfold entry_log. cbn [fst]. rewrite Hc. reflexivity.
  - intros i v Hc Hv. unfold entry_log. cbn [fst]. rewrite Hc, Hv. reflexivity.
Qed.

Lemma compute_updates_stops_at_first_error_sample :
  let constants := parse_image_constants (splitlines sample_text_no_colon) in
  let before := [ (lit "C", lit "horusec-c"); (lit "Csharp", lit "horusec-csharp");
                  (lit "Elixir", lit "horusec-elixir"); (lit "Generic", lit "horusec-generic") ] in
  let first_page r := JStr (first_page_url (lit r)) in
  Forall (returns constants (latest_of one_page_registry 15 3)) before
  /\ fst (plan_step one_page_registry constants 15 3 (lit "Go", lit "horusec-go") empty_world)
     = Raise (invalid_format (lit "horusec-go-v1.0.0"))
  /\ compute_updates_over one_page_registry TARGET_CONST_TO_REPOSITORY constants 15 3 empty_world
     = (Raise (invalid_format (lit "horusec-go-v1.0.0")),
        add_requests [ first_page "horusec-c"; first_page "horusec-csharp";
                       first_page "horusec-elixir"; first_page "horusec-generic" ]
          empty_world).
Proof.
  intros constants before first_page.
  assert (Hall : Forall (returns constants (latest_of one_page_registry 15 3)) before).
  { repeat (apply List.Forall_cons; [eexists; vm_compute; reflexivity |]). apply List.Forall_nil. }
  assert (Hfail : fst (plan_step one_page_registry constants 15 3 (lit "Go", lit "horusec-go")
                         empty_world)
                  = Raise (invalid_format (lit "horusec-go-v1.0.0")))
    by (vm_compute; reflexivity).
  split; [exact Hall |]. split; [exact Hfail |].
  destruct (compute_updates_stops_at_first_error one_page_registry before
              [ (lit "HCL", lit "horusec-hcl"); (lit "Javascript", lit "horusec-js");
                (lit "Leaks", lit "horusec-leaks"); (lit "PHP", lit "horusec-php");
                (lit "Python", lit "horusec-python"); (lit "Ruby", lit "horusec-ruby");
                (lit "Shell", lit "horusec-shell") ]
              (lit "Go") (lit "horusec-go") constants 15 3 empty_world
              (invalid_format (lit "horusec-go-v1.0.0")) Hall Hfail) as (Hrun & _ & _).
  etransitivity; [exact Hrun |]. vm_compute. reflexivity.
Defined.

(** ** Records are decided by the text of the tags *)

Lemma latest_canonical registry timeout fuel (repository latest_tag : str) :
  latest_of registry timeout fuel repository = Ret latest_tag ->
  exists vl, parse_semver latest_tag = Some vl /\ latest_tag = format_version vl.
Proof.
  intros H. destruct (latest_of_format _ _ _ _ _ H) as [vl ->].
  exists vl. split; [apply parse_format_version | reflexivity].
Qed.

Lemma same_text_iff (current_tag : str) (vl : version) :
  current_tag = format_version vl
  <-> canonical_tag current_tag /\ parse_semver current_tag = Some vl.
Proof.
  split.
  - intros ->. split; [apply canonical_tag_format | apply parse_format_version].
  - intros [Hc Hp]. symmetry. apply canonical_tag_parse; assumption.
Qed.

Lemma version_ltb_irrefl (x : version) : version_ltb x x = false.
Proof. apply version_ltb_false, version_le_refl. Qed.

(** X9.  [compute_updates] compares the two tags as text and never as
    versions: for a tracked identifier the record from the current tag to
    the latest tag is in the result unless the current tag is the
    canonical text of the latest version.  In particular a current tag of
    a newer version than the registry's latest is recorded as an update
    to the older tag. *)
Theorem compute_updates_compares_text
    (registry : json -> Z -> response) (table : list (str * str))
    (constants : gmap str (nat * str)) (timeout : Z) (fuel : nat)
    (w w' : world) (updates : list ImageUpdate)
    (c r : str) (i : nat) (v current_tag latest_tag : str) :
  compute_updates_over registry table constants timeout fuel w = (Ret updates, w') ->
  In (c, r) table ->
  constants !! c = Some (i, v) ->
  extract_image_tag v = Ret current_tag ->
  latest_of registry timeout fuel r = Ret latest_tag ->
  exists vl,
    parse_semver latest_tag = Some vl
    /\ (In (mkImageUpdate c r current_tag latest_tag) updates
        <-> ~ (canonical_tag current_tag /\ parse_semver current_tag = Some vl))
    /\ (forall vc, parse_semver current_tag = Some vc -> version_ltb vl vc = true ->
          In (mkImageUpdate c r current_tag latest_tag) updates).
Proof.
  intros Hrun Hin Hc Hex Hlt.
  destruct (latest_canonical _ _ _ _ _ Hlt) as (vl & Hvl & Heq).
  exists vl. split; [exact Hvl |].
  destruct (compute_updates_over_run registry table constants timeout fuel) as (log & Hlog).
  rewrite Hlog in Hrun.
  destruct (plan_pure constants (latest_of registry timeout fuel) table []) as [plan | e |] eqn:Hp;
    cbn [obind] in Hrun; try discriminate.
  assert (Hu : updates = sorted_by_name plan) by congruence.
  pose proof (plan_pure_inv _ _ _ _ _ Hp) as Hall.
  rewrite (plan_pure_returns _ _ _ [] Hall), app_nil_l in Hp.
  assert (Hplan : plan = flat_map (step_records constants (latest_of registry timeout fuel)) table)
    by congruence.
  assert (Hstep : plan_entry constants (latest_of registry timeout fuel) (c, r)
                  = Ret (if decide (current_tag = latest_tag) then None
                         else Some (mkImageUpdate c r current_tag latest_tag))).
  { unfold plan_entry. rewrite Hc, Hex. cbn [obind]. rewrite Hlt. cbn [obind].
    rewrite Hvl. destruct (decide (current_tag = latest_tag)); reflexivity. }
  assert (Hrec : In (mkImageUpdate c r current_tag latest_tag) updates
                 <-> current_tag <> latest_tag).
  { rewrite Hu. split.
    - intros H. apply (Permutation_in _ (sorted_by_name_perm plan)) in H.
      rewrite Hplan in H. apply In_flat_records in H. cbn [const_name] in H.
      destruct H as (r0 & Hin0 & H0). unfold step_records in H0.
      destruct (plan_entry constants (latest_of registry timeout fuel) (c, r0))
        as [step | e |] eqn:Hs0; try destruct H0.
      apply plan_entry_inv in Hs0.
      destruct Hs0 as (i0 & v0 & cur0 & lt0 & _ & _ & _ & _ & ->).
      destruct (decide (cur0 = lt0)) as [| Hne]; [destruct H0 |].
      destruct H0 as [H0 | []]. injection H0 as _ <- <-. exact Hne.
    - intros Hne. apply (Permutation_in _ (Permutation_sym (sorted_by_name_perm plan))).
      rewrite Hplan. apply In_flat_records. cbn [const_name]. exists r. split; [exact Hin |].
      unfold step_records. rewrite Hstep.
      destruct (decide (current_tag = latest_tag)); [contradiction | left; reflexivity]. }
  split.
  - rewrite Hrec, Heq at 1. rewrite <- same_text_iff. rewrite <- Heq. reflexivity.
  - intros vc Hvc Hlt'. apply Hrec. intros ->.
    assert (vc = vl) by congruence. subst vc. rewrite version_ltb_irrefl in Hlt'. discriminate.
Qed.

Lemma compute_updates_compares_text_sample :
  sample_plan_ahead = (Ret sample_updates_ahead, snd sample_plan_ahead)
  /\ In (lit "Go", lit "horusec-go") TARGET_CONST_TO_REPOSITORY
  /\ parse_semver (lit "v9.0.0") = Some (9, 0, 0)
  /\ parse_semver (lit "v1.2.0") = Some (1, 2, 0)
  /\ In (mkImageUpdate (lit "Go") (lit "horusec-go") (lit "v9.0.0") (lit "v1.2.0"))
        sample_updates_ahead.
Proof.
  assert (Hrun : sample_plan_ahead = (Ret sample_updates_ahead, snd sample_plan_ahead)).
  { apply pair_of_fst. vm_compute. reflexivity. }
  assert (Hin : In (lit "Go", lit "horusec-go") TARGET_CONST_TO_REPOSITORY).
  { vm_compute. tauto. }
  assert (Hvc : parse_semver (lit "v9.0.0") = Some (9, 0, 0)) by (vm_compute; reflexivity).
  assert (Hvl : parse_semver (lit "v1.2.0") = Some (1, 2, 0)) by (vm_compute; reflexivity).
  split; [exact Hrun |]. split; [exact Hin |]. split; [exact Hvc |]. split; [exact Hvl |].
  destruct (compute_updates_compares_text one_page_registry TARGET_CONST_TO_REPOSITORY
              (parse_image_constants (splitlines sample_text_ahead)) 15 3 empty_world
              (snd sample_plan_ahead) sample_updates_ahead (lit "Go") (lit "horusec-go")
              5%nat (lit "horuszup/horusec-go:v9.0.0") (lit "v9.0.0") (lit "v1.2.0"))
    as (vl & Hvl0 & _ & Hnewer).
  - exact Hrun.
  - exact Hin.
  - vm_compute. reflexivity.
  - vm_compute. reflexivity.
  - vm_compute. reflexivity.
  - apply (Hnewer (9, 0, 0) Hvc). rewrite Hvl in Hvl0. injection Hvl0 as <-.
    vm_compute. reflexivity.
Defined.

(** ** Records the patch applier cannot apply *)

Lemma apply_update_inv (constants : gmap str (nat * str)) (buffer out : list str)
    (u : ImageUpdate) :
  apply_update constants buffer u = Ret out ->
  applicable buffer constants u /\ length out = length buffer.
Proof.
  unfold apply_update, applicable.
  destruct (constants !! const_name u) as [[i v] |]; [| discriminate].
  unfold replace_image_tag. destruct (has_colon v) eqn:Hv; cbn [negb]; [| discriminate].
  destruct (rsplit_colon v) as [[name tag] |]; cbn [obind];
    (destruct (buffer !! i) as [line |] eqn:Hl; [| discriminate]);
    intros [= <-]; (split; [| apply length_insert]);
    exists i, v; (split; [reflexivity |]); (split; [exact Hv |]);
    apply (lookup_lt_Some _ _ _ Hl).
Qed.

Lemma applicable_length (l1 l2 : list str) (constants : gmap str (nat * str))
    (u : ImageUpdate) :
  length l1 = length l2 -> applicable l1 constants u -> applicable l2 constants u.
Proof. intros Hlen (i & v & Hc & Hv & Hi). exists i, v. rewrite <- Hlen. auto. Qed.

Lemma apply_update_applicable (constants : gmap str (nat * str)) (buffer : list str)
    (u : ImageUpdate) :
  applicable buffer constants u -> exists out, apply_update constants buffer u = Ret out.
Proof.
  intros (i & v & Hc & Hv & Hi).
  destruct (lookup_lt_is_Some_2 buffer i Hi) as [line Hl].
  destruct (apply_update_ret constants buffer u i v line Hc Hv Hl) as (name & tag & _ & _ & H).
  eexists. exact H.
Qed.

Lemma apply_updates_loop_returns (constants : gmap str (nat * str))
    (updates : list ImageUpdate) : forall buffer,
  (exists out, apply_updates_loop constants buffer updates = Ret out)
  <-> Forall (applicable buffer constants) updates.
Proof.
  induction updates as [| u rest IH]; intros buffer.
  - split; [constructor | intros _; exists buffer; reflexivity].
  - cbn [apply_updates_loop]. split.
    + intros [out Hout].
      destruct (apply_update constants buffer u) as [b1 | e |] eqn:Hstep;
        cbn [obind] in Hout; try discriminate.
      apply apply_update_inv in Hstep. destruct Hstep as [Hu Hlen].
      constructor; [exact Hu |].
      assert (Hrest : Forall (applicable b1 constants) rest) by (apply IH; eauto).
      eapply Forall_impl; [exact Hrest |]. intros x. apply applicable_length, Hlen.
    + intros Hall. apply Forall_cons in Hall. destruct Hall as [Hu Hrest].
      destruct (apply_update_applicable _ _ _ Hu) as [b1 Hstep]. rewrite Hstep. cbn [obind].
      apply IH. eapply Forall_impl; [exact Hrest |]. intros x.
      apply applicable_length. symmetry. apply (apply_update_inv _ _ _ _ Hstep).
Qed.

Lemma apply_updates_loop_first (constants : gmap str (nat * str)) (u : ImageUpdate)
    (after : list ImageUpdate) (before : list ImageUpdate) : forall buffer,
  Forall (applicable buffer constants) before ->
  exists buffer',
    length buffer' = length buffer
    /\ apply_updates_loop constants buffer (before ++ u :: after)
       = obind (apply_update constants buffer' u) (fun b =>
           apply_updates_loop constants b after).
Proof.
  induction before as [| x before IH]; intros buffer Hall.
  - exists buffer. split; reflexivity.
  - apply Forall_cons in Hall. destruct Hall as [Hx Hrest].
    destruct (apply_update_applicable _ _ _ Hx) as [b1 Hstep].
    pose proof (proj2 (apply_update_inv _ _ _ _ Hstep)) as Hlen.
    destruct (IH b1) as (b2 & Hlen2 & Hrun).
    { eapply Forall_impl; [exact Hrest |]. intros y. apply applicable_length. congruence. }
    exists b2. split; [congruence |].
    cbn [app apply_updates_loop]. rewrite Hstep. cbn [obind]. exact Hrun.
Qed.

(** *** Integer line numbers *)

Lemma list_position_Some (n : nat) (i : Z) (position : nat) :
  list_position n i = Some position ->
  (position < n)%nat /\ (- Z.of_nat n <= i < Z.of_nat n)%Z
  /\ Z.of_nat position = (if (i <? 0)%Z then i + Z.of_nat n else i)%Z.
Proof.
  unfold list_position.
  destruct (Z.ltb_spec i 0).
  - destruct (Z.ltb_spec (i + Z.of_nat n) 0); [discriminate |]. intros [= <-]. lia.
  - destruct (Z.ltb_spec i (Z.of_nat n)); [| discriminate]. intros [= <-]. lia.
Qed.

Lemma list_position_None (n : nat) (i : Z) :
  list_position n i = None <-> (i < - Z.of_nat n \/ Z.of_nat n <= i)%Z.
Proof.
  unfold list_position.
  destruct (Z.ltb_spec i 0).
  - destruct (Z.ltb_spec (i + Z.of_nat n) 0); split; try discriminate; try reflexivity; lia.
  - destruct (Z.ltb_spec i (Z.of_nat n)); split; try discriminate; try reflexivity; lia.
Qed.

Lemma list_position_intro (n : nat) (i : Z) (position : nat) :
  (position < n)%nat ->
  Z.of_nat position = (if (i <? 0)%Z then i + Z.of_nat n else i)%Z ->
  list_position n i = Some position.
Proof.
  unfold list_position. intros Hlt.
  destruct (Z.ltb_spec i 0); intros Hpos.
  - destruct (Z.ltb_spec (i + Z.of_nat n) 0); [lia |]. f_equal. lia.
  - destruct (Z.ltb_spec i (Z.of_nat n)); [f_equal |]; lia.
Qed.

Lemma list_position_natural (n i : nat) :
  list_position n (Z.of_nat i) = if decide (i < n)%nat then Some i else None.
Proof.
  unfold list_position.
  destruct (Z.ltb_spec (Z.of_nat i) 0); [lia |].
  destruct (Z.ltb_spec (Z.of_nat i) (Z.of_nat n)), (decide (i < n)%nat); try lia.
  - rewrite Nat2Z.id. reflexivity.
  - reflexivity.
Qed.

Lemma apply_update_z_inv (constants : gmap str (Z * str)) (buffer out : list str)
    (u : ImageUpdate) :
  apply_update_z constants buffer u = Ret out ->
  applicable_z buffer constants u /\ length out = length buffer.
Proof.
  unfold apply_update_z, applicable_z.
  destruct (constants !! const_name u) as [[i v] |]; [| discriminate].
  unfold replace_image_tag. destruct (has_colon v) eqn:Hv; cbn [negb]; [| discriminate].
  destruct (rsplit_colon v) as [[name tag] |]; cbn [obind];
    (destruct (list_position (length buffer) i) as [k |] eqn:Hk; [| discriminate]);
    (destruct (buffer !! k) as [line |]; [| discriminate]);
    intros [= <-]; (split; [| apply length_insert]);
    exists i, v; (split; [reflexivity |]); (split; [exact Hv |]);
    apply (list_position_Some _ _ _ Hk).
Qed.

Lemma applicable_z_length (l1 l2 : list str) (constants : gmap str (Z * str))
    (u : ImageUpdate) :
  length l1 = length l2 -> applicable_z l1 constants u -> applicable_z l2 constants u.
Proof. intros Hlen (i & v & Hc & Hv & Hi). exists i, v. rewrite <- Hlen. auto. Qed.

Lemma apply_update_z_applicable (constants : gmap str (Z * str)) (buffer : list str)
    (u : ImageUpdate) :
  applicable_z buffer constants u -> exists out, apply_update_z constants buffer u = Ret out.
Proof.
  intros (i & v & Hc & Hv & Hi). unfold apply_update_z. rewrite Hc.
  destruct (has_colon_rsplit v Hv) as (name & tag & _ & -> & Htag).
  rewrite (replace_image_tag_app name tag _ Htag). cbn [obind].
  destruct (list_position (length buffer) i) as [k |] eqn:Hk.
  - destruct (list_position_Some _ _ _ Hk) as (Hlt & _).
    destruct (lookup_lt_is_Some_2 buffer k Hlt) as [line ->]. eexists. reflexivity.
  - apply list_position_None in Hk. lia.
Qed.

Lemma apply_updates_loop_z_returns (constants : gmap str (Z * str))
    (updates : list ImageUpdate) : forall buffer,
  (exists out, apply_updates_loop_z constants buffer updates = Ret out)
  <-> Forall (applicable_z buffer constants) updates.
Proof.
  induction updates as [| u rest IH]; intros buffer.
  - split; [constructor | intros _; exists buffer; reflexivity].
  - cbn [apply_updates_loop_z]. split.
    + intros [out Hout].
      destruct (apply_update_z constants buffer u) as [b1 | e |] eqn:Hstep;
        cbn [obind] in Hout; try discriminate.
      apply apply_update_z_inv in Hstep. destruct Hstep as [Hu Hlen].
      constructor; [exact Hu |].
      assert (Hrest : Forall (applicable_z b1 constants) rest) by (apply IH; eauto).
      eapply Forall_impl; [exact Hrest |]. intros x. apply applicable_z_length, Hlen.
    + intros Hall. apply Forall_cons in Hall. destruct Hall as [Hu Hrest].
      destruct (apply_update_z_applicable _ _ _ Hu) as [b1 Hstep]. rewrite Hstep. cbn [obind].
      apply IH. eapply Forall_impl; [exact Hrest |]. intros x.
      apply applicable_z_length. symmetry. apply (apply_update_z_inv _ _ _ _ Hstep).
Qed.

Lemma apply_updates_loop_z_first (constants : gmap str (Z * str)) (u : ImageUpdate)
    (after : list ImageUpdate) (before : list ImageUpdate) : forall buffer,
  Forall (applicable_z buffer constants) before ->
  exists buffer',
    length buffer' = length buffer
    /\ apply_updates_loop_z constants buffer (before ++ u :: after)
       = obind (apply_update_z constants buffer' u) (fun b =>
           apply_updates_loop_z constants b after).
Proof.
  induction before as [| x before IH]; intros buffer Hall.
  - exists buffer. split; reflexivity.
  - apply Forall_cons in Hall. destruct Hall as [Hx Hrest].
    destruct (apply_update_z_applicable _ _ _ Hx) as [b1 Hstep].
    pose proof (proj2 (apply_update_z_inv _ _ _ _ Hstep)) as Hlen.
    destruct (IH b1) as (b2 & Hlen2 & Hrun).
    { eapply Forall_impl; [exact Hrest |]. intros y. apply applicable_z_length. congruence. }
    exists b2. split; [congruence |].
    cbn [app apply_updates_loop_z]. rewrite Hstep. cbn [obind]. exact Hrun.
Qed.

Lemma apply_update_z_natural (constants : gmap str (nat * str)) (buffer : list str)
    (u : ImageUpdate) :
  apply_update_z (integer_lines constants) buffer u = apply_update constants buffer u.
Proof.
  unfold apply_update_z, apply_update, integer_lines. rewrite lookup_fmap.
  destruct (constants !! const_name u) as [[i v] |]; cbn [fmap option_fmap option_map fst snd];
    [| reflexivity].
  destruct (replace_image_tag v (to_tag u)) as [new_value | e |]; cbn [obind]; try reflexivity.
  rewrite list_position_natural.
  destruct (decide (i < length buffer)%nat) as [Hlt | Hge].
  - destruct (lookup_lt_is_Some_2 buffer i Hlt) as [line ->]. reflexivity.
  - rewrite (lookup_ge_None_2 buffer i) by lia. reflexivity.
Qed.

Lemma apply_updates_loop_z_natural (constants : gmap str (nat * str))
    (updates : list ImageUpdate) : forall buffer,
  apply_updates_loop_z (integer_lines constants) buffer updates
  = apply_updates_loop constants buffer updates.
Proof.
  induction updates as [| u rest IH]; intros buffer; [reflexivity |].
  cbn [apply_updates_loop_z apply_updates_loop]. rewrite apply_update_z_natural.
  destruct (apply_update constants buffer u); cbn [obind]; [apply IH | reflexivity | reflexivity].
Qed.

(** X10.  [apply_updates] on any mapping, whose line numbers are
    integers of either sign.  It returns exactly when every record is
    applicable: its identifier is in the mapping, the value there holds a
    colon, and the line number there is in range as a list index, a
    negative one counting from the end (a single applicable record with
    line number -1 patches the last line).  Otherwise it raises for the
    first record that is not, and nothing of the later records matters: a
    KeyError for an identifier that is not in the mapping, else the
    invalid-format ValueError for a value without a colon, else an
    IndexError for a line number out of range.  On a mapping with natural
    line numbers, such as [parse_image_constants] builds, this is
    [apply_updates] as modelled with natural line numbers. *)
Theorem apply_updates_returns_iff_applicable
    (lines : list str) (constants : gmap str (Z * str)) (updates : list ImageUpdate) :
  ((exists out, apply_updates_z lines constants updates = Ret out)
   <-> Forall (applicable_z lines constants) updates)
  /\ (forall before u after,
        updates = before ++ u :: after ->
        Forall (applicable_z lines constants) before ->
        (constants !! const_name u = None ->
           apply_updates_z lines constants updates = Raise (Exn KeyError (const_name u)))
        /\ (forall i v, constants !! const_name u = Some (i, v) -> has_colon v = false ->
              apply_updates_z lines constants updates = Raise (invalid_format v))
        /\ (forall i v, constants !! const_name u = Some (i, v) -> has_colon v = true ->
              (i < - Z.of_nat (length lines) \/ Z.of_nat (length lines) <= i)%Z ->
              apply_updates_z lines constants updates
              = Raise (Exn IndexError (lit "list index out of range"))))
  /\ (forall u i v position line,
        constants !! const_name u = Some (i, v) -> has_colon v = true ->
        Z.of_nat position = (if (i <? 0)%Z then i + Z.of_nat (length lines) else i)%Z ->
        lines !! position = Some line ->
        exists name tag,
          v = name ++ ch_colon :: tag /\ has_colon tag = false
          /\ apply_updates_z lines constants [u]
             = Ret (<[position := replace_first v (name ++ ch_colon :: to_tag u) line]> lines))
  /\ (forall natural : gmap str (nat * str),
        apply_updates_z lines (integer_lines natural) updates
        = apply_updates lines natural updates).
Proof.
  split; [apply apply_updates_loop_z_returns |]. split; [| split].
  3:{ intros natural. apply apply_updates_loop_z_natural. }
  2:{ intros u i v position line Hc Hv Hpos Hline.
      destruct (has_colon_rsplit v Hv) as (name & tag & _ & Heq & Htag).
      exists name, tag. split; [exact Heq |]. split; [exact Htag |].
      unfold apply_updates_z. cbn [apply_updates_loop_z]. unfold apply_update_z.
      rewrite Hc. subst v. rewrite (replace_image_tag_app name tag _ Htag). cbn [obind].
      rewrite (list_position_intro _ _ position (lookup_lt_Some _ _ _ Hline) Hpos), Hline.
      reflexivity. }
  - intros before u after -> Hall. unfold apply_updates_z.
    destruct (apply_updates_loop_z_first constants u after before lines Hall)
      as (buffer & Hlen & ->).
    unfold apply_update_z. split; [| split].
    + intros ->. reflexivity.
    + intros i v -> Hv. unfold replace_image_tag. rewrite Hv. reflexivity.
    + intros i v -> Hv Hi.
      destruct (has_colon_rsplit v Hv) as (name & tag & _ & -> & Htag).
      rewrite (replace_image_tag_app name tag _ Htag). cbn [obind].
      rewrite (proj2 (list_position_None (length buffer) i)) by lia. reflexivity.
Qed.

(** ** The plan and the patch together *)

(** X11.  The records [compute_updates] returns for the mapping parsed
    from a list of lines can always be applied to those lines: each
    record's identifier is in the mapping with a value that holds a colon
    and a line number inside the list, no two records target the same
    line, and [apply_updates] returns a list of the same length whose
    every line is the original line or that assignment line with only the
    text after the last colon of its quoted image reference replaced, the
    image name before that colon being kept, by a tag without a colon
    that the registry lookup returned. *)
Theorem planned_updates_apply
    (registry : json -> Z -> response) (table : list (str * str)) (lines : list str)
    (timeout : Z) (fuel : nat) (w w' : world) (updates : list ImageUpdate) :
  NoDup (map fst table) ->
  compute_updates_over registry table (parse_image_constants lines) timeout fuel w
  = (Ret updates, w') ->
  Forall (applicable lines (parse_image_constants lines)) updates
  /\ NoDup (map (target_line (parse_image_constants lines)) updates)
  /\ exists patched,
       apply_updates lines (parse_image_constants lines) updates = Ret patched
       /\ Forall2 (patched_line (latest_of registry timeout fuel)) lines patched.
Proof.
  intros Hkeys Hrun. apply compute_updates_over_inv in Hrun. destruct Hrun as [Hall ->].
  assert (Happ : Forall (applicable lines (parse_image_constants lines))
                   (sorted_by_name
                      (flat_map (step_records (parse_image_constants lines)
                                   (latest_of registry timeout fuel)) table))).
  { apply Forall_forall. intros u Hu. apply list_elem_of_In in Hu.
    destruct (updates_ok lines _ table u Hu) as (i & v & Hc & Hi & Hv).
    exists i, v. auto. }
  split; [exact Happ |].
  split; [apply updates_targets_distinct; exact Hkeys |].
  apply apply_updates_loop_returns in Happ. destruct Happ as [patched Hpatch].
  exists patched. split; [exact Hpatch |].
  apply (patched_lines lines _ table Hkeys patched Hpatch).
Qed.

Lemma planned_updates_apply_sample :
  NoDup (map fst TARGET_CONST_TO_REPOSITORY)
  /\ sample_plan = (Ret sample_updates, snd sample_plan)
  /\ exists patched,
       apply_updates sample_lines sample_constants sample_updates = Ret patched
       /\ Forall2 (patched_line (latest_of one_page_registry 15 3)) sample_lines patched.
Proof.
  assert (Hrun : sample_plan = (Ret sample_updates, snd sample_plan)).
  { apply pair_of_fst. vm_compute. reflexivity. }
  split; [exact target_keys_distinct |]. split; [exact Hrun |].
  apply (planned_updates_apply one_page_registry TARGET_CONST_TO_REPOSITORY sample_lines
           15 3 empty_world (snd sample_plan) sample_updates target_keys_distinct Hrun).
Defined.

(** ** The mapping parsed from the patched lines *)

Section PatchedMapping.

Variable lines : list str.
Variable latest : str -> outcome str.
Variable table : list (str * str).

Let constants := parse_image_constants lines.
Let updates := sorted_by_name (flat_map (step_records constants latest) table).

Hypothesis table_keys : NoDup (map fst table).
Hypothesis table_returns : Forall (returns constants latest) table.

Variable patched : list str.
Hypothesis patched_eq : apply_updates lines constants updates = Ret patched.

Lemma patched_line_assigns_iff (line line' const : str) :
  patched_line latest line line' -> (assigns line const <-> assigns line' const).
Proof.
  intros Hrel. split; [| apply (patched_line_assigns _ _ _ _ Hrel)].
  destruct Hrel
    as [<- | (c & pre & name & tag & new_tag & post & -> & -> & _ & _ & _ & Hm & Hm' & _)];
    [auto |].
  intros [v Hv]. destruct (matches_functional _ _ _ _ _ Hm Hv) as [<- _].
  eexists. exact Hm'.
Qed.

Lemma patched_assigns_at (j : nat) (line' const : str) :
  patched !! j = Some line' ->
  exists line, lines !! j = Some line /\ (assigns line const <-> assigns line' const).
Proof.
  intros Hl'.
  destruct (patched_facts lines latest table table_keys patched patched_eq) as (Hlen & _).
  assert (Hj : (j < length lines)%nat) by (rewrite <- Hlen; apply (lookup_lt_Some _ _ _ Hl')).
  destruct (lookup_lt_is_Some_2 lines j Hj) as [l Hl]. exists l. split; [exact Hl |].
  destruct (patched_line_at lines latest table table_keys patched patched_eq j l Hl)
    as (l2 & Hl2 & Hrel).
  rewrite Hl' in Hl2. injection Hl2 as <-. apply patched_line_assigns_iff, Hrel.
Qed.

Lemma patched_later (const : str) (i : nat) :
  (forall j line, (i < j)%nat -> lines !! j = Some line -> ~ assigns line const) ->
  forall j line', (i < j)%nat -> patched !! j = Some line' -> ~ assigns line' const.
Proof.
  intros Hlater j l' Hlt Hl' Ha.
  destruct (patched_assigns_at j l' const Hl') as (l & Hl & Hiff).
  apply (Hlater j l Hlt Hl), Hiff, Ha.
Qed.

(** A tracked identifier keeps its line and its image name, and carries
    the latest tag. *)
Lemma patched_tracked (c r : str) :
  In (c, r) table ->
  exists i name current_tag latest_tag,
    constants !! c = Some (i, name ++ ch_colon :: current_tag)
    /\ has_colon current_tag = false
    /\ latest r = Ret latest_tag
    /\ parse_image_constants patched !! c = Some (i, name ++ ch_colon :: latest_tag).
Proof.
  intros Hin. pose proof table_returns as Hall. rewrite Forall_forall in Hall.
  destruct (Hall (c, r) (proj2 (list_elem_of_In _ _) Hin)) as [step Hstep].
  destruct (plan_entry_inv _ _ _ _ _ Hstep) as (i & v & cur & lt & Hc & Hex & Hlt & Hq & _).
  destruct (extract_image_tag_ret _ _ Hex) as (name & Hv & Hcur).
  destruct (patched_facts lines latest table table_keys patched patched_eq)
    as (Hlen & Hframe & _).
  pose proof Hc as Hentry. apply parse_entry_iff in Hentry.
  destruct Hentry as (line & Hline & Hm & Hlater).
  pose proof (patched_later c i Hlater) as Hlater'.
  destruct (update_of_entry lines latest table table_keys c r i v cur lt Hin Hc Hex Hlt Hq)
    as [Hdiff Hsame].
  exists i, name, cur, lt. subst v. split; [exact Hc |]. split; [exact Hcur |].
  split; [exact Hlt |].
  destruct (decide (cur = lt)) as [Heq | Hne].
  - rewrite <- Heq. apply parse_entry_iff. exists line.
    split; [| split; [exact Hm | exact Hlater']].
    rewrite Hframe; [exact Hline |]. intros u Hu Htarget.
    apply (Hsame Heq u Hu). unfold target_line in Htarget.
    destruct (parse_image_constants lines !! const_name u) as [[i' v'] |] eqn:Hcu;
      [| discriminate].
    injection Htarget as ->. apply (parse_same_line lines _ _ _ _ _ Hcu Hc).
  - pose proof (Hdiff Hne) as Hu.
    destruct (patched_target lines latest table table_keys patched patched_eq
                _ i name Hu Hc) as (pre & post & _ & Hp & _ & _ & Hm').
    cbn [const_name from_tag to_tag] in *.
    apply parse_entry_iff. eexists. split; [exact Hp |]. split; [exact Hm' | exact Hlater'].
Qed.

(** An identifier that is not tracked keeps its entry. *)
Lemma patched_untracked (c : str) :
  (forall r, ~ In (c, r) table) ->
  parse_image_constants patched !! c = constants !! c.
Proof.
  intros Hout.
  destruct (patched_facts lines latest table table_keys patched patched_eq)
    as (Hlen & Hframe & _).
  destruct (constants !! c) as [[i v] |] eqn:Hc.
  - pose proof Hc as Hentry. apply parse_entry_iff in Hentry.
    destruct Hentry as (line & Hline & Hm & Hlater).
    apply parse_entry_iff. exists line.
    split; [| split; [exact Hm | apply patched_later; exact Hlater]].
    rewrite Hframe; [exact Hline |]. intros u Hu Htarget.
    destruct (update_inv lines latest table u Hu) as (r & i' & name & Hin & _ & _ & Hcu & _).
    unfold target_line in Htarget. rewrite Hcu in Htarget. injection Htarget as ->.
    apply (Hout r). rewrite <- (parse_same_line lines _ _ _ _ _ Hcu Hc). exact Hin.
  - apply parse_missing_iff. intros j l' Hl' Ha.
    destruct (patched_assigns_at j l' c Hl') as (l & Hl & Hiff).
    apply (proj1 (parse_missing_iff lines c) Hc j l Hl), Hiff, Ha.
Qed.

End PatchedMapping.

(** ** What a run of [main] does *)

Lemma planned_applicable (lines : list str) (latest : str -> outcome str)
    (table : list (str * str)) :
  Forall (applicable lines (parse_image_constants lines))
    (sorted_by_name (flat_map (step_records (parse_image_constants lines) latest) table)).
Proof.
  apply Forall_forall. intros u Hu. apply list_elem_of_In in Hu.
  destruct (updates_ok lines latest table u Hu) as (i & v & Hc & Hi & Hv).
  exists i, v. auto.
Qed.

Lemma main_run_log registry timestamp images_file report_file timeout fuel (w : world)
    (text : str) (patched : list str) :
  fs w !! images_file = Some text ->
  Forall (returns (parse_image_constants (splitlines text)) (latest_of registry timeout fuel))
    TARGET_CONST_TO_REPOSITORY ->
  apply_updates (splitlines text) (parse_image_constants (splitlines text))
    (sorted_by_name
       (flat_map (step_records (parse_image_constants (splitlines text))
                    (latest_of registry timeout fuel)) TARGET_CONST_TO_REPOSITORY))
  = Ret patched ->
  main registry timestamp images_file report_file timeout fuel w
  = (Ret 0%Z,
     after_run images_file report_file timestamp
       (sorted_by_name
          (flat_map (step_records (parse_image_constants (splitlines text))
                       (latest_of registry timeout fuel)) TARGET_CONST_TO_REPOSITORY))
       patched
       (flat_map (fun e => fetch_log registry timeout fuel (snd e)) TARGET_CONST_TO_REPOSITORY)
       w).
Proof.
  intros Hfile Hall Hpatch. unfold main. rewrite Hfile. unfold main_body.
  unfold bind at 1. unfold compute_updates.
  rewrite (compute_updates_over_log _ _ _ _ _ w Hall).
  unfold bind at 1. unfold lift at 1. rewrite Hpatch.
  unfold after_run.
  destruct (sorted_by_name
              (flat_map (step_records (parse_image_constants (splitlines text))
                           (latest_of registry timeout fuel)) TARGET_CONST_TO_REPOSITORY));
    reflexivity.
Qed.

Lemma main_success_run registry timestamp images_file report_file timeout fuel (w w1 : world) :
  main registry timestamp images_file report_file timeout fuel w = (Ret 0%Z, w1) ->
  exists text patched,
    fs w !! images_file = Some text
    /\ Forall (returns (parse_image_constants (splitlines text))
                 (latest_of registry timeout fuel)) TARGET_CONST_TO_REPOSITORY
    /\ apply_updates (splitlines text) (parse_image_constants (splitlines text))
         (sorted_by_name
            (flat_map (step_records (parse_image_constants (splitlines text))
                         (latest_of registry timeout fuel)) TARGET_CONST_TO_REPOSITORY))
       = Ret patched
    /\ w1 = after_run images_file report_file timestamp
              (sorted_by_name
                 (flat_map (step_records (parse_image_constants (splitlines text))
                              (latest_of registry timeout fuel)) TARGET_CONST_TO_REPOSITORY))
              patched
              (flat_map (fun e => fetch_log registry timeout fuel (snd e))
                 TARGET_CONST_TO_REPOSITORY)
              w.
Proof.
  intros Hmain.
  destruct (main_success_inv _ _ _ _ _ _ _ _ Hmain) as (text & raw & Hfile & Hplan).
  pose proof (plan_pure_inv _ _ _ _ _ Hplan) as Hall.
  destruct (proj2 (apply_updates_loop_returns (parse_image_constants (splitlines text))
                     (sorted_by_name
                        (flat_map (step_records (parse_image_constants (splitlines text))
                                     (latest_of registry timeout fuel))
                           TARGET_CONST_TO_REPOSITORY))
                     (splitlines text))
              (planned_applicable _ _ _)) as [patched Hpatch].
  exists text, patched. split; [exact Hfile |]. split; [exact Hall |]. split; [exact Hpatch |].
  rewrite (main_run_log registry timestamp images_file report_file timeout fuel w text patched
             Hfile Hall Hpatch) in Hmain.
  congruence.
Qed.

Lemma compute_updates_outcome registry constants timeout fuel (w : world) :
  Forall (returns constants (latest_of registry timeout fuel)) TARGET_CONST_TO_REPOSITORY ->
  fst (compute_updates registry constants timeout fuel w)
  = Ret (sorted_by_name
           (flat_map (step_records constants (latest_of registry timeout fuel))
              TARGET_CONST_TO_REPOSITORY)).
Proof.
  intros Hall. unfold compute_updates. rewrite (compute_updates_over_log _ _ _ _ _ w Hall).
  reflexivity.
Qed.

(** X12.  How [main] ends when it does not reach its writes.  Without
    the constants file the status is 1 and nothing happens.  With it:
    when [compute_updates] raises an exception of a class [main] catches,
    the status is 1; an exception of another class leaves [main]; and
    [main] does not end when [compute_updates] does not; in these cases
    only requests have been sent.  Status 0 is returned only after
    [compute_updates] has returned, and no status other than 0 and 1 is
    returned.  (That [main] returns 0 whenever [compute_updates] returns
    needs the writes to succeed, and is not stated here.) *)
Theorem main_exit_status
    (registry : json -> Z -> response) (timestamp images_file report_file : str)
    (timeout : Z) (fuel : nat) (w : world) :
  let run := main registry timestamp images_file report_file timeout fuel w in
  let plan text :=
    compute_updates registry (parse_image_constants (splitlines text)) timeout fuel w in
  (fs w !! images_file = None -> run = (Ret 1%Z, w))
  /\ (forall text e,
        fs w !! images_file = Some text -> fst (plan text) = Raise e ->
        run = (if caught_by_main e then Ret 1%Z else Raise e, snd (plan text))
        /\ fs (snd run) = fs w /\ writes (snd run) = writes w)
  /\ (forall text,
        fs w !! images_file = Some text -> fst (plan text) = Diverge ->
        run = (Diverge, snd (plan text))
        /\ fs (snd run) = fs w /\ writes (snd run) = writes w)
  /\ (fst run = Ret 0%Z ->
      exists text updates,
        fs w !! images_file = Some text /\ fst (plan text) = Ret updates)
  /\ (forall status, fst run = Ret status -> status = 0%Z \/ status = 1%Z).
Proof.
  intros run plan.
  assert (Hplan : forall text,
            fs w !! images_file = Some text ->
            match fst (plan text) with
            | Ret _ => fst run = Ret 0%Z
            | Raise e => run = (if caught_by_main e then Ret 1%Z else Raise e, snd (plan text))
                         /\ fs (snd (plan text)) = fs w /\ writes (snd (plan text)) = writes w
            | Diverge => run = (Diverge, snd (plan text))
                         /\ fs (snd (plan text)) = fs w /\ writes (snd (plan text)) = writes w
            end).
  { intros text Hfile.
    destruct (compute_updates_over_run registry TARGET_CONST_TO_REPOSITORY
                (parse_image_constants (splitlines text)) timeout fuel) as (log & Hlog).
    unfold plan, compute_updates. rewrite Hlog. cbn [fst snd].
    destruct (plan_pure (parse_image_constants (splitlines text))
                (latest_of registry timeout fuel) TARGET_CONST_TO_REPOSITORY [])
      as [raw | e |] eqn:Hpure; cbn [obind].
    - pose proof (plan_pure_inv _ _ _ _ _ Hpure) as Hall.
      destruct (proj2 (apply_updates_loop_returns (parse_image_constants (splitlines text))
                         (sorted_by_name
                            (flat_map (step_records (parse_image_constants (splitlines text))
                                         (latest_of registry timeout fuel))
                               TARGET_CONST_TO_REPOSITORY))
                         (splitlines text))
                  (planned_applicable _ _ _)) as [patched Hpatch].
      unfold run.
      rewrite (main_run_log registry timestamp images_file report_file timeout fuel w text
                 patched Hfile Hall Hpatch).
      reflexivity.
    - split; [| split; reflexivity].
      unfold run, main. rewrite Hfile. unfold main_body. unfold bind at 1.
      unfold compute_updates. rewrite Hlog. cbn [obind].
      destruct (caught_by_main e); reflexivity.
    - split; [| split; reflexivity].
      unfold run, main. rewrite Hfile. unfold main_body. unfold bind at 1.
      unfold compute_updates. rewrite Hlog. reflexivity. }
  split; [| split; [| split; [| split]]].
  - intros Hfile. unfold run, main. rewrite Hfile. reflexivity.
  - intros text e Hfile He. pose proof (Hplan text Hfile) as H. rewrite He in H.
    destruct H as (Hrun & Hfs & Hwrites). rewrite Hrun. cbn [snd]. auto.
  - intros text Hfile Hd. pose proof (Hplan text Hfile) as H. rewrite Hd in H.
    destruct H as (Hrun & Hfs & Hwrites). rewrite Hrun. cbn [snd]. auto.
  - intros Hzero. destruct (fs w !! images_file) as [text |] eqn:Hfile.
    + exists text. pose proof (Hplan text eq_refl) as H.
      destruct (fst (plan text)) as [updates | e |].
      * exists updates. auto.
      * destruct H as (Hrun & _). rewrite Hrun in Hzero. cbn [fst] in Hzero.
        destruct (caught_by_main e); discriminate.
      * destruct H as (Hrun & _). rewrite Hrun in Hzero. discriminate.
    + unfold run, main in Hzero. rewrite Hfile in Hzero. discriminate.
  - intros status Hstatus. destruct (fs w !! images_file) as [text |] eqn:Hfile.
    + pose proof (Hplan text eq_refl) as H.
      destruct (fst (plan text)) as [updates | e |].
      * left. congruence.
      * destruct H as (Hrun & _). rewrite Hrun in Hstatus. cbn [fst] in Hstatus.
        destruct (caught_by_main e); [right |]; congruence.
      * destruct H as (Hrun & _). rewrite Hrun in Hstatus. discriminate.
    + unfold run, main in Hstatus. rewrite Hfile in Hstatus. cbn [fst] in Hstatus.
      right. congruence.
Qed.

Lemma after_run_images_file (images_file report_file timestamp text : str)
    (constants : gmap str (nat * str)) (updates : list ImageUpdate) (patched : list str)
    (log : list json) (w : world) :
  images_file <> report_file ->
  fs w !! images_file = Some text ->
  apply_updates (splitlines text) constants updates = Ret patched ->
  fs (after_run images_file report_file timestamp updates patched log w) !! images_file
  = Some (concat patched).
Proof.
  intros Hpaths Hfile Hpatch. unfold after_run. cbn [fs].
  rewrite lookup_insert_ne by congruence.
  destruct updates as [| u us].
  - cbn [fs add_requests]. rewrite Hfile. f_equal.
    injection Hpatch as <-. symmetry. apply concat_splitlines.
  - cbn [fs]. apply lookup_insert_eq.
Qed.

(** X13.  What a successful run of [main] leaves behind: the requests of
    one registry lookup per tracked identifier, in table order; one write
    of the constants file, only when there is an update record, followed
    by one write of the report, and no other write; the report file holds
    the report, and every path other than the two files is as before. *)
Theorem main_success_effects
    (registry : json -> Z -> response) (timestamp images_file report_file : str)
    (timeout : Z) (fuel : nat) (w w1 : world) :
  main registry timestamp images_file report_file timeout fuel w = (Ret 0%Z, w1) ->
  exists text updates patched,
    fs w !! images_file = Some text
    /\ fst (compute_updates registry (parse_image_constants (splitlines text)) timeout fuel w)
       = Ret updates
    /\ apply_updates (splitlines text) (parse_image_constants (splitlines text)) updates
       = Ret patched
    /\ requests w1
       = requests w
         ++ flat_map (fun e => fetch_log registry timeout fuel (snd e))
              TARGET_CONST_TO_REPOSITORY
    /\ writes w1
       = writes w
         ++ match updates with
            | [] => []
            | _ :: _ => [(images_file, concat patched)]
            end
         ++ [(report_file, report_text timestamp updates)]
    /\ fs w1 !! report_file = Some (report_text timestamp updates)
    /\ (forall path, path <> images_file -> path <> report_file ->
          fs w1 !! path = fs w !! path).
Proof.
  intros Hmain.
  destruct (main_success_run _ _ _ _ _ _ _ _ Hmain) as (text & patched & Hfile & Hall & Hpatch & ->).
  eexists text, _, patched. split; [exact Hfile |].
  split; [apply compute_updates_outcome; exact Hall |]. split; [exact Hpatch |].
  unfold after_run.
  destruct (sorted_by_name
              (flat_map (step_records (parse_image_constants (splitlines text))
                           (latest_of registry timeout fuel)) TARGET_CONST_TO_REPOSITORY))
    as [| u us]; cbn [requests writes fs add_requests].
  - split; [reflexivity |]. split; [reflexivity |]. split; [apply lookup_insert_eq |].
    intros path _ Hp. apply lookup_insert_ne. congruence.
  - split; [reflexivity |]. split; [rewrite <- app_assoc; reflexivity |].
    split; [apply lookup_insert_eq |].
    intros path Hi Hp. rewrite lookup_insert_ne by congruence.
    apply lookup_insert_ne. congruence.
Qed.

Lemma main_success_effects_sample :
  sample_run = (Ret 0%Z, snd sample_run)
  /\ exists text updates patched,
       fs (sample_world sample_text) !! lit "images.go" = Some text
       /\ fst (compute_updates one_page_registry (parse_image_constants (splitlines text)) 15 3
                 (sample_world sample_text)) = Ret updates
       /\ apply_updates (splitlines text) (parse_image_constants (splitlines text)) updates
          = Ret patched
       /\ requests (snd sample_run)
          = requests (sample_world sample_text)
            ++ flat_map (fun e => fetch_log one_page_registry 15 3 (snd e))
                 TARGET_CONST_TO_REPOSITORY
       /\ writes (snd sample_run)
          = writes (sample_world sample_text)
            ++ match updates with
               | [] => []
               | _ :: _ => [(lit "images.go", concat patched)]
               end
            ++ [(lit "report.md", report_text (lit "2026-01-01 00:00:00Z") updates)]
       /\ fs (snd sample_run) !! lit "report.md"
          = Some (report_text (lit "2026-01-01 00:00:00Z") updates)
       /\ (forall path, path <> lit "images.go" -> path <> lit "report.md" ->
             fs (snd sample_run) !! path = fs (sample_world sample_text) !! path).
Proof.
  assert (Hrun : sample_run = (Ret 0%Z, snd sample_run)).
  { apply pair_of_fst. vm_compute. reflexivity. }
  split; [exact Hrun |].
  apply (main_success_effects one_page_registry (lit "2026-01-01 00:00:00Z") (lit "images.go")
           (lit "report.md") 15 3 (sample_world sample_text) (snd sample_run) Hrun).
Defined.

(** ** The constants file after a successful run *)

Lemma main_success_file registry timestamp images_file report_file timeout fuel (w w1 : world) :
  main registry timestamp images_file report_file timeout fuel w = (Ret 0%Z, w1) ->
  images_file <> report_file ->
  exists text patched,
    fs w !! images_file = Some text
    /\ Forall (returns (parse_image_constants (splitlines text))
                 (latest_of registry timeout fuel)) TARGET_CONST_TO_REPOSITORY
    /\ apply_updates (splitlines text) (parse_image_constants (splitlines text))
         (sorted_by_name
            (flat_map (step_records (parse_image_constants (splitlines text))
                         (latest_of registry timeout fuel)) TARGET_CONST_TO_REPOSITORY))
       = Ret patched
    /\ fs w1 !! images_file = Some (concat patched)
    /\ splitlines (concat patched) = patched.
Proof.
  intros Hmain Hpaths.
  destruct (main_success_run _ _ _ _ _ _ _ _ Hmain) as (text & patched & Hfile & Hall & Hpatch & ->).
  exists text, patched. split; [exact Hfile |]. split; [exact Hall |]. split; [exact Hpatch |].
  split; [apply (after_run_images_file _ _ _ text _ _ _ _ _ Hpaths Hfile Hpatch) |].
  apply splitlines_concat.
  apply (well_split_patched (latest_of registry timeout fuel) (splitlines text) patched).
  - intros r t Ht. apply latest_of_format in Ht. destruct Ht as [m ->].
    apply format_version_nolb.
  - apply (patched_lines (splitlines text) _ TARGET_CONST_TO_REPOSITORY target_keys_distinct
             patched Hpatch).
  - apply well_split_splitlines.
Qed.

(** X14.  After a successful run of [main], with the report written to
    another file, the constants file assigns to every tracked identifier,
    on the same line as before and with the same image name, the latest
    tag that the registry lookup returns for its repository. *)
Theorem main_brings_tracked_up_to_date
    (registry : json -> Z -> response) (timestamp images_file report_file : str)
    (timeout : Z) (fuel : nat) (w w1 : world) :
  main registry timestamp images_file report_file timeout fuel w = (Ret 0%Z, w1) ->
  images_file <> report_file ->
  exists text text',
    fs w !! images_file = Some text
    /\ fs w1 !! images_file = Some text'
    /\ forall c r, In (c, r) TARGET_CONST_TO_REPOSITORY ->
         exists i name current_tag latest_tag,
           parse_image_constants (splitlines text) !! c
           = Some (i, name ++ ch_colon :: current_tag)
           /\ has_colon current_tag = false
           /\ latest_of registry timeout fuel r = Ret latest_tag
           /\ parse_image_constants (splitlines text') !! c
              = Some (i, name ++ ch_colon :: latest_tag).
Proof.
  intros Hmain Hpaths.
  destruct (main_success_file _ _ _ _ _ _ _ _ Hmain Hpaths)
    as (text & patched & Hfile & Hall & Hpatch & Hfile1 & Hsplit).
  exists text, (concat patched). split; [exact Hfile |]. split; [exact Hfile1 |].
  intros c r Hin. rewrite Hsplit.
  apply (patched_tracked (splitlines text) (latest_of registry timeout fuel)
           TARGET_CONST_TO_REPOSITORY target_keys_distinct Hall patched Hpatch c r Hin).
Qed.

Lemma main_brings_tracked_up_to_date_sample :
  sample_run = (Ret 0%Z, snd sample_run)
  /\ lit "images.go" <> lit "report.md"
  /\ exists text text',
       fs (sample_world sample_text) !! lit "images.go" = Some text
       /\ fs (snd sample_run) !! lit "images.go" = Some text'
       /\ forall c r, In (c, r) TARGET_CONST_TO_REPOSITORY ->
            exists i name current_tag latest_tag,
              parse_image_constants (splitlines text) !! c
              = Some (i, name ++ ch_colon :: current_tag)
              /\ has_colon current_tag = false
              /\ latest_of one_page_registry 15 3 r = Ret latest_tag
              /\ parse_image_constants (splitlines text') !! c
                 = Some (i, name ++ ch_colon :: latest_tag).
Proof.
  assert (Hpaths : lit "images.go" <> lit "report.md") by (vm_compute; discriminate).
  assert (Hrun : sample_run = (Ret 0%Z, snd sample_run)).
  { apply pair_of_fst. vm_compute. reflexivity. }
  split; [exact Hrun |]. split; [exact Hpaths |].
  apply (main_brings_tracked_up_to_date one_page_registry (lit "2026-01-01 00:00:00Z")
           (lit "images.go") (lit "report.md") 15 3 (sample_world sample_text)
           (snd sample_run) Hrun Hpaths).
Defined.

Lemma nolb_no_carriage_return (s : str) : nolb s = true -> no_carriage_return s = true.
Proof.
  apply forallb_impl. intros c. by_cases_on_char c.
Qed.

Lemma patched_line_no_carriage_return (latest : str -> outcome str) (l l' : str) :
  (forall r t, latest r = Ret t -> nolb t = true) ->
  patched_line latest l l' ->
  no_carriage_return l = true -> no_carriage_return l' = true.
Proof.
  intros Hlatest
    [<- | (c & pre & name & tag & new_tag & post & -> & -> & _ & _ & _ & _ & _ & r & Hr)];
    [auto |].
  pose proof (nolb_no_carriage_return _ (Hlatest r new_tag Hr)) as Hnew.
  unfold no_carriage_return in *.
  rewrite !forallb_app. cbn [forallb]. rewrite !forallb_app. cbn [forallb].
  rewrite !andb_true_iff. tauto.
Qed.

Lemma patched_no_carriage_return (latest : str -> outcome str) (ls ls' : list str) :
  (forall r t, latest r = Ret t -> nolb t = true) ->
  Forall2 (patched_line latest) ls ls' ->
  no_carriage_return (concat ls) = true -> no_carriage_return (concat ls') = true.
Proof.
  intros Hlatest. induction 1 as [| l l' rest rest' Hl Hrest IH]; [auto |].
  cbn [concat].
  change (no_carriage_return (l ++ concat rest))
    with (forallb (fun c => negb (Ascii.eqb c ch_cr)) (l ++ concat rest)).
  change (no_carriage_return (l' ++ concat rest'))
    with (forallb (fun c => negb (Ascii.eqb c ch_cr)) (l' ++ concat rest')).
  rewrite !forallb_app.
  intros H. apply andb_prop in H. destruct H as [H1 H2].
  apply andb_true_intro. split.
  - apply (patched_line_no_carriage_return latest l l' Hlatest Hl H1).
  - apply IH, H2.
Qed.

(** X15.  A successful run of [main], with the report written to another
    file, on a constants file without carriage returns (which text mode
    reading returns as it is), changes that file in the tags of tracked
    assignments only: line by line, the new file holds the old line or
    that line with only the text after the last colon of its quoted image
    reference replaced by a tag the registry lookup returned; an
    identifier that is not tracked keeps its entry in the parsed mapping;
    every identifier is found on the same line as before, none appearing
    and none disappearing; and the new file holds no carriage return
    either. *)
Theorem main_changes_tags_only
    (registry : json -> Z -> response) (timestamp images_file report_file : str)
    (timeout : Z) (fuel : nat) (w w1 : world) (text : str) :
  main registry timestamp images_file report_file timeout fuel w = (Ret 0%Z, w1) ->
  images_file <> report_file ->
  fs w !! images_file = Some text ->
  no_carriage_return text = true ->
  exists text',
    fs w1 !! images_file = Some text'
    /\ no_carriage_return text' = true
    /\ Forall2 (patched_line (latest_of registry timeout fuel))
         (splitlines text) (splitlines text')
    /\ (forall c, (forall r, ~ In (c, r) TARGET_CONST_TO_REPOSITORY) ->
          parse_image_constants (splitlines text') !! c
          = parse_image_constants (splitlines text) !! c)
    /\ (forall c, fst <$> parse_image_constants (splitlines text') !! c
                  = fst <$> parse_image_constants (splitlines text) !! c).
Proof.
  intros Hmain Hpaths Hfile0 Hcr.
  destruct (main_success_file _ _ _ _ _ _ _ _ Hmain Hpaths)
    as (text0 & patched & Hfile & Hall & Hpatch & Hfile1 & Hsplit).
  assert (text0 = text) by congruence. subst text0.
  exists (concat patched). split; [exact Hfile1 |].
  rewrite Hsplit.
  pose proof (patched_lines (splitlines text) _ TARGET_CONST_TO_REPOSITORY
                target_keys_distinct patched Hpatch) as Hlines.
  pose proof (patched_untracked (splitlines text) (latest_of registry timeout fuel)
                TARGET_CONST_TO_REPOSITORY target_keys_distinct patched Hpatch) as Hun.
  split; [| split; [exact Hlines | split; [exact Hun |]]].
  - apply (patched_no_carriage_return (latest_of registry timeout fuel) (splitlines text)
             patched).
    + intros r t Ht. apply latest_of_format in Ht. destruct Ht as [m ->].
      apply format_version_nolb.
    + exact Hlines.
    + rewrite concat_splitlines. exact Hcr.
  - intros c.
    destruct (decide (c ∈ map fst TARGET_CONST_TO_REPOSITORY)) as [Hin | Hout].
    + apply list_elem_of_In, in_map_iff in Hin. destruct Hin as ([c' r] & Hc & Hin).
      cbn [fst] in Hc. subst c'.
      destruct (patched_tracked (splitlines text) (latest_of registry timeout fuel)
                  TARGET_CONST_TO_REPOSITORY target_keys_distinct Hall patched Hpatch c r Hin)
        as (i & name & cur & lt & Hold & _ & _ & Hnew).
      rewrite Hold, Hnew. reflexivity.
    + rewrite Hun; [reflexivity |]. intros r Hin. apply Hout, list_elem_of_In.
      change c with (fst (c, r)). apply in_map. exact Hin.
Qed.

Lemma main_changes_tags_only_sample :
  sample_run = (Ret 0%Z, snd sample_run)
  /\ lit "images.go" <> lit "report.md"
  /\ fs (sample_world sample_text) !! lit "images.go" = Some sample_text
  /\ no_carriage_return sample_text = true
  /\ exists text',
       fs (snd sample_run) !! lit "images.go" = Some text'
       /\ no_carriage_return text' = true
       /\ Forall2 (patched_line (latest_of one_page_registry 15 3))
            (splitlines sample_text) (splitlines text')
       /\ (forall c, (forall r, ~ In (c, r) TARGET_CONST_TO_REPOSITORY) ->
             parse_image_constants (splitlines text') !! c
             = parse_image_constants (splitlines sample_text) !! c)
       /\ (forall c, fst <$> parse_image_constants (splitlines text') !! c
                     = fst <$> parse_image_constants (splitlines sample_text) !! c).
Proof.
  assert (Hpaths : lit "images.go" <> lit "report.md") by (vm_compute; discriminate).
  assert (Hrun : sample_run = (Ret 0%Z, snd sample_run)).
  { apply pair_of_fst. vm_compute. reflexivity. }
  assert (Hfile : fs (sample_world sample_text) !! lit "images.go" = Some sample_text)
    by (vm_compute; reflexivity).
  assert (Hcr : no_carriage_return sample_text = true) by (vm_compute; reflexivity).
  split; [exact Hrun |]. split; [exact Hpaths |]. split; [exact Hfile |]. split; [exact Hcr |].
  apply (main_changes_tags_only one_page_registry (lit "2026-01-01 00:00:00Z")
           (lit "images.go") (lit "report.md") 15 3 (sample_world sample_text)
           (snd sample_run) sample_text Hrun Hpaths Hfile Hcr).
Defined.

(** ** Parsing a concatenation *)

Lemma parse_from_app (l1 : list str) : forall l2 index constants,
  parse_from index (l1 ++ l2) constants
  = parse_from (index + length l1) l2 (parse_from index l1 constants).
Proof.
  induction l1 as [| line rest IH]; intros l2 index constants.
  - cbn [app length parse_from]. rewrite Nat.add_0_r. reflexivity.
  - cbn [app length parse_from]. rewrite IH. f_equal. lia.
Qed.

Lemma last_assignment_shift (lines : list str) : forall index const,
  last_assignment index lines const
  = (fun entry => ((index + fst entry)%nat, snd entry)) <$> last_assignment 0 lines const.
Proof.
  induction lines as [| line rest IH]; intros index const; [reflexivity |].
  cbn [last_assignment]. rewrite (IH (S index)), (IH 1%nat).
  destruct (last_assignment 0 rest const) as [[i v] |]; cbn [fmap option_fmap option_map fst snd].
  - do 2 f_equal. lia.
  - destruct (const_line_match line) as [[[indent c] v] |]; [| reflexivity].
    destruct (decide (c = const)); [| reflexivity].
    cbn [fmap option_fmap option_map fst snd]. do 2 f_equal. lia.
Qed.

(** X16.  [parse_image_constants] on a concatenation: an identifier that
    the second part assigns has the entry of the second part, with the
    line number moved past the first part; any other identifier has the
    entry of the first part.  So lines appended to a file override the
    earlier assignments of the identifiers they assign and leave the
    other entries as they are. *)
Theorem parse_image_constants_app (first second : list str) (const : str) :
  parse_image_constants (first ++ second) !! const
  = match parse_image_constants second !! const with
    | Some (i, value) => Some ((length first + i)%nat, value)
    | None => parse_image_constants first !! const
    end.
Proof.
  unfold parse_image_constants. rewrite parse_from_app, !parse_from_last.
  cbn [Nat.add]. rewrite (last_assignment_shift second (length first)).
  destruct (last_assignment 0 second const) as [[i v] |];
    cbn [fmap option_fmap option_map fst snd]; [reflexivity |].
  rewrite lookup_empty. reflexivity.
Qed.

(** ** The ways a step of the plan fails *)

(** X17.  One step of the loop of [compute_updates] raises in three ways
    only: the constant is missing, its value has no colon, or the
    registry lookup raises.  The check of the latest tag against the
    version pattern never fails, because the lookup returns a tag it has
    formatted from a version: when the constant is there, with a colon in
    its value, and the lookup returns, the step returns. *)
Theorem plan_step_fails_in_three_ways
    (registry : json -> Z -> response) (constants : gmap str (nat * str))
    (timeout : Z) (fuel : nat) (c r : str) (w : world) :
  (forall e,
     fst (plan_step registry constants timeout fuel (c, r) w) = Raise e ->
     (constants !! c = None /\ e = constant_not_found c)
     \/ (exists i v, constants !! c = Some (i, v) /\ has_colon v = false
           /\ e = invalid_format v)
     \/ (exists i v, constants !! c = Some (i, v) /\ has_colon v = true
           /\ fst (fetch_latest_semver_tag registry r timeout fuel w) = Raise e))
  /\ (forall i v latest_tag,
        constants !! c = Some (i, v) -> has_colon v = true ->
        fst (fetch_latest_semver_tag registry r timeout fuel w) = Ret latest_tag ->
        parse_semver latest_tag <> None
        /\ exists step, fst (plan_step registry constants timeout fuel (c, r) w) = Ret step).
Proof.
  rewrite plan_step_log. cbn [fst]. rewrite fetch_latest_run_log. cbn [fst].
  unfold plan_entry. split.
  - intros e.
    destruct (constants !! c) as [[i v] |] eqn:Hc.
    2:{ intros [= <-]. left. auto. }
    destruct (has_colon v) eqn:Hv.
    2:{ rewrite (extract_image_tag_no_colon v Hv). cbn [obind]. intros [= <-].
        right. left. exists i, v. auto. }
    destruct (has_colon_rsplit v Hv) as (name & tag & _ & -> & Htag).
    rewrite (extract_image_tag_app name tag Htag). cbn [obind].
    destruct (latest_of registry timeout fuel r) as [lt | e' |] eqn:Hlt; cbn [obind];
      try discriminate.
    + destruct (latest_canonical _ _ _ _ _ Hlt) as (vl & Hvl & _). rewrite Hvl.
      destruct (decide (tag = lt)); discriminate.
    + intros [= <-]. right. right. exists i, (name ++ ch_colon :: tag). auto.
  - intros i v lt -> Hv Hlt.
    destruct (latest_canonical _ _ _ _ _ Hlt) as (vl & Hvl & _).
    split; [congruence |].
    destruct (has_colon_rsplit v Hv) as (name & tag & _ & -> & Htag).
    rewrite (extract_image_tag_app name tag Htag). cbn [obind]. rewrite Hlt. cbn [obind].
    rewrite Hvl. destruct (decide (tag = lt)); eexists; reflexivity.
Qed.
